(** * BetterCompare: the diff engine, the session registry and the
      viewport synchroniser of [compare_plugin.py], embedded in Rocq.

    Python integers that index lists are modelled as [nat] (they come from
    [range], [len] and [difflib], and are never negative); the navigation
    cursor, which is decremented below zero before the modulo, is a [Z].
    A Python list access [l[i]] is [l !! i]: [None] stands for the
    [IndexError] the access would raise, and is threaded through the
    [option] monad. *)

From Stdlib Require Import ZArith Lia.
From stdpp Require Import base option list sorting gmap strings pretty.

Open Scope nat_scope.

(** ** Opcodes *)

(** The four tags of [difflib.SequenceMatcher.get_opcodes]. *)
Inductive Tag := tag_equal | tag_insert | tag_delete | tag_replace.

#[global] Instance Tag_eq_dec : EqDecision Tag.
Proof. solve_decision. Defined.

(** An opcode is the Python tuple [(tag, i1, i2, j1, j2)]. *)
Definition Opcode : Type := Tag * nat * nat * nat * nat.

(** A matching block is the Python tuple [Match(a, b, size)]. *)
Definition Match : Type := nat * nat * nat.

(** ** [difflib.SequenceMatcher], as the plugin configures it

    The plugin builds every matcher as
    [difflib.SequenceMatcher(None, a, b, autojunk=False)]: no junk
    predicate and no popularity heuristic, so [bjunk] is the empty set and
    [b2j] indexes every element of [b].  The definitions below follow the
    CPython implementation of [find_longest_match], [get_matching_blocks]
    and [get_opcodes] statement by statement. *)
Module Difflib.
Section SequenceMatcher.
Context {A : Type} `{EqDecision A}.
Variables a b : list A.

(** [b2j.get(x, nothing)]: the indices of [b] that hold [x], ascending
    (the dictionary is filled by one pass of [enumerate(b)]). *)
Definition b2j_get (x : A) : list nat :=
  filter (fun j => b !! j = Some x) (seq 0 (length b)).

(** [bjunk.__contains__] for the empty junk set. *)
Definition isbjunk (_ : A) : bool := false.

(** [j2len.get(j-1, 0)]; the key [-1] is never present. *)
Definition j2lenget (j2len : gmap nat nat) (j : nat) : nat :=
  match j with
  | 0 => 0
  | S j' => default 0 (j2len !! j')
  end.

(** The inner loop [for j in b2j.get(a[i], nothing)] of
    [find_longest_match], with its [continue] and its [break].
    [i - k + 1] is written [i + 1 - k] to stay in [nat]. *)
Fixpoint scan_row (i blo bhi : nat) (j2len : gmap nat nat) (js : list nat)
    (newj2len : gmap nat nat) (best : Match) : gmap nat nat * Match :=
  match js with
  | [] => (newj2len, best)
  | j :: js' =>
      if decide (j < blo) then scan_row i blo bhi j2len js' newj2len best
      else if decide (bhi ≤ j) then (newj2len, best)
      else
        let k := j2lenget j2len j + 1 in
        let newj2len := <[j := k]> newj2len in
        let best := if decide (best.2 < k) then (i + 1 - k, j + 1 - k, k)
                    else best in
        scan_row i blo bhi j2len js' newj2len best
  end.

(** The outer loop [for i in range(alo, ahi)]. *)
Fixpoint scan_rows (rows : list nat) (blo bhi : nat) (j2len : gmap nat nat)
    (best : Match) : option Match :=
  match rows with
  | [] => Some best
  | i :: rows' =>
      x ← a !! i;
      let '(newj2len, best) := scan_row i blo bhi j2len (b2j_get x) ∅ best in
      scan_rows rows' blo bhi newj2len best
  end.

(** The guard of the two backward-extension loops:
    [besti > alo and bestj > blo and (not) isbjunk(b[bestj-1])
     and a[besti-1] == b[bestj-1]]; [junk] selects the second form. *)
Definition guard_left (junk : bool) (alo blo : nat) (best : Match)
    : option bool :=
  let '(besti, bestj, _) := best in
  if decide (alo < besti) then
    if decide (blo < bestj) then
      y ← b !! (bestj - 1);
      if negb (bool_decide (isbjunk y = junk)) then Some false
      else x ← a !! (besti - 1); Some (bool_decide (x = y))
    else Some false
  else Some false.

(** The guard of the two forward-extension loops. *)
Definition guard_right (junk : bool) (ahi bhi : nat) (best : Match)
    : option bool :=
  let '(besti, bestj, bestsize) := best in
  if decide (besti + bestsize < ahi) then
    if decide (bestj + bestsize < bhi) then
      y ← b !! (bestj + bestsize);
      if negb (bool_decide (isbjunk y = junk)) then Some false
      else x ← a !! (besti + bestsize); Some (bool_decide (x = y))
    else Some false
  else Some false.

(** [while guard: besti, bestj, bestsize = besti-1, bestj-1, bestsize+1].
    The loop runs at most [besti] times; [n] counts them down. *)
Fixpoint extend_left (junk : bool) (n alo blo : nat) (best : Match)
    : option Match :=
  g ← guard_left junk alo blo best;
  if g : bool then
    match n with
    | 0 => None
    | S n' =>
        let '(besti, bestj, bestsize) := best in
        extend_left junk n' alo blo (besti - 1, bestj - 1, bestsize + 1)
    end
  else Some best.

(** [while guard: bestsize += 1]; at most [ahi] iterations. *)
Fixpoint extend_right (junk : bool) (n ahi bhi : nat) (best : Match)
    : option Match :=
  g ← guard_right junk ahi bhi best;
  if g : bool then
    match n with
    | 0 => None
    | S n' =>
        let '(besti, bestj, bestsize) := best in
        extend_right junk n' ahi bhi (besti, bestj, bestsize + 1)
    end
  else Some best.

Definition find_longest_match (alo ahi blo bhi : nat) : option Match :=
  best ← scan_rows (seq alo (ahi - alo)) blo bhi ∅ (alo, blo, 0);
  best ← extend_left false best.1.1 alo blo best;
  best ← extend_right false ahi ahi bhi best;
  best ← extend_left true best.1.1 alo blo best;
  extend_right true ahi ahi bhi best.

(** A queue entry [(alo, ahi, blo, bhi)]. *)
Definition Window : Type := nat * nat * nat * nat.

(** The [while queue:] loop of [get_matching_blocks].  [queue.pop()]
    takes the last entry of the Python list, so the list is kept here
    with its last entry first.  [fuel] bounds the iterations. *)
Fixpoint blocks_loop (fuel : nat) (queue : list Window)
    (matching_blocks : list Match) : option (list Match) :=
  match queue with
  | [] => Some matching_blocks
  | (alo, ahi, blo, bhi) :: queue =>
      match fuel with
      | 0 => None
      | S fuel' =>
          x ← find_longest_match alo ahi blo bhi;
          let '(i, j, k) := x in
          if decide (k = 0) then blocks_loop fuel' queue matching_blocks
          else
            let matching_blocks := matching_blocks ++ [x] in
            let queue :=
              if decide (alo < i ∧ blo < j) then (alo, i, blo, j) :: queue
              else queue in
            let queue :=
              if decide (i + k < ahi ∧ j + k < bhi)
              then (i + k, ahi, j + k, bhi) :: queue
              else queue in
            blocks_loop fuel' queue matching_blocks
      end
  end.

(** The order of [matching_blocks.sort()]: tuples compare
    lexicographically. *)
Definition match_le (x y : Match) : Prop :=
  let '(i1, j1, k1) := x in
  let '(i2, j2, k2) := y in
  i1 < i2 ∨ (i1 = i2 ∧ (j1 < j2 ∨ (j1 = j2 ∧ k1 ≤ k2))).

#[global] Instance match_le_dec : RelDecision match_le.
Proof. intros [[i1 j1] k1] [[i2 j2] k2]. simpl. apply _. Defined.

(** The loop that collapses adjacent blocks; the state is
    [(i1, j1, k1)] and the list [non_adjacent]. *)
Fixpoint collapse (blocks : list Match) (cur : Match)
    (non_adjacent : list Match) : Match * list Match :=
  match blocks with
  | [] => (cur, non_adjacent)
  | (i2, j2, k2) :: blocks' =>
      let '(i1, j1, k1) := cur in
      if decide (i1 + k1 = i2 ∧ j1 + k1 = j2)
      then collapse blocks' (i1, j1, k1 + k2) non_adjacent
      else
        let non_adjacent :=
          if decide (k1 = 0) then non_adjacent
          else non_adjacent ++ [(i1, j1, k1)] in
        collapse blocks' (i2, j2, k2) non_adjacent
  end.

Definition get_matching_blocks : option (list Match) :=
  let la := length a in
  let lb := length b in
  matching_blocks ← blocks_loop (2 * la + 1) [(0, la, 0, lb)] [];
  let matching_blocks := merge_sort match_le matching_blocks in
  let '((i1, j1, k1), non_adjacent) := collapse matching_blocks (0, 0, 0) [] in
  let non_adjacent :=
    if decide (k1 = 0) then non_adjacent
    else non_adjacent ++ [(i1, j1, k1)] in
  Some (non_adjacent ++ [(la, lb, 0)]).

(** The loop of [get_opcodes] over the matching blocks; the state is
    the cursor [(i, j)] and the list [answer]. *)
Fixpoint opcodes_loop (blocks : list Match) (i j : nat)
    (answer : list Opcode) : list Opcode :=
  match blocks with
  | [] => answer
  | (ai, bj, size) :: blocks' =>
      let answer :=
        if decide (i < ai ∧ j < bj) then answer ++ [(tag_replace, i, ai, j, bj)]
        else if decide (i < ai) then answer ++ [(tag_delete, i, ai, j, bj)]
        else if decide (j < bj) then answer ++ [(tag_insert, i, ai, j, bj)]
        else answer in
      let i := ai + size in
      let j := bj + size in
      let answer :=
        if decide (size = 0) then answer
        else answer ++ [(tag_equal, ai, i, bj, j)] in
      opcodes_loop blocks' i j answer
  end.

Definition get_opcodes : option (list Opcode) :=
  blocks ← get_matching_blocks;
  Some (opcodes_loop blocks 0 0 []).

End SequenceMatcher.
End Difflib.

(** ** The diff engine *)

(** ["/" * 120] *)
Fixpoint str_repeat (s : string) (n : nat) : string :=
  match n with
  | 0 => ""
  | S n' => s +:+ str_repeat s n'
  end.

Definition BLANK_FILL : string := Eval cbv in str_repeat "/" 120.

(** The dictionaries [left_marks] and [right_marks] of a [DiffResult]:
    the four keys are fixed, so a record stands for the dictionary. *)
Record Marks := {
  added : list nat;
  deleted : list nat;
  changed : list nat;
  blank : list nat
}.

Definition ChangedPair : Type := nat * nat * string * string.

Record DiffResult := {
  left_lines : list string;
  right_lines : list string;
  left_marks : Marks;
  right_marks : Marks;
  diff_blocks : list (nat * nat);
  changed_pairs : list ChangedPair
}.

(** The local variables of [compute_diff] while it walks the opcodes;
    [blocks] and [pairs] are [result.diff_blocks] and
    [result.changed_pairs], which the loop extends in place. *)
Record Locals := {
  l_out : list string;
  r_out : list string;
  l_added : list nat;
  l_deleted : list nat;
  l_changed : list nat;
  l_blank : list nat;
  r_added : list nat;
  r_deleted : list nat;
  r_changed : list nat;
  r_blank : list nat;
  li : nat;
  ri : nat;
  blocks : list (nat * nat);
  pairs : list ChangedPair
}.

(** [for k in ks: s = body(k, s)], stopping at the first exception. *)
Fixpoint for_each {S : Type} (ks : list nat) (body : nat → S → option S)
    (s : S) : option S :=
  match ks with
  | [] => Some s
  | k :: ks' => s' ← body k s; for_each ks' body s'
  end.

(** [for k in range(n)] *)
Definition for_range {S : Type} (n : nat) (body : nat → S → option S)
    (s : S) : option S :=
  for_each (seq 0 n) body s.

Section ComputeDiff.
Variables left_in right_in : list string.

(** [result.diff_blocks.append((li, ri))] *)
Definition record_block (st : Locals) : Locals :=
  {| l_out := l_out st; r_out := r_out st;
     l_added := l_added st; l_deleted := l_deleted st;
     l_changed := l_changed st; l_blank := l_blank st;
     r_added := r_added st; r_deleted := r_deleted st;
     r_changed := r_changed st; r_blank := r_blank st;
     li := li st; ri := ri st;
     blocks := blocks st ++ [(li st, ri st)]; pairs := pairs st |}.

(** Body of the loop of the [equal] branch. *)
Definition equal_body (i1 j1 k : nat) (st : Locals) : option Locals :=
  lline ← left_in !! (i1 + k);
  rline ← right_in !! (j1 + k);
  Some {| l_out := l_out st ++ [lline]; r_out := r_out st ++ [rline];
          l_added := l_added st; l_deleted := l_deleted st;
          l_changed := l_changed st; l_blank := l_blank st;
          r_added := r_added st; r_deleted := r_deleted st;
          r_changed := r_changed st; r_blank := r_blank st;
          li := li st + 1; ri := ri st + 1;
          blocks := blocks st; pairs := pairs st |}.

(** Body of the loop of the [insert] branch. *)
Definition insert_body (j1 k : nat) (st : Locals) : option Locals :=
  rline ← right_in !! (j1 + k);
  Some {| l_out := l_out st ++ [BLANK_FILL]; r_out := r_out st ++ [rline];
          l_added := l_added st; l_deleted := l_deleted st;
          l_changed := l_changed st; l_blank := l_blank st ++ [li st];
          r_added := r_added st ++ [ri st]; r_deleted := r_deleted st;
          r_changed := r_changed st; r_blank := r_blank st;
          li := li st + 1; ri := ri st + 1;
          blocks := blocks st; pairs := pairs st |}.

(** Body of the loop of the [delete] branch. *)
Definition delete_body (i1 k : nat) (st : Locals) : option Locals :=
  lline ← left_in !! (i1 + k);
  Some {| l_out := l_out st ++ [lline]; r_out := r_out st ++ [BLANK_FILL];
          l_added := l_added st; l_deleted := l_deleted st ++ [li st];
          l_changed := l_changed st; l_blank := l_blank st;
          r_added := r_added st; r_deleted := r_deleted st;
          r_changed := r_changed st; r_blank := r_blank st ++ [ri st];
          li := li st + 1; ri := ri st + 1;
          blocks := blocks st; pairs := pairs st |}.

(** Body of the loop of the [replace] branch. *)
Definition replace_body (i1 j1 lcount rcount k : nat) (st : Locals)
    : option Locals :=
  lline ← (if decide (k < lcount) then left_in !! (i1 + k)
           else Some BLANK_FILL);
  rline ← (if decide (k < rcount) then right_in !! (j1 + k)
           else Some BLANK_FILL);
  let lo := l_out st ++ [lline] in
  let ro := r_out st ++ [rline] in
  if decide (k < lcount ∧ k < rcount) then
    Some {| l_out := lo; r_out := ro;
            l_added := l_added st; l_deleted := l_deleted st;
            l_changed := l_changed st ++ [li st]; l_blank := l_blank st;
            r_added := r_added st; r_deleted := r_deleted st;
            r_changed := r_changed st ++ [ri st]; r_blank := r_blank st;
            li := li st + 1; ri := ri st + 1;
            blocks := blocks st;
            pairs := pairs st ++ [(li st, ri st, lline, rline)] |}
  else if decide (k < lcount) then
    Some {| l_out := lo; r_out := ro;
            l_added := l_added st; l_deleted := l_deleted st ++ [li st];
            l_changed := l_changed st; l_blank := l_blank st;
            r_added := r_added st; r_deleted := r_deleted st;
            r_changed := r_changed st; r_blank := r_blank st ++ [ri st];
            li := li st + 1; ri := ri st + 1;
            blocks := blocks st; pairs := pairs st |}
  else
    Some {| l_out := lo; r_out := ro;
            l_added := l_added st; l_deleted := l_deleted st;
            l_changed := l_changed st; l_blank := l_blank st ++ [li st];
            r_added := r_added st ++ [ri st]; r_deleted := r_deleted st;
            r_changed := r_changed st; r_blank := r_blank st;
            li := li st + 1; ri := ri st + 1;
            blocks := blocks st; pairs := pairs st |}.

(** One iteration of [for tag, i1, i2, j1, j2 in matcher.get_opcodes()]. *)
Definition walk_opcode (op : Opcode) (st : Locals) : option Locals :=
  let '(tag, i1, i2, j1, j2) := op in
  match tag with
  | tag_equal => for_range (i2 - i1) (equal_body i1 j1) st
  | tag_insert => for_range (j2 - j1) (insert_body j1) (record_block st)
  | tag_delete => for_range (i2 - i1) (delete_body i1) (record_block st)
  | tag_replace =>
      let lcount := i2 - i1 in
      let rcount := j2 - j1 in
      for_range (lcount `max` rcount) (replace_body i1 j1 lcount rcount)
        (record_block st)
  end.

Fixpoint walk_opcodes (ops : list Opcode) (st : Locals) : option Locals :=
  match ops with
  | [] => Some st
  | op :: ops' => st' ← walk_opcode op st; walk_opcodes ops' st'
  end.

Definition init_locals : Locals :=
  {| l_out := []; r_out := [];
     l_added := []; l_deleted := []; l_changed := []; l_blank := [];
     r_added := []; r_deleted := []; r_changed := []; r_blank := [];
     li := 0; ri := 0; blocks := []; pairs := [] |}.

Definition to_result (st : Locals) : DiffResult :=
  {| left_lines := l_out st;
     right_lines := r_out st;
     left_marks := {| added := l_added st; deleted := l_deleted st;
                      changed := l_changed st; blank := l_blank st |};
     right_marks := {| added := r_added st; deleted := r_deleted st;
                       changed := r_changed st; blank := r_blank st |};
     diff_blocks := blocks st;
     changed_pairs := pairs st |}.

(** [compute_diff] on a given opcode list. *)
Definition compute_diff_with (ops : list Opcode) : option DiffResult :=
  st ← walk_opcodes ops init_locals;
  Some (to_result st).

Definition compute_diff : option DiffResult :=
  ops ← Difflib.get_opcodes left_in right_in;
  compute_diff_with ops.

End ComputeDiff.

(** ** What the spec calls the opcode invariant *)

(** The constraint a tag puts on its ranges. *)
Definition opcode_ok (op : Opcode) : Prop :=
  let '(tag, i1, i2, j1, j2) := op in
  match tag with
  | tag_equal => i1 < i2 ∧ j1 < j2 ∧ i2 - i1 = j2 - j1
  | tag_insert => i1 = i2 ∧ j1 < j2
  | tag_delete => i1 < i2 ∧ j1 = j2
  | tag_replace => i1 < i2 ∧ j1 < j2
  end.

(** The opcodes partition [[i, la)] and [[j, lb)]: each one starts where
    the previous one stopped, and the last one stops at [(la, lb)]. *)
Fixpoint opcodes_from (la lb i j : nat) (ops : list Opcode) : Prop :=
  match ops with
  | [] => i = la ∧ j = lb
  | (tag, i1, i2, j1, j2) :: ops' =>
      i1 = i ∧ j1 = j ∧ opcode_ok (tag, i1, i2, j1, j2) ∧
      opcodes_from la lb i2 j2 ops'
  end.

(** Deleting from [lines] the rows whose index is in [marks]. *)
Definition remove_rows (marks : list nat) (lines : list string) : list string :=
  (filter (fun p => p.1 ∉ marks) (imap pair lines)).*2.

(** [p] precedes [q] in both anchor components. *)
Definition anchor_lt (p q : nat * nat) : Prop := p.1 < q.1 ∧ p.2 < q.2.

(** No row index is in two of the four mark sets. *)
Definition marks_exclusive (m : Marks) : Prop :=
  added m ## deleted m ∧ added m ## changed m ∧ added m ## blank m ∧
  deleted m ## changed m ∧ deleted m ## blank m ∧ changed m ## blank m.

Definition ex_a : list string := ["a"; "b"; "c"]%string.
Definition ex_b : list string := ["a"; "x"; "c"]%string.

(** The state of one side of the output while the opcodes are walked:
    [cur] rows are written, the rows not marked blank are the first [i]
    input lines, and every marked row is written and marked once. *)
Definition side_inv (src : list string) (i : nat) (out : list string)
    (cur : nat) (ad de ch bl : list nat) : Prop :=
  cur = length out ∧
  remove_rows bl out = take i src ∧
  Forall (fun r => r < cur) (ad ++ de ++ ch ++ bl) ∧
  NoDup (ad ++ de ++ ch ++ bl).


(** Both sides while the opcodes are walked: [i] left lines and [j] right
    lines are consumed, and the two outputs have the same number of rows. *)
Definition row_inv (left_in right_in : list string) (i j : nat)
    (st : Locals) : Prop :=
  side_inv left_in i (l_out st) (li st)
    (l_added st) (l_deleted st) (l_changed st) (l_blank st) ∧
  side_inv right_in j (r_out st) (ri st)
    (r_added st) (r_deleted st) (r_changed st) (r_blank st) ∧
  li st = ri st.

(** Between two opcodes, moreover, the anchors recorded so far ascend and
    lie below the output cursors. *)
Definition walk_inv (left_in right_in : list string) (i j : nat)
    (st : Locals) : Prop :=
  row_inv left_in right_in i j st ∧
  StronglySorted anchor_lt (blocks st) ∧
  Forall (fun p => p.1 < li st ∧ p.2 < ri st) (blocks st).

(** What every row loop keeps: the anchors, and the output cursors in
    step with the loop counter [k]; [i k] and [j k] are the input lines
    consumed after [k] iterations. *)
Definition loop_inv (left_in right_in : list string) (st0 : Locals)
    (i j : nat → nat) (k : nat) (st : Locals) : Prop :=
  row_inv left_in right_in (i k) (j k) st ∧ blocks st = blocks st0 ∧
  li st = li st0 + k ∧ ri st = ri st0 + k.

(** ** Invariants of the matcher *)

(** The match [m] lies inside the window [[alo, ahi) x [blo, bhi)]. *)
Definition match_in (alo ahi blo bhi : nat) (m : Match) : Prop :=
  let '(i, j, k) := m in
  alo ≤ i ∧ i + k ≤ ahi ∧ blo ≤ j ∧ j + k ≤ bhi.

(** Every run length recorded in [j2len] fits between the window's
    corner and the cell it ends in; [c] is the row after that cell. *)
Definition j2len_ok (alo blo bhi c : nat) (m : gmap nat nat) : Prop :=
  ∀ j k, m !! j = Some k → k + alo ≤ c ∧ k + blo ≤ j + 1 ∧ j < bhi.

(** A queued window lies inside the two sequences. *)
Definition window_ok (la lb : nat) (w : Difflib.Window) : Prop :=
  let '(alo, ahi, blo, bhi) := w in
  alo ≤ ahi ∧ ahi ≤ la ∧ blo ≤ bhi ∧ bhi ≤ lb.

(** The window a matching block covers. *)
Definition window_of (m : Match) : Difflib.Window :=
  let '(i, j, k) := m in (i, i + k, j, j + k).

(** [w1] ends, on both sequences, where [w2] starts or earlier. *)
Definition before (w1 w2 : Difflib.Window) : Prop :=
  let '(_, ahi, _, bhi) := w1 in
  let '(alo, _, blo, _) := w2 in
  ahi ≤ alo ∧ bhi ≤ blo.

Definition apart (w1 w2 : Difflib.Window) : Prop :=
  before w1 w2 ∨ before w2 w1.

Definition inside (w1 w2 : Difflib.Window) : Prop :=
  let '(alo1, ahi1, blo1, bhi1) := w1 in
  let '(alo2, ahi2, blo2, bhi2) := w2 in
  alo2 ≤ alo1 ∧ ahi1 ≤ ahi2 ∧ blo2 ≤ blo1 ∧ bhi1 ≤ bhi2.

(** A recorded block is not empty and lies inside the two sequences. *)
Definition block_ok (la lb : nat) (m : Match) : Prop :=
  let '(i, j, k) := m in 0 < k ∧ i + k ≤ la ∧ j + k ≤ lb.

(** The bound on the iterations still to run for a queue. *)
Definition queue_weight (queue : list Difflib.Window) : nat :=
  sum_list_with (fun w : Difflib.Window =>
    let '(alo, ahi, _, _) := w in 2 * (ahi - alo) + 1) queue.

(** The state of the [while queue:] loop: windows and blocks are
    pairwise apart. *)
Definition queue_inv (la lb : nat) (queue : list Difflib.Window)
    (acc : list Match) : Prop :=
  Forall (window_ok la lb) queue ∧
  Forall (block_ok la lb) acc ∧
  StronglySorted apart (queue ++ (window_of <$> acc)).

(** The blocks [bs] ascend from [(i, j)] without overlap and stop at
    [(i', j')]. *)
Fixpoint blocks_path (i j : nat) (bs : list Match) (i' j' : nat) : Prop :=
  match bs with
  | [] => i = i' ∧ j = j'
  | (ai, bj, size) :: bs' =>
      i ≤ ai ∧ j ≤ bj ∧ blocks_path (ai + size) (bj + size) bs' i' j'
  end.

(** The blocks [bs] ascend from [(i, j)] without overlap and stay
    below [(la, lb)]. *)
Fixpoint blocks_upto (la lb i j : nat) (bs : list Match) : Prop :=
  match bs with
  | [] => i ≤ la ∧ j ≤ lb
  | (ai, bj, size) :: bs' =>
      i ≤ ai ∧ j ≤ bj ∧ blocks_upto la lb (ai + size) (bj + size) bs'
  end.

(** ** The branches, as the spec describes them *)

(** The state the [equal] branch leaves after copying [n] lines that
    start at [i1] on the left and at [j1] on the right. *)
Definition equal_rows (left_in right_in : list string) (i1 j1 n : nat)
    (st : Locals) : Locals :=
  {| l_out := l_out st ++ take n (drop i1 left_in);
     r_out := r_out st ++ take n (drop j1 right_in);
     l_added := l_added st; l_deleted := l_deleted st;
     l_changed := l_changed st; l_blank := l_blank st;
     r_added := r_added st; r_deleted := r_deleted st;
     r_changed := r_changed st; r_blank := r_blank st;
     li := li st + n; ri := ri st + n;
     blocks := blocks st; pairs := pairs st |}.

(** The state the [replace] branch leaves, in the spec's words: one
    anchor at the cursors held before the loop; [max lcount rcount] rows;
    the first [min lcount rcount] of them hold real text on both sides,
    are marked changed and give the changed pairs; the others are real
    text marked deleted facing filler marked blank when the left range
    is the longer one, and filler marked blank facing real text marked
    added when the right range is. *)
Definition replace_rows (left_in right_in : list string)
    (i1 j1 lcount rcount : nat) (st : Locals) : Locals :=
  let lo := lcount `min` rcount in
  let hi := lcount `max` rcount in
  {| l_out := l_out st ++ take lcount (drop i1 left_in)
                ++ replicate (hi - lcount) BLANK_FILL;
     r_out := r_out st ++ take rcount (drop j1 right_in)
                ++ replicate (hi - rcount) BLANK_FILL;
     l_added := l_added st;
     l_deleted := l_deleted st ++ seq (li st + lo) (lcount - lo);
     l_changed := l_changed st ++ seq (li st) lo;
     l_blank := l_blank st ++ seq (li st + lo) (rcount - lo);
     r_added := r_added st ++ seq (ri st + lo) (rcount - lo);
     r_deleted := r_deleted st;
     r_changed := r_changed st ++ seq (ri st) lo;
     r_blank := r_blank st ++ seq (ri st + lo) (lcount - lo);
     li := li st + hi; ri := ri st + hi;
     blocks := blocks st ++ [(li st, ri st)];
     pairs := pairs st ++
       imap (fun k p => (li st + k, ri st + k, p.1, p.2))
         (zip (take lo (drop i1 left_in)) (take lo (drop j1 right_in))) |}.

(** ** Python values and effects for the session code *)

(** A call either returns a value or raises an [Exception]. *)
Inductive Outcome (X : Type) : Type :=
  | Ok (x : X)
  | Raised.
Arguments Ok {X} x.
Arguments Raised {X}.

(** A Python procedure over the mutable state [W]: the state it leaves
    and what it returns or that it raised. *)
Definition Py (W X : Type) : Type := W → W * Outcome X.

Definition py_ret {W X} (x : X) : Py W X := fun w => (w, Ok x).

Definition py_bind {W X Y} (m : Py W X) (k : X → Py W Y) : Py W Y :=
  fun w =>
    match m w with
    | (w', Ok x) => k x w'
    | (w', Raised) => (w', Raised)
    end.

Notation "'do' x <- m ; k" := (py_bind m (fun x => k))
  (at level 10, x name, m at level 100, k at level 200).
Notation "m ;; k" := (py_bind m (fun _ => k))
  (at level 100, k at level 200, right associativity).

(** [try: body  except Exception: pass] *)
Definition try_pass {W} (body : Py W unit) : Py W unit :=
  fun w =>
    match body w with
    | (w', Ok _) => (w', Ok tt)
    | (w', Raised) => (w', Ok tt)
    end.

(** [try: body  finally: fin] *)
Definition try_finally {W X} (body : Py W X) (fin : Py W unit) : Py W X :=
  fun w =>
    match body w with
    | (w', out) =>
        match fin w' with
        | (w'', Ok _) => (w'', out)
        | (w'', Raised) => (w'', Raised)
        end
    end.

(** [for x in xs: body(x)] *)
Fixpoint py_for {W X} (xs : list X) (body : X → Py W unit) : Py W unit :=
  match xs with
  | [] => py_ret tt
  | x :: xs' => body x ;; py_for xs' body
  end.

(** A Python [dict] whose iteration order matters: the entries in
    insertion order, at most one per key. *)
Definition dict (K V : Type) : Type := list (K * V).

(** [d.get(k)] *)
Fixpoint dict_get {K V} `{EqDecision K} (d : list (K * V)) (k : K) : option V :=
  match d with
  | [] => None
  | (k', v) :: d' => if decide (k' = k) then Some v else dict_get d' k
  end.

(** The dictionary left by [d.pop(k, None)]. *)
Definition dict_remove {K V} `{EqDecision K} (d : list (K * V)) (k : K)
    : list (K * V) :=
  filter (fun p => p.1 ≠ k) d.

(** [d[k] = v]: an existing key keeps its place, a new one goes last. *)
Fixpoint dict_set {K V} `{EqDecision K} (d : list (K * V)) (k : K) (v : V)
    : list (K * V) :=
  match d with
  | [] => [(k, v)]
  | (k', v') :: d' =>
      if decide (k' = k) then (k, v) :: d' else (k', v') :: dict_set d' k v
  end.

(** [d.values()] *)
Definition dict_values {K V} (d : list (K * V)) : list V := d.*2.

(** [l[i]] for a Python integer [i]: a negative index counts from the
    end, an index out of range raises. *)
Definition py_index {X} (l : list X) (i : Z) : option X :=
  if decide (0 ≤ i)%Z then l !! Z.to_nat i
  else if decide (- Z.of_nat (length l) ≤ i)%Z
       then l !! Z.to_nat (Z.of_nat (length l) + i)
       else None.

(** ** Sessions *)

(** Window and view objects are used through their [id()] only. *)
Definition WindowId : Type := Z.
Definition ViewId : Type := Z.

Record CompareSession := {
  source_window : WindowId;
  window : WindowId;
  left_display : ViewId;
  right_display : ViewId;
  diff : DiffResult;
  block_index : Z
}.

(** [self.block_index = i] *)
Definition set_block_index (i : Z) : Py CompareSession unit :=
  fun self =>
    ({| source_window := source_window self; window := window self;
        left_display := left_display self;
        right_display := right_display self;
        diff := diff self; block_index := i |}, Ok tt).

(** [CompareSession.current_block]; the Python [None] is [Ok None]. *)
Definition current_block : Py CompareSession (option (nat * nat)) :=
  fun self =>
    if decide (diff_blocks (diff self) = []) then (self, Ok None)
    else
      match py_index (diff_blocks (diff self)) (block_index self) with
      | Some block => (self, Ok (Some block))
      | None => (self, Raised)
      end.

(** [CompareSession.next_block] *)
Definition next_block : Py CompareSession (option (nat * nat)) :=
  fun self =>
    if decide (diff_blocks (diff self) = []) then (self, Ok None)
    else
      (set_block_index
         ((block_index self + 1) `mod` Z.of_nat (length (diff_blocks (diff self))));;
       current_block) self.

(** [CompareSession.prev_block] *)
Definition prev_block : Py CompareSession (option (nat * nat)) :=
  fun self =>
    if decide (diff_blocks (diff self) = []) then (self, Ok None)
    else
      (set_block_index
         ((block_index self - 1) `mod` Z.of_nat (length (diff_blocks (diff self))));;
       current_block) self.

(** [n] calls of [next_block] in a row, their values dropped. *)
Fixpoint next_block_times (n : nat) : Py CompareSession unit :=
  match n with
  | 0 => py_ret tt
  | S n' => next_block ;; next_block_times n'
  end.

Definition ex_session (blocks : list (nat * nat)) (i : Z) : CompareSession :=
  {| source_window := 1%Z; window := 2%Z;
     left_display := 10%Z; right_display := 11%Z;
     diff := {| left_lines := []; right_lines := [];
                left_marks := {| added := []; deleted := []; changed := [];
                                 blank := [] |};
                right_marks := {| added := []; deleted := []; changed := [];
                                  blank := [] |};
                diff_blocks := blocks; changed_pairs := [] |};
     block_index := i |}.

Definition ex_blocks : list (nat * nat) := [(0, 0); (3, 3); (7, 7)].
Definition ex_session3 : CompareSession := ex_session ex_blocks 1%Z.

(** ** The module's global state *)

(** A reference to a [CompareSession] object.  The registry holds the
    same object under two keys, so it is modelled as a dictionary of
    references into the store [objects]. *)
Definition SessionRef : Type := nat.

(** A viewport position [(x, y)]. *)
Definition Pos : Type := Z * Z.

Record Globals := {
  _sessions : dict WindowId SessionRef;
  objects : SessionRef → CompareSession;
  _syncing : gset ViewId;
  _poll_active : bool;
  _last_vp : gmap ViewId Pos
}.

Definition set_sessions (f : dict WindowId SessionRef → dict WindowId SessionRef)
    (g : Globals) : Globals :=
  {| _sessions := f (_sessions g); objects := objects g;
     _syncing := _syncing g; _poll_active := _poll_active g;
     _last_vp := _last_vp g |}.

Definition set_syncing (f : gset ViewId → gset ViewId) (g : Globals) : Globals :=
  {| _sessions := _sessions g; objects := objects g;
     _syncing := f (_syncing g); _poll_active := _poll_active g;
     _last_vp := _last_vp g |}.

Definition set_poll_active (b : bool) (g : Globals) : Globals :=
  {| _sessions := _sessions g; objects := objects g;
     _syncing := _syncing g; _poll_active := b;
     _last_vp := _last_vp g |}.

Definition set_last_vp (f : gmap ViewId Pos → gmap ViewId Pos) (g : Globals)
    : Globals :=
  {| _sessions := _sessions g; objects := objects g;
     _syncing := _syncing g; _poll_active := _poll_active g;
     _last_vp := f (_last_vp g) |}.

(** The state a procedure of the module runs on: the globals and the
    host editor [H]. *)
Definition get_globals {H} : Py (Globals * H) Globals :=
  fun w => (w, Ok w.1).

Definition modify_globals {H} (f : Globals → Globals) : Py (Globals * H) unit :=
  fun w => ((f w.1, w.2), Ok tt).

Definition on_host {H X} (m : Py H X) : Py (Globals * H) X :=
  fun w =>
    match m w.2 with
    | (h', out) => ((w.1, h'), out)
    end.

(** [_sessions.pop(window_id, None)] *)
Definition pop_session {H} (window_id : WindowId)
    : Py (Globals * H) (option SessionRef) :=
  do g <- get_globals;
  modify_globals (set_sessions (fun d => dict_remove d window_id));;
  py_ret (dict_get (_sessions g) window_id).

(** ** Closing a session *)

Section Close.
Variable H : Type.
(** The three view methods the teardown calls; each may change the host
    and may raise. *)
Variable view_set_read_only : ViewId → bool → Py H unit.
Variable view_set_scratch : ViewId → bool → Py H unit.
Variable view_close : ViewId → Py H unit.

Definition _close_session (window_id : WindowId) (close_views : bool)
    : Py (Globals * H) unit :=
  do session <- pop_session window_id;
  match session with
  | None => py_ret tt
  | Some r =>
      do g <- get_globals;
      pop_session (source_window (objects g r));;
      pop_session (window (objects g r));;
      if close_views then
        py_for [left_display (objects g r); right_display (objects g r)]
          (fun v =>
             try_pass
               (on_host (view_set_read_only v false;;
                         view_set_scratch v true;;
                         view_close v)))
      else py_ret tt
  end.

Definition _close_session_by_source (source_window_id : WindowId)
    : Py (Globals * H) unit :=
  _close_session source_window_id true.

End Close.

(** A session is registered under its two window ids and under no other
    key. *)
Definition registry_paired (g : Globals) : Prop :=
  ∀ k r,
    dict_get (_sessions g) k = Some r →
    (k = source_window (objects g r) ∨ k = window (objects g r)) ∧
    dict_get (_sessions g) (source_window (objects g r)) = Some r ∧
    dict_get (_sessions g) (window (objects g r)) = Some r.

(** ** The host editor, for the synchroniser *)

(** What the synchroniser uses of the host: the window a view is in
    ([None] once the view is gone), the viewport position of every live
    view, the calls of [set_viewport_position] made so far, and the
    number of callbacks handed to [set_timeout]. *)
Record Host := {
  view_window : gmap ViewId WindowId;
  viewport : gmap ViewId Pos;
  set_calls : list (ViewId * Pos);
  timeouts : nat
}.

(** [view.viewport_position()]; a view that is gone raises. *)
Definition viewport_position (v : ViewId) : Py Host Pos :=
  fun h =>
    match viewport h !! v with
    | Some p => (h, Ok p)
    | None => (h, Raised)
    end.

(** [view.set_viewport_position(p, animate=False)] *)
Definition set_viewport_position (v : ViewId) (p : Pos) : Py Host unit :=
  fun h =>
    match viewport h !! v with
    | Some _ =>
        ({| view_window := view_window h; viewport := <[v := p]> (viewport h);
            set_calls := set_calls h ++ [(v, p)]; timeouts := timeouts h |},
         Ok tt)
    | None => (h, Raised)
    end.

(** [sublime.set_timeout(_fast_poll_tick, 8)] *)
Definition set_timeout : Py Host unit :=
  fun h =>
    ({| view_window := view_window h; viewport := viewport h;
        set_calls := set_calls h; timeouts := timeouts h + 1 |}, Ok tt).

(** [view.set_read_only(b)] and [view.set_scratch(b)]: nothing the
    model tracks, but a view that is gone raises. *)
Definition view_flag (v : ViewId) (b : bool) : Py Host unit :=
  fun h =>
    match viewport h !! v with
    | Some _ => (h, Ok tt)
    | None => (h, Raised)
    end.

(** [view.close()] *)
Definition view_close_host (v : ViewId) : Py Host unit :=
  fun h =>
    match viewport h !! v with
    | Some _ =>
        ({| view_window := delete v (view_window h);
            viewport := delete v (viewport h);
            set_calls := set_calls h; timeouts := timeouts h |}, Ok tt)
    | None => (h, Raised)
    end.

(** ** Synchronised scrolling *)

(** [try: body  except Exception: ...], the outcome as a value. *)
Definition attempt {W X} (body : Py W X) : Py W (option X) :=
  fun w =>
    match body w with
    | (w', Ok x) => (w', Ok (Some x))
    | (w', Raised) => (w', Ok None)
    end.

(** [_syncing.add(peer); try: peer.set_viewport_position(p)
     finally: _syncing.discard(peer)] *)
Definition guarded_write (peer : ViewId) (p : Py (Globals * Host) Pos)
    : Py (Globals * Host) unit :=
  modify_globals (set_syncing (fun s => {[peer]} ∪ s));;
  try_finally
    (do pos <- p; on_host (set_viewport_position peer pos))
    (modify_globals (set_syncing (fun s => s ∖ {[peer]}))).

Definition _sync_peer (source_view : ViewId) : Py (Globals * Host) unit :=
  fun w =>
    let '(g, h) := w in
    if decide (source_view ∈ _syncing g) then (w, Ok tt)
    else
      match view_window h !! source_view with
      | None => (w, Ok tt)
      | Some window_id =>
          match dict_get (_sessions g) window_id with
          | None => (w, Ok tt)
          | Some r =>
              let session := objects g r in
              if decide (source_view = left_display session) then
                guarded_write (right_display session)
                  (on_host (viewport_position source_view)) w
              else if decide (source_view = right_display session) then
                guarded_write (left_display session)
                  (on_host (viewport_position source_view)) w
              else (w, Ok tt)
          end
      end.

(** [prev is not None and (p[0] != prev[0] or p[1] != prev[1])] *)
Definition moved (prev : option Pos) (p : Pos) : bool :=
  match prev with
  | None => false
  | Some q => bool_decide (p.1 ≠ q.1) || bool_decide (p.2 ≠ q.2)
  end.

(** The body of [for session in _sessions.values()]. *)
Definition tick_session (r : SessionRef) : Py (Globals * Host) unit :=
  do g0 <- get_globals;
  let lv := left_display (objects g0 r) in
  let rv := right_display (objects g0 r) in
  do positions <- attempt (do lp <- on_host (viewport_position lv);
                           do rp <- on_host (viewport_position rv);
                           py_ret (lp, rp));
  match positions with
  | None => py_ret tt
  | Some (lp, rp) =>
      do g <- get_globals;
      let l_moved := moved (_last_vp g !! lv) lp in
      let r_moved := moved (_last_vp g !! rv) rp in
      (if l_moved && bool_decide (lv ∉ _syncing g) then
         guarded_write rv (py_ret lp);;
         modify_globals (set_last_vp <[rv := lp]>)
       else if r_moved && bool_decide (rv ∉ _syncing g) then
         guarded_write lv (py_ret rp);;
         modify_globals (set_last_vp <[lv := rp]>)
       else py_ret tt);;
      (do p <- on_host (viewport_position lv);
       modify_globals (set_last_vp <[lv := p]>));;
      (do p <- on_host (viewport_position rv);
       modify_globals (set_last_vp <[rv := p]>))
  end.

Definition _fast_poll_tick : Py (Globals * Host) unit :=
  do g <- get_globals;
  if decide (_sessions g = []) then
    modify_globals (fun g => set_last_vp (fun _ => ∅) (set_poll_active false g))
  else
    py_for (dict_values (_sessions g)) tick_session;;
    on_host set_timeout.

(** A registered session whose left display the user has just scrolled
    from [(0, 0)] to [(0, 5)]. *)
Definition ex_globals : Globals :=
  {| _sessions := [(1%Z, 0); (2%Z, 0)];
     objects := fun _ => ex_session ex_blocks 0%Z;
     _syncing := ∅;
     _poll_active := true;
     _last_vp := {[ 10%Z := (0%Z, 0%Z); 11%Z := (0%Z, 0%Z) ]} |}.

Definition ex_host : Host :=
  {| view_window := {[ 10%Z := 2%Z; 11%Z := 2%Z ]};
     viewport := {[ 10%Z := (0%Z, 5%Z); 11%Z := (0%Z, 0%Z) ]};
     set_calls := [];
     timeouts := 0 |}.

(** The same host after the right display was closed behind the
    plugin's back. *)
Definition ex_host_gone : Host :=
  {| view_window := {[ 10%Z := 2%Z ]};
     viewport := {[ 10%Z := (0%Z, 5%Z) ]};
     set_calls := [];
     timeouts := 0 |}.

(** The host after the user scrolled the right display instead, to
    [(0, 7)]. *)
Definition ex_host_right : Host :=
  {| view_window := {[ 10%Z := 2%Z; 11%Z := 2%Z ]};
     viewport := {[ 10%Z := (0%Z, 0%Z); 11%Z := (0%Z, 7%Z) ]};
     set_calls := [];
     timeouts := 0 |}.

(** The host once the two displays of a new comparison, [20] and [21],
    are open in the new window [6]. *)
Definition ex_host_new : Host :=
  {| view_window := {[ 20%Z := 6%Z; 21%Z := 6%Z ]};
     viewport := {[ 20%Z := (0%Z, 0%Z); 21%Z := (0%Z, 0%Z) ]};
     set_calls := [];
     timeouts := 1 |}.

(** The display a write from [a] goes to. *)
Definition peer_of (s : CompareSession) (a : ViewId) : ViewId :=
  if decide (a = left_display s) then right_display s else left_display s.

(** Every other registered session shows in other displays than the
    session [r]. *)
Definition others_apart (g : Globals) (r : SessionRef) : Prop :=
  Forall (fun r' =>
    r' = r ∨
    (left_display (objects g r') ≠ left_display (objects g r) ∧
     left_display (objects g r') ≠ right_display (objects g r) ∧
     right_display (objects g r') ≠ left_display (objects g r) ∧
     right_display (objects g r') ≠ right_display (objects g r)))
    (dict_values (_sessions g)).

(** What a poll tick, or a part of one, keeps of a state in which the
    displays [lv] and [rv] both stand at [p]: the registry and its
    objects, the two positions, and, for every call of
    [set_viewport_position] added to the [calls] made before, [ok]. *)
Definition tick_keeps (g0 : Globals) (calls : list (ViewId * Pos))
    (lv rv : ViewId) (p : Pos) (ok : ViewId * Pos → Prop)
    (w : Globals * Host) : Prop :=
  _sessions w.1 = _sessions g0 ∧ objects w.1 = objects g0 ∧
  viewport w.2 !! lv = Some p ∧ viewport w.2 !! rv = Some p ∧
  ∃ extra, set_calls w.2 = calls ++ extra ∧ Forall ok extra.

(** ** Intra-line highlights *)

(** [sublime.Region(a, b)] *)
Record Region := { region_a : nat; region_b : nat }.









(** ** More of the diff engine: what one row does *)

(** The four ways a loop body of [compute_diff] writes one output row. *)
Inductive RowKind := row_equal | row_changed | row_deleted | row_inserted.

(** The state after one row of kind [kind] with the texts [lline] and
    [rline]; each loop body is one of these. *)
Definition push_row (kind : RowKind) (lline rline : string) (st : Locals)
    : Locals :=
  match kind with
  | row_equal =>
      {| l_out := l_out st ++ [lline]; r_out := r_out st ++ [rline];
         l_added := l_added st; l_deleted := l_deleted st;
         l_changed := l_changed st; l_blank := l_blank st;
         r_added := r_added st; r_deleted := r_deleted st;
         r_changed := r_changed st; r_blank := r_blank st;
         li := li st + 1; ri := ri st + 1;
         blocks := blocks st; pairs := pairs st |}
  | row_changed =>
      {| l_out := l_out st ++ [lline]; r_out := r_out st ++ [rline];
         l_added := l_added st; l_deleted := l_deleted st;
         l_changed := l_changed st ++ [li st]; l_blank := l_blank st;
         r_added := r_added st; r_deleted := r_deleted st;
         r_changed := r_changed st ++ [ri st]; r_blank := r_blank st;
         li := li st + 1; ri := ri st + 1;
         blocks := blocks st;
         pairs := pairs st ++ [(li st, ri st, lline, rline)] |}
  | row_deleted =>
      {| l_out := l_out st ++ [lline]; r_out := r_out st ++ [rline];
         l_added := l_added st; l_deleted := l_deleted st ++ [li st];
         l_changed := l_changed st; l_blank := l_blank st;
         r_added := r_added st; r_deleted := r_deleted st;
         r_changed := r_changed st; r_blank := r_blank st ++ [ri st];
         li := li st + 1; ri := ri st + 1;
         blocks := blocks st; pairs := pairs st |}
  | row_inserted =>
      {| l_out := l_out st ++ [lline]; r_out := r_out st ++ [rline];
         l_added := l_added st; l_deleted := l_deleted st;
         l_changed := l_changed st; l_blank := l_blank st ++ [li st];
         r_added := r_added st ++ [ri st]; r_deleted := r_deleted st;
         r_changed := r_changed st; r_blank := r_blank st;
         li := li st + 1; ri := ri st + 1;
         blocks := blocks st; pairs := pairs st |}
  end.

(** Row [r] carries a mark on the left side. *)
Definition marked_row (st : Locals) (r : nat) : Prop :=
  r ∈ l_deleted st ∨ r ∈ l_changed st ∨ r ∈ l_blank st.

(** What the walk keeps besides [row_inv]: the two sides mirror each
    other, filler sits exactly under the blank marks, the changed pairs
    repeat the changed rows, and the marks ascend. *)
Definition row_facts (i j : nat) (st : Locals) : Prop :=
  li st = length (l_out st) ∧ ri st = length (r_out st) ∧ li st = ri st ∧
  l_added st = [] ∧ r_deleted st = [] ∧
  l_blank st = r_added st ∧ l_deleted st = r_blank st ∧
  l_changed st = r_changed st ∧
  Forall (fun r => l_out st !! r = Some BLANK_FILL) (l_blank st) ∧
  Forall (fun r => r_out st !! r = Some BLANK_FILL) (r_blank st) ∧
  Forall (fun p : ChangedPair =>
            p.1.1.1 = p.1.1.2 ∧ l_out st !! p.1.1.1 = Some p.1.2 ∧
            r_out st !! p.1.1.2 = Some p.2) (pairs st) ∧
  (fun p : ChangedPair => p.1.1.1) <$> pairs st = l_changed st ∧
  length (l_out st) = i + length (l_blank st) ∧
  length (r_out st) = j + length (r_blank st) ∧
  StronglySorted lt (l_deleted st) ∧ StronglySorted lt (l_changed st) ∧
  StronglySorted lt (l_blank st) ∧
  Forall (fun r => r < li st) (l_deleted st ++ l_changed st ++ l_blank st).

(** The anchors recorded so far sit on marked rows, the same row on
    both sides. *)
Definition block_facts (st : Locals) : Prop :=
  Forall (fun p : nat * nat => p.1 = p.2 ∧ p.1 < li st ∧ marked_row st p.1)
    (blocks st).

(** What a row loop keeps of [row_facts]; [anchored] says the loop
    started by recording an anchor, which its first row then marks. *)
Definition loop_facts (st0 : Locals) (anchored : bool) (i j : nat → nat)
    (k : nat) (st : Locals) : Prop :=
  row_facts (i k) (j k) st ∧ blocks st = blocks st0 ∧
  li st = li st0 + k ∧
  (∀ r, marked_row st0 r → marked_row st r) ∧
  (anchored = true → 0 < k → marked_row st (li st0)).

(** ** Line highlights *)

(** [safe] of [_apply_highlights]:
    [[line_regs[i] for i in indices if i < total]]. *)
Fixpoint safe (line_regs : list Region) (indices : list nat)
    : option (list Region) :=
  match indices with
  | [] => Some []
  | i :: indices' =>
      if decide (i < length line_regs) then
        reg ← line_regs !! i;
        rest ← safe line_regs indices';
        Some (reg :: rest)
      else safe line_regs indices'
  end.

(** The line regions of a display that shows [a], [b], [c]. *)
Definition ex_regions : list Region :=
  [{| region_a := 0; region_b := 1 |}; {| region_a := 2; region_b := 3 |};
   {| region_a := 4; region_b := 5 |}].

(** The state the [insert] branch leaves after [n] lines that start at
    [j1] on the right: one anchor, then [n] rows of filler marked blank
    facing the right lines marked added. *)
Definition insert_rows (right_in : list string) (j1 n : nat) (st : Locals)
    : Locals :=
  {| l_out := l_out st ++ replicate n BLANK_FILL;
     r_out := r_out st ++ take n (drop j1 right_in);
     l_added := l_added st; l_deleted := l_deleted st;
     l_changed := l_changed st; l_blank := l_blank st ++ seq (li st) n;
     r_added := r_added st ++ seq (ri st) n; r_deleted := r_deleted st;
     r_changed := r_changed st; r_blank := r_blank st;
     li := li st + n; ri := ri st + n;
     blocks := blocks st ++ [(li st, ri st)]; pairs := pairs st |}.

(** The state the [delete] branch leaves after [n] lines that start at
    [i1] on the left. *)
Definition delete_rows (left_in : list string) (i1 n : nat) (st : Locals)
    : Locals :=
  {| l_out := l_out st ++ take n (drop i1 left_in);
     r_out := r_out st ++ replicate n BLANK_FILL;
     l_added := l_added st; l_deleted := l_deleted st ++ seq (li st) n;
     l_changed := l_changed st; l_blank := l_blank st;
     r_added := r_added st; r_deleted := r_deleted st;
     r_changed := r_changed st; r_blank := r_blank st ++ seq (ri st) n;
     li := li st + n; ri := ri st + n;
     blocks := blocks st ++ [(li st, ri st)]; pairs := pairs st |}.

(** ** What the matcher's blocks hold *)

(** The block [m] covers equal elements of [a] and [b]. *)
Definition block_matches {A} (a b : list A) (m : Match) : Prop :=
  let '(i, j, k) := m in ∀ t, t < k → a !! (i + t) = b !! (j + t).

(** Every run length [k] recorded for column [j] in [j2len] is a run of
    equal elements that ends in row [c - 1] and column [j]. *)
Definition j2len_runs {A} (a b : list A) (c : nat) (m : gmap nat nat) : Prop :=
  ∀ j k, m !! j = Some k →
    k ≤ c ∧ k ≤ j + 1 ∧ ∀ s, s < k → a !! (c - 1 - s) = b !! (j - s).

(** Every [equal] opcode covers equal elements. *)
Definition opcodes_match {A} (a b : list A) (ops : list Opcode) : Prop :=
  Forall (fun op : Opcode =>
    let '(tag, i1, i2, j1, j2) := op in
    tag = tag_equal → ∀ t, t < i2 - i1 → a !! (i1 + t) = b !! (j1 + t)) ops.

(** The rows written so far that carry no mark hold the same text on
    both sides. *)
Definition same_inv (st : Locals) : Prop :=
  li st = length (l_out st) ∧ length (l_out st) = length (r_out st) ∧
  ∀ r, r < li st → ¬ marked_row st r → l_out st !! r = r_out st !! r.

(** ** More of the session code *)

(** [CompareCloseListener.on_pre_close_window] *)
Definition on_pre_close_window {H} (window_id : WindowId)
    : Py (Globals * H) unit :=
  do g <- get_globals;
  match dict_get (_sessions g) window_id with
  | None => py_ret tt
  | Some r =>
      if decide (window_id = window (objects g r)) then
        pop_session (source_window (objects g r));;
        pop_session (window (objects g r));;
        py_ret tt
      else py_ret tt
  end.

Section CloseListener.
Variable H : Type.
Variable view_set_read_only : ViewId → bool → Py H unit.
Variable view_set_scratch : ViewId → bool → Py H unit.
Variable view_close : ViewId → Py H unit.

(** The loop of [CompareCloseListener.on_pre_close] over the snapshot
    [list(_sessions.items())]; [seen] is the set of compare windows
    already handled.  The only [seen.add] is followed by the [break],
    which ends the recursion, so [seen] is passed on as it is. *)
Fixpoint on_pre_close_loop (view : ViewId)
    (items : list (WindowId * SessionRef)) (seen : gset WindowId)
    : Py (Globals * H) unit :=
  match items with
  | [] => py_ret tt
  | (wid, r) :: items' =>
      do g <- get_globals;
      let session := objects g r in
      if decide (window session ∈ seen) then
        on_pre_close_loop view items' seen
      else if decide (view = left_display session ∨
                      view = right_display session) then
        pop_session (source_window session);;
        pop_session (window session);;
        let peer := if decide (view = left_display session)
                    then right_display session else left_display session in
        try_pass (on_host (view_set_read_only peer false;;
                           view_set_scratch peer true;;
                           view_close peer))
      else on_pre_close_loop view items' seen
  end.

Definition on_pre_close (view : ViewId) : Py (Globals * H) unit :=
  do g <- get_globals;
  on_pre_close_loop view (_sessions g) ∅.

End CloseListener.

(** [objects[r] = session], for the object a constructor call creates. *)
Definition set_object (r : SessionRef) (s : CompareSession) (g : Globals)
    : Globals :=
  {| _sessions := _sessions g;
     objects := fun r' => if decide (r' = r) then s else objects g r';
     _syncing := _syncing g; _poll_active := _poll_active g;
     _last_vp := _last_vp g |}.

(** [_start_fast_poll] *)
Definition _start_fast_poll : Py (Globals * Host) unit :=
  do g <- get_globals;
  if _poll_active g then py_ret tt
  else
    modify_globals (set_poll_active true);;
    on_host set_timeout.

(** The statements of [run_compare] that register the new session
    (lines 412 to 419): the constructor call, whose object is [r], the
    two registry entries, the two last-known positions and the start of
    the poll. *)
Definition register_session (r : SessionRef) (source_window_id window_id : WindowId)
    (left_view right_view : ViewId) (d : DiffResult)
    : Py (Globals * Host) unit :=
  modify_globals (set_object r
    {| source_window := source_window_id; window := window_id;
       left_display := left_view; right_display := right_view;
       diff := d; block_index := 0 |});;
  modify_globals (set_sessions (fun s => dict_set s source_window_id r));;
  modify_globals (set_sessions (fun s => dict_set s window_id r));;
  (do p <- on_host (viewport_position left_view);
   modify_globals (set_last_vp <[left_view := p]>));;
  (do p <- on_host (viewport_position right_view);
   modify_globals (set_last_vp <[right_view := p]>));;
  _start_fast_poll.

(** ** The navigation commands *)

(** What the navigation commands use of the host: the number of lines of
    every view, the rows handed to [show_at_center] so far, the line
    whose start holds the only caret of a view, and the status messages
    shown so far. *)
Record NavHost := {
  view_lines : ViewId → nat;
  centered : list (ViewId * nat);
  caret_line : gmap ViewId nat;
  status : list string
}.

(** [_scroll_to_line]; [regs[line_idx]] is the region of line
    [line_idx]. *)
Definition _scroll_to_line (view : ViewId) (line_idx : nat) : Py NavHost unit :=
  fun h =>
    if decide (line_idx < view_lines h view) then
      ({| view_lines := view_lines h;
          centered := centered h ++ [(view, line_idx)];
          caret_line := <[view := line_idx]> (caret_line h);
          status := status h |}, Ok tt)
    else (h, Ok tt).

(** [sublime.status_message(msg)] *)
Definition status_message (msg : string) : Py NavHost unit :=
  fun h =>
    ({| view_lines := view_lines h; centered := centered h;
        caret_line := caret_line h; status := status h ++ [msg] |}, Ok tt).

(** A method call on the session object behind the reference [r]; what
    the method assigns to [self] is seen through every key that holds
    the object. *)
Definition on_session {H X} (r : SessionRef) (m : Py CompareSession X)
    : Py (Globals * H) X :=
  fun w =>
    match m (objects w.1 r) with
    | (self', out) => ((set_object r self' w.1, w.2), out)
    end.

(** The body that [CompareNextDiffCommand.run] and
    [ComparePrevDiffCommand.run] share; [move] is [next_block] or
    [prev_block]. *)
Definition diff_command_run (move : Py CompareSession (option (nat * nat)))
    (window_id : WindowId) : Py (Globals * NavHost) unit :=
  do g <- get_globals;
  match dict_get (_sessions g) window_id with
  | None => on_host (status_message "Compare: no active comparison.")
  | Some r =>
      do block <- on_session r move;
      match block with
      | None => py_ret tt
      | Some block =>
          do g' <- get_globals;
          let session := objects g' r in
          on_host (_scroll_to_line (left_display session) block.1);;
          on_host (_scroll_to_line (right_display session) block.2);;
          on_host (status_message
            ("Compare: difference " +:+ pretty (block_index session + 1)%Z
             +:+ "/" +:+ pretty (length (diff_blocks (diff session)))))
      end
  end.

(** [CompareNextDiffCommand.run] in the window [window_id] *)
Definition CompareNextDiffCommand_run : WindowId → Py (Globals * NavHost) unit :=
  diff_command_run next_block.

(** [ComparePrevDiffCommand.run] in the window [window_id] *)
Definition ComparePrevDiffCommand_run : WindowId → Py (Globals * NavHost) unit :=
  diff_command_run prev_block.

Definition ex_nav_host : NavHost :=
  {| view_lines := fun _ => 9; centered := []; caret_line := ∅; status := [] |}.

(** ** Mark and compare *)

(** [_marked], from a window id to the marked view, and [_marked_names],
    from a view id to the name its tab had before it was marked. *)
Record MarkState := {
  _marked : gmap WindowId ViewId;
  _marked_names : gmap ViewId string
}.

(** What the mark workflow uses of the host: the window of a view
    ([window()]), the tab name of every open view ([name()]), the file
    name of the views that have one ([file_name()]), and the views of a
    window ([window.views()]). *)
Record TabHost := {
  tab_window : gmap ViewId WindowId;
  tab_name : gmap ViewId string;
  tab_file : gmap ViewId string;
  window_tabs : WindowId → list ViewId
}.

Definition set_marked (f : gmap WindowId ViewId → gmap WindowId ViewId)
    : Py (MarkState * TabHost) unit :=
  fun w => (({| _marked := f (_marked w.1);
                _marked_names := _marked_names w.1 |}, w.2), Ok tt).

Definition set_marked_names (f : gmap ViewId string → gmap ViewId string)
    : Py (MarkState * TabHost) unit :=
  fun w => (({| _marked := _marked w.1;
                _marked_names := f (_marked_names w.1) |}, w.2), Ok tt).

Definition get_marks : Py (MarkState * TabHost) MarkState :=
  fun w => (w, Ok w.1).

Definition get_tabs : Py (MarkState * TabHost) TabHost :=
  fun w => (w, Ok w.2).

(** [view.name()] *)
Definition view_name (h : TabHost) (view : ViewId) : string :=
  default "" (tab_name h !! view).

(** [view.set_name(s)]; a view that is gone raises. *)
Definition set_name (view : ViewId) (s : string)
    : Py (MarkState * TabHost) unit :=
  fun w =>
    match tab_name w.2 !! view with
    | Some _ =>
        ((w.1, {| tab_window := tab_window w.2;
                  tab_name := <[view := s]> (tab_name w.2);
                  tab_file := tab_file w.2;
                  window_tabs := window_tabs w.2 |}), Ok tt)
    | None => (w, Raised)
    end.

Definition slash : Ascii.ascii := Ascii.ascii_of_nat 47.
Definition backslash : Ascii.ascii := Ascii.ascii_of_nat 92.

(** [s.replace(backslash, slash)] *)
Fixpoint replace_backslash (s : string) : string :=
  match s with
  | EmptyString => EmptyString
  | String c s' =>
      String (if decide (c = backslash) then slash else c)
        (replace_backslash s')
  end.

(** [s.split(slash)[-1]]; [acc] is the piece after the last slash seen
    so far. *)
Fixpoint last_piece (s acc : string) : string :=
  match s with
  | EmptyString => acc
  | String c s' =>
      if decide (c = slash) then last_piece s' ""
      else last_piece s' (acc +:+ String c "")
  end.

(** The local [name] of [CompareMarkCommand.run]: the last piece of the
    file name, or else the tab name, or else [untitled]. *)
Definition marked_label (h : TabHost) (view : ViewId) : string :=
  match tab_file h !! view with
  | Some fname =>
      if decide (fname = "") then
        if decide (view_name h view = "") then "untitled" else view_name h view
      else last_piece (replace_backslash fname) ""
  | None =>
      if decide (view_name h view = "") then "untitled" else view_name h view
  end.

(** [_unmark_tab] *)
Definition _unmark_tab (view : ViewId) : Py (MarkState * TabHost) unit :=
  do m <- get_marks;
  let original := _marked_names m !! view in
  set_marked_names (delete view);;
  try_pass (set_name view (default "" original)).

(** [_get_marked] *)
Definition _get_marked (window_id : WindowId)
    : Py (MarkState * TabHost) (option ViewId) :=
  do m <- get_marks;
  match _marked m !! window_id with
  | None => py_ret None
  | Some v =>
      do h <- get_tabs;
      if decide (v ∈ window_tabs h window_id) then py_ret (Some v)
      else
        set_marked_names (delete v);;
        set_marked (delete window_id);;
        py_ret None
  end.

(** [CompareMarkCommand.run] on the view [view].  A view object is true
    when its id is not 0.  The status message is not tracked. *)
Definition CompareMarkCommand_run (view : ViewId)
    : Py (MarkState * TabHost) unit :=
  do h0 <- get_tabs;
  match tab_window h0 !! view with
  | None => py_ret tt
  | Some window_id =>
      do m <- get_marks;
      match _marked m !! window_id with
      | Some prev =>
          if decide (prev ≠ 0%Z ∧ prev ≠ view) then _unmark_tab prev
          else py_ret tt
      | None => py_ret tt
      end;;
      set_marked <[window_id := view]>;;
      do h <- get_tabs;
      let name := marked_label h view in
      if String.prefix ">> " (view_name h view) then py_ret tt
      else
        set_marked_names <[view := view_name h view]>;;
        set_name view (">> " +:+ name)
  end.

Definition ex_marks : MarkState := {| _marked := ∅; _marked_names := ∅ |}.

(** Two tabs in window [1]: a saved file and an unsaved, unnamed buffer. *)
Definition ex_tabs : TabHost :=
  {| tab_window := {[ 3%Z := 1%Z; 4%Z := 1%Z ]};
     tab_name := {[ 3%Z := "notes"; 4%Z := "" ]};
     tab_file := {[ 3%Z := "/home/u/notes.txt" ]};
     window_tabs := fun _ => [3%Z; 4%Z] |}.
(** * Proofs *)

(** ** Rows and marks *)

Lemma remove_rows_snoc marks lines x :
  remove_rows marks (lines ++ [x]) =
  remove_rows marks lines ++ (if decide (length lines ∈ marks) then [] else [x]).
Proof.
  unfold remove_rows. rewrite imap_app, filter_app, fmap_app. f_equal.
  simpl. rewrite Nat.add_0_r.
  unfold filter; simpl. destruct (decide (length lines ∈ marks)) as [Hin|Hin].
  - rewrite decide_False by (simpl; tauto). reflexivity.
  - rewrite decide_True by (simpl; tauto). reflexivity.
Qed.

Lemma remove_rows_ext marks marks' lines :
  (∀ r, r < length lines → r ∈ marks ↔ r ∈ marks') →
  remove_rows marks lines = remove_rows marks' lines.
Proof.
  induction lines as [|x lines IH] using rev_ind; intros Hext; [reflexivity|].
  rewrite !remove_rows_snoc. rewrite length_app in Hext. simpl in Hext.
  rewrite IH by (intros r Hr; apply Hext; lia).
  f_equal. destruct (decide (length lines ∈ marks)) as [Hin|Hin].
  - rewrite decide_True; [done|]. apply Hext; [lia|done].
  - rewrite decide_False; [done|]. intros Hin'. apply Hin, Hext; [lia|done].
Qed.

Lemma remove_rows_nil lines : remove_rows [] lines = lines.
Proof.
  induction lines as [|x lines IH] using rev_ind; [reflexivity|].
  rewrite remove_rows_snoc, IH. rewrite decide_False; [done|].
  apply not_elem_of_nil.
Qed.

Lemma side_inv_fresh src i out cur ad de ch bl :
  side_inv src i out cur ad de ch bl → cur ∉ ad ++ de ++ ch ++ bl.
Proof.
  intros (_ & _ & Hb & _) Hin.
  rewrite Forall_forall in Hb. specialize (Hb _ Hin). lia.
Qed.

Lemma side_inv_marks src i out cur ad de ch bl x out' ad' de' ch' :
  side_inv src i out cur ad de ch bl →
  src !! i = Some x →
  out' = out ++ [x] →
  (ad' ++ de' ++ ch' ++ bl ≡ₚ ad ++ de ++ ch ++ bl ∨
   ad' ++ de' ++ ch' ++ bl ≡ₚ cur :: ad ++ de ++ ch ++ bl) →
  side_inv src (i + 1) out' (cur + 1) ad' de' ch' bl.
Proof.
  intros Hinv Hx -> Hperm.
  pose proof (side_inv_fresh _ _ _ _ _ _ _ _ Hinv) as Hfresh.
  destruct Hinv as (Hcur & Hrem & Hb & Hnd).
  split; [rewrite length_app; simpl; lia|].
  split.
  { rewrite remove_rows_snoc, Hrem, decide_False.
    - rewrite Nat.add_1_r. symmetry. by apply take_S_r.
    - intros Hin. apply Hfresh. rewrite !elem_of_app. rewrite <- Hcur in Hin. tauto. }
  assert (Hb' : Forall (fun r => r < cur + 1) (cur :: ad ++ de ++ ch ++ bl)).
  { constructor; [lia|]. eapply Forall_impl; [exact Hb|]. simpl; intros; lia. }
  assert (Hnd' : NoDup (cur :: ad ++ de ++ ch ++ bl)) by (by constructor).
  destruct Hperm as [Hp|Hp]; rewrite Hp; split; try done.
  - by inversion Hb'.
Qed.

Lemma side_inv_blank src i out cur ad de ch bl x :
  side_inv src i out cur ad de ch bl →
  side_inv src i (out ++ [x]) (cur + 1) ad de ch (bl ++ [cur]).
Proof.
  intros Hinv.
  pose proof (side_inv_fresh _ _ _ _ _ _ _ _ Hinv) as Hfresh.
  destruct Hinv as (Hcur & Hrem & Hb & Hnd).
  split; [rewrite length_app; simpl; lia|].
  split.
  { rewrite remove_rows_snoc, decide_True.
    - rewrite app_nil_r, <- Hrem. apply remove_rows_ext.
      intros r Hr. rewrite elem_of_app, list_elem_of_singleton. split; [|tauto].
      intros [?|?]; [done|lia].
    - rewrite elem_of_app, list_elem_of_singleton. right. done. }
  assert (Hp : ad ++ de ++ ch ++ bl ++ [cur] ≡ₚ cur :: ad ++ de ++ ch ++ bl).
  { rewrite !(assoc_L (++)). rewrite <- Permutation_cons_append.
    by rewrite <- !(assoc_L (++)). }
  rewrite Hp. split.
  - constructor; [lia|]. eapply Forall_impl; [exact Hb|]. simpl; intros; lia.
  - by constructor.
Qed.

Lemma perm_snoc_mid {X} (l1 l2 l3 : list X) x :
  l1 ++ (l2 ++ [x]) ++ l3 ≡ₚ x :: l1 ++ l2 ++ l3.
Proof.
  rewrite <- (assoc_L (++) l2 [x] l3). simpl.
  rewrite (assoc_L (++) l1 l2 (x :: l3)).
  rewrite <- Permutation_middle. by rewrite <- (assoc_L (++)).
Qed.

Lemma side_inv_keep src i out cur ad de ch bl x :
  side_inv src i out cur ad de ch bl → src !! i = Some x →
  side_inv src (i + 1) (out ++ [x]) (cur + 1) ad de ch bl.
Proof. intros Hinv Hx. eapply side_inv_marks; eauto. Qed.

Lemma side_inv_added src i out cur ad de ch bl x :
  side_inv src i out cur ad de ch bl → src !! i = Some x →
  side_inv src (i + 1) (out ++ [x]) (cur + 1) (ad ++ [cur]) de ch bl.
Proof.
  intros Hinv Hx. eapply side_inv_marks; eauto. right.
  apply (perm_snoc_mid [] ad (de ++ ch ++ bl) cur).
Qed.

Lemma side_inv_deleted src i out cur ad de ch bl x :
  side_inv src i out cur ad de ch bl → src !! i = Some x →
  side_inv src (i + 1) (out ++ [x]) (cur + 1) ad (de ++ [cur]) ch bl.
Proof.
  intros Hinv Hx. eapply side_inv_marks; eauto. right.
  apply (perm_snoc_mid ad de (ch ++ bl) cur).
Qed.

Lemma side_inv_changed src i out cur ad de ch bl x :
  side_inv src i out cur ad de ch bl → src !! i = Some x →
  side_inv src (i + 1) (out ++ [x]) (cur + 1) ad de (ch ++ [cur]) bl.
Proof.
  intros Hinv Hx. eapply side_inv_marks; eauto. right.
  rewrite !(assoc_L (++) ad de). rewrite perm_snoc_mid.
  by rewrite <- !(assoc_L (++) ad de).
Qed.

Lemma StronglySorted_snoc {X} (R : relation X) (l : list X) (x : X) :
  StronglySorted R l → Forall (fun y => R y x) l → StronglySorted R (l ++ [x]).
Proof.
  induction 1 as [|y l Hl IH Hy]; intros Hall; simpl.
  - repeat constructor.
  - inversion Hall; subst. constructor; [by apply IH|].
    rewrite Forall_app, Forall_singleton. done.
Qed.

(** ** Loops *)

(** A loop over [k0, k0 + n) whose body never fails and takes an
    invariant from [k] to [k + 1] ends, with the invariant at [k0 + n]. *)
Lemma for_each_inv {St : Type} (P : nat → St → Prop) body n :
  ∀ k0 s,
    P k0 s →
    (∀ k s, k0 ≤ k < k0 + n → P k s → ∃ s', body k s = Some s' ∧ P (k + 1) s') →
    ∃ s', for_each (seq k0 n) body s = Some s' ∧ P (k0 + n) s'.
Proof.
  induction n as [|n IH]; intros k0 s HP Hstep; simpl.
  - exists s. by rewrite Nat.add_0_r.
  - destruct (Hstep k0 s) as (s1 & Hb & HP1); [lia|done|].
    rewrite Hb. simpl.
    destruct (IH (S k0) s1) as (s' & Hloop & HP').
    + by rewrite Nat.add_1_r in HP1.
    + intros k s2 Hk HP2. apply Hstep; [lia|done].
    + exists s'. split; [done|]. by rewrite <- Nat.add_succ_comm.
Qed.

Lemma for_range_inv {St : Type} (P : nat → St → Prop) body n s :
  P 0 s →
  (∀ k s, k < n → P k s → ∃ s', body k s = Some s' ∧ P (k + 1) s') →
  ∃ s', for_range n body s = Some s' ∧ P n s'.
Proof.
  intros HP Hstep. apply (for_each_inv P body n 0 s HP).
  intros k s1 Hk. apply Hstep. lia.
Qed.

Section WalkProofs.
Variables left_in right_in : list string.

Ltac side_step :=
  first [ by apply side_inv_keep | by apply side_inv_added
        | by apply side_inv_deleted | by apply side_inv_changed
        | by apply side_inv_blank ].

Ltac body_step :=
  simpl; eexists; split; [reflexivity|];
  unfold loop_inv, row_inv; simpl;
  rewrite ?Nat.add_assoc, ?Nat.add_0_r;
  split_and!; try done; try lia; try side_step.

Lemma equal_body_inv st0 i1 j1 n k st :
  i1 + n ≤ length left_in → j1 + n ≤ length right_in → k < n →
  loop_inv left_in right_in st0 (fun k => i1 + k) (fun k => j1 + k) k st →
  ∃ st', equal_body left_in right_in i1 j1 k st = Some st' ∧
    loop_inv left_in right_in st0 (fun k => i1 + k) (fun k => j1 + k) (k + 1) st'.
Proof.
  intros Hi Hj Hk ((Hl & Hr & Hlr) & Hb & Hli & Hri).
  destruct (lookup_lt_is_Some_2 left_in (i1 + k)) as [x Hx]; [lia|].
  destruct (lookup_lt_is_Some_2 right_in (j1 + k)) as [y Hy]; [lia|].
  unfold equal_body. rewrite Hx, Hy. body_step.
Qed.

Lemma insert_body_inv st0 i1 j1 n k st :
  j1 + n ≤ length right_in → k < n →
  loop_inv left_in right_in st0 (fun _ => i1) (fun k => j1 + k) k st →
  ∃ st', insert_body right_in j1 k st = Some st' ∧
    loop_inv left_in right_in st0 (fun _ => i1) (fun k => j1 + k) (k + 1) st'.
Proof.
  intros Hj Hk ((Hl & Hr & Hlr) & Hb & Hli & Hri).
  destruct (lookup_lt_is_Some_2 right_in (j1 + k)) as [y Hy]; [lia|].
  unfold insert_body. rewrite Hy. body_step.
Qed.

Lemma delete_body_inv st0 i1 j1 n k st :
  i1 + n ≤ length left_in → k < n →
  loop_inv left_in right_in st0 (fun k => i1 + k) (fun _ => j1) k st →
  ∃ st', delete_body left_in i1 k st = Some st' ∧
    loop_inv left_in right_in st0 (fun k => i1 + k) (fun _ => j1) (k + 1) st'.
Proof.
  intros Hi Hk ((Hl & Hr & Hlr) & Hb & Hli & Hri).
  destruct (lookup_lt_is_Some_2 left_in (i1 + k)) as [x Hx]; [lia|].
  unfold delete_body. rewrite Hx. body_step.
Qed.

Lemma replace_body_inv st0 i1 j1 lcount rcount k st :
  i1 + lcount ≤ length left_in → j1 + rcount ≤ length right_in →
  k < lcount `max` rcount →
  loop_inv left_in right_in st0
    (fun k => i1 + k `min` lcount) (fun k => j1 + k `min` rcount) k st →
  ∃ st', replace_body left_in right_in i1 j1 lcount rcount k st = Some st' ∧
    loop_inv left_in right_in st0
      (fun k => i1 + k `min` lcount) (fun k => j1 + k `min` rcount) (k + 1) st'.
Proof.
  unfold loop_inv. intros Hi Hj Hk ((Hl & Hr & Hlr) & Hb & Hli & Hri).
  unfold replace_body.
  destruct (decide (k < lcount)) as [Hkl|Hkl];
    destruct (decide (k < rcount)) as [Hkr|Hkr]; try lia.
  - destruct (lookup_lt_is_Some_2 left_in (i1 + k)) as [x Hx]; [lia|].
    destruct (lookup_lt_is_Some_2 right_in (j1 + k)) as [y Hy]; [lia|].
    rewrite Hx, Hy. simpl. rewrite decide_True by done.
    replace (k `min` lcount) with k in * by lia.
    replace (k `min` rcount) with k in * by lia.
    replace ((k + 1) `min` lcount) with (k + 1) by lia.
    replace ((k + 1) `min` rcount) with (k + 1) by lia.
    body_step.
  - destruct (lookup_lt_is_Some_2 left_in (i1 + k)) as [x Hx]; [lia|].
    rewrite Hx. simpl. rewrite decide_False by tauto.
    replace (k `min` lcount) with k in * by lia.
    replace ((k + 1) `min` lcount) with (k + 1) by lia.
    replace ((k + 1) `min` rcount) with (k `min` rcount) by lia.
    body_step.
  - destruct (lookup_lt_is_Some_2 right_in (j1 + k)) as [y Hy]; [lia|].
    rewrite Hy. simpl. rewrite decide_False by tauto.
    replace (k `min` rcount) with k in * by lia.
    replace ((k + 1) `min` rcount) with (k + 1) by lia.
    replace ((k + 1) `min` lcount) with (k `min` lcount) by lia.
    body_step.
Qed.

Lemma row_inv_record_block i j st :
  row_inv left_in right_in i j st →
  row_inv left_in right_in i j (record_block st).
Proof. by unfold row_inv. Qed.

(** A non-empty difference range: its anchor is recorded, then its
    rows are written below it. *)
Lemma walk_inv_block i j i' j' n st st' :
  walk_inv left_in right_in i j st → 0 < n →
  row_inv left_in right_in i' j' st' →
  blocks st' = blocks st ++ [(li st, ri st)] →
  li st' = li st + n → ri st' = ri st + n →
  walk_inv left_in right_in i' j' st'.
Proof.
  intros (Hrow & Hsorted & Hbelow) Hn Hrow' Hb Hli Hri.
  split; [done|]. rewrite Hb. split.
  - apply StronglySorted_snoc; [done|].
    eapply Forall_impl; [exact Hbelow|]. by intros [l r].
  - rewrite Forall_app, Forall_singleton. split; [|simpl; lia].
    eapply Forall_impl; [exact Hbelow|]. intros [l r]; simpl. lia.
Qed.

Lemma walk_opcode_inv tag i1 i2 j1 j2 st :
  walk_inv left_in right_in i1 j1 st →
  opcode_ok (tag, i1, i2, j1, j2) →
  i2 ≤ length left_in → j2 ≤ length right_in →
  ∃ st', walk_opcode left_in right_in (tag, i1, i2, j1, j2) st = Some st' ∧
    walk_inv left_in right_in i2 j2 st'.
Proof.
  intros Hinv Hok Hi Hj. pose proof Hinv as (Hrow & Hsorted & Hbelow).
  destruct tag; simpl in *.
  - destruct Hok as (Hlt & Hlt' & Hlen).
    destruct (for_range_inv
      (loop_inv left_in right_in st (fun k => i1 + k) (fun k => j1 + k))
      (equal_body left_in right_in i1 j1) (i2 - i1) st)
      as (st' & Hrun & Hrow' & Hb & Hli & Hri).
    { unfold loop_inv. by rewrite !Nat.add_0_r. }
    { intros k s Hk. apply (equal_body_inv st i1 j1 (i2 - i1)); lia. }
    exists st'. split; [done|].
    replace (i1 + (i2 - i1)) with i2 in Hrow' by lia.
    replace (j1 + (i2 - i1)) with j2 in Hrow' by lia.
    split; [done|]. rewrite Hb. split; [done|].
    eapply Forall_impl; [exact Hbelow|]. intros [l r]; simpl. lia.
  - destruct Hok as (-> & Hlt).
    destruct (for_range_inv
      (loop_inv left_in right_in (record_block st) (fun _ => i2) (fun k => j1 + k))
      (insert_body right_in j1) (j2 - j1) (record_block st))
      as (st' & Hrun & Hrow' & Hb & Hli & Hri).
    { unfold loop_inv. rewrite !Nat.add_0_r. by split; [apply row_inv_record_block|]. }
    { intros k s Hk. apply (insert_body_inv _ i2 j1 (j2 - j1)); lia. }
    exists st'. split; [done|].
    replace (j1 + (j2 - j1)) with j2 in Hrow' by lia.
    apply (walk_inv_block i2 j1 i2 j2 (j2 - j1) st st'); auto; lia.
  - destruct Hok as (Hlt & ->).
    destruct (for_range_inv
      (loop_inv left_in right_in (record_block st) (fun k => i1 + k) (fun _ => j2))
      (delete_body left_in i1) (i2 - i1) (record_block st))
      as (st' & Hrun & Hrow' & Hb & Hli & Hri).
    { unfold loop_inv. rewrite !Nat.add_0_r. by split; [apply row_inv_record_block|]. }
    { intros k s Hk. apply (delete_body_inv _ i1 j2 (i2 - i1)); lia. }
    exists st'. split; [done|].
    replace (i1 + (i2 - i1)) with i2 in Hrow' by lia.
    apply (walk_inv_block i1 j2 i2 j2 (i2 - i1) st st'); auto; lia.
  - destruct Hok as (Hlt & Hlt').
    destruct (for_range_inv
      (loop_inv left_in right_in (record_block st)
         (fun k => i1 + k `min` (i2 - i1)) (fun k => j1 + k `min` (j2 - j1)))
      (replace_body left_in right_in i1 j1 (i2 - i1) (j2 - j1))
      ((i2 - i1) `max` (j2 - j1)) (record_block st))
      as (st' & Hrun & Hrow' & Hb & Hli & Hri).
    { unfold loop_inv. simpl. rewrite !Nat.add_0_r.
      by split; [apply row_inv_record_block|]. }
    { intros k s Hk. apply replace_body_inv; lia. }
    exists st'. split; [done|].
    replace (i1 + _) with i2 in Hrow' by lia.
    replace (j1 + _) with j2 in Hrow' by lia.
    apply (walk_inv_block i1 j1 i2 j2 ((i2 - i1) `max` (j2 - j1)) st st');
      auto; lia.
Qed.

Lemma opcodes_from_bound la lb ops :
  ∀ i j, opcodes_from la lb i j ops → i ≤ la ∧ j ≤ lb.
Proof.
  induction ops as [|[[[[tag i1] i2] j1] j2] ops IH]; simpl; intros i j.
  - lia.
  - intros (-> & -> & Hok & Hrest). apply IH in Hrest.
    destruct tag; simpl in Hok; lia.
Qed.

Lemma walk_opcodes_inv ops :
  ∀ i j st,
    opcodes_from (length left_in) (length right_in) i j ops →
    walk_inv left_in right_in i j st →
    ∃ st', walk_opcodes left_in right_in ops st = Some st' ∧
      walk_inv left_in right_in (length left_in) (length right_in) st'.
Proof.
  induction ops as [|[[[[tag i1] i2] j1] j2] ops IH]; simpl; intros i j st.
  - intros (-> & ->) Hinv. by exists st.
  - intros (-> & -> & Hok & Hrest) Hinv.
    pose proof (opcodes_from_bound _ _ _ _ _ Hrest) as (Hi & Hj).
    destruct (walk_opcode_inv tag i i2 j j2 st) as (st1 & Hrun & Hinv1); auto.
    simpl in Hrun. rewrite Hrun. simpl. by apply (IH i2 j2).
Qed.

Lemma walk_inv_init : walk_inv left_in right_in 0 0 init_locals.
Proof.
  unfold walk_inv, row_inv, side_inv; simpl.
  split_and!; try done; try apply NoDup_nil_2; try constructor.
Qed.
End WalkProofs.

(** ** The matcher: [find_longest_match] *)

Module DifflibFacts.
Import Difflib.
Section Matcher.
Context {A : Type} `{EqDecision A}.
Variables a b : list A.

Lemma j2lenget_bound alo blo bhi i j2len j :
  j2len_ok alo blo bhi i j2len → alo ≤ i → blo ≤ j →
  j2lenget j2len j + 1 + alo ≤ i + 1 ∧ j2lenget j2len j + 1 + blo ≤ j + 1.
Proof.
  intros Hok Hi Hj. destruct j as [|j]; simpl; [lia|].
  destruct (j2len !! j) as [k|] eqn:Hk; simpl; [|lia].
  destruct (Hok _ _ Hk). lia.
Qed.

Lemma scan_row_ok alo ahi blo bhi i j2len js :
  alo ≤ i < ahi → j2len_ok alo blo bhi i j2len →
  ∀ new best,
    j2len_ok alo blo bhi (i + 1) new → match_in alo ahi blo bhi best →
    j2len_ok alo blo bhi (i + 1) (scan_row i blo bhi j2len js new best).1 ∧
    match_in alo ahi blo bhi (scan_row i blo bhi j2len js new best).2.
Proof.
  intros Hi Hold. induction js as [|j js IH]; intros new best Hnew Hbest;
    simpl; [done|].
  destruct (decide (j < blo)); [by apply IH|].
  destruct (decide (bhi ≤ j)); [done|].
  destruct (j2lenget_bound alo blo bhi i j2len j) as [Hk1 Hk2]; [done|lia|lia|].
  apply IH.
  - intros j' k'. destruct (decide (j = j')) as [->|Hne].
    + rewrite lookup_insert_eq. intros [= <-]. lia.
    + rewrite lookup_insert_ne by done. apply Hnew.
  - destruct best as [[bi bj] bk]. simpl.
    destruct (decide (bk < j2lenget j2len j + 1)); [|done].
    simpl. lia.
Qed.

Lemma scan_rows_ok alo ahi blo bhi n :
  ahi ≤ length a →
  ∀ i0 j2len best,
    alo ≤ i0 → i0 + n ≤ ahi →
    j2len_ok alo blo bhi i0 j2len → match_in alo ahi blo bhi best →
    ∃ best', scan_rows a b (seq i0 n) blo bhi j2len best = Some best' ∧
      match_in alo ahi blo bhi best'.
Proof.
  intros Hahi. induction n as [|n IH]; intros i0 j2len best Hlo Hhi Hj Hbest;
    simpl; [by exists best|].
  destruct (lookup_lt_is_Some_2 a i0) as [x Hx]; [lia|]. rewrite Hx. simpl.
  pose proof (scan_row_ok alo ahi blo bhi i0 j2len (b2j_get b x)
    ltac:(lia) Hj ∅ best) as Hrow.
  destruct (scan_row i0 blo bhi j2len (b2j_get b x) ∅ best) as [new best1].
  destruct Hrow as [Hnew Hbest1]; [by intros j k; rewrite lookup_empty|done|].
  apply IH; [lia|lia| |done]. by rewrite Nat.add_1_r in Hnew.
Qed.

Lemma guard_left_ok junk alo ahi blo bhi best :
  ahi ≤ length a → bhi ≤ length b → match_in alo ahi blo bhi best →
  ∃ g, guard_left a b junk alo blo best = Some g ∧
    (g = true → alo < best.1.1 ∧ blo < best.1.2).
Proof.
  intros Ha Hb. destruct best as [[bi bj] bk]. simpl. intros Hin.
  destruct (decide (alo < bi)); [|by exists false].
  destruct (decide (blo < bj)); [|by exists false].
  destruct (lookup_lt_is_Some_2 b (bj - 1)) as [y Hy]; [lia|].
  destruct (lookup_lt_is_Some_2 a (bi - 1)) as [x Hx]; [lia|].
  rewrite Hy. simpl. destruct (negb _); [by exists false|].
  rewrite Hx. simpl. eauto.
Qed.

Lemma guard_right_ok junk alo ahi blo bhi best :
  ahi ≤ length a → bhi ≤ length b → match_in alo ahi blo bhi best →
  ∃ g, guard_right a b junk ahi bhi best = Some g ∧
    (g = true → best.1.1 + best.2 < ahi ∧ best.1.2 + best.2 < bhi).
Proof.
  intros Ha Hb. destruct best as [[bi bj] bk]. simpl. intros Hin.
  destruct (decide (bi + bk < ahi)); [|by exists false].
  destruct (decide (bj + bk < bhi)); [|by exists false].
  destruct (lookup_lt_is_Some_2 b (bj + bk)) as [y Hy]; [lia|].
  destruct (lookup_lt_is_Some_2 a (bi + bk)) as [x Hx]; [lia|].
  rewrite Hy. simpl. destruct (negb _); [by exists false|].
  rewrite Hx. simpl. eauto.
Qed.

(** The backward extension ends within its iteration bound, inside
    the window, and never shrinks the match. *)
Lemma extend_left_ok junk alo ahi blo bhi n :
  ahi ≤ length a → bhi ≤ length b →
  ∀ best, best.1.1 ≤ n → match_in alo ahi blo bhi best →
  ∃ best', extend_left a b junk n alo blo best = Some best' ∧
    match_in alo ahi blo bhi best' ∧ best.2 ≤ best'.2.
Proof.
  intros Ha Hb. induction n as [|n IH]; intros best Hn Hin.
  - destruct (guard_left_ok junk alo ahi blo bhi best) as (g & Hg & Hgt); auto.
    simpl. rewrite Hg. simpl. destruct g; [|by exists best].
    destruct Hgt; [done|lia].
  - destruct (guard_left_ok junk alo ahi blo bhi best) as (g & Hg & Hgt); auto.
    simpl. rewrite Hg. simpl. destruct g; [|by exists best].
    destruct Hgt as [Hgi Hgj]; [done|].
    destruct best as [[bi bj] bk]. simpl in *.
    destruct (IH (bi - 1, bj - 1, bk + 1)) as (best' & Hrun & Hin' & Hle);
      simpl; [lia|lia|].
    exists best'. split_and!; [done|done|simpl in Hle; lia].
Qed.

Lemma extend_right_ok junk alo ahi blo bhi n :
  ahi ≤ length a → bhi ≤ length b →
  ∀ best, ahi ≤ best.1.1 + best.2 + n → match_in alo ahi blo bhi best →
  ∃ best', extend_right a b junk n ahi bhi best = Some best' ∧
    match_in alo ahi blo bhi best' ∧ best.2 ≤ best'.2.
Proof.
  intros Ha Hb. induction n as [|n IH]; intros best Hn Hin.
  - destruct (guard_right_ok junk alo ahi blo bhi best) as (g & Hg & Hgt); auto.
    simpl. rewrite Hg. simpl. destruct g; [|by exists best].
    destruct Hgt; [done|lia].
  - destruct (guard_right_ok junk alo ahi blo bhi best) as (g & Hg & Hgt); auto.
    simpl. rewrite Hg. simpl. destruct g; [|by exists best].
    destruct Hgt as [Hgi Hgj]; [done|].
    destruct best as [[bi bj] bk]. simpl in *.
    destruct (IH (bi, bj, bk + 1)) as (best' & Hrun & Hin' & Hle);
      simpl; [lia|lia|].
    exists best'. split_and!; [done|done|simpl in Hle; lia].
Qed.

Lemma blocks_loop_nil fuel acc : blocks_loop a b fuel [] acc = Some acc.
Proof. by destruct fuel. Qed.

(** [find_longest_match] returns, and its match lies in the window;
    [best0] is the match held when the scan of the rows ends. *)
Lemma find_longest_match_ok alo ahi blo bhi :
  alo ≤ ahi → ahi ≤ length a → blo ≤ bhi → bhi ≤ length b →
  ∃ best0 m,
    scan_rows a b (seq alo (ahi - alo)) blo bhi ∅ (alo, blo, 0) = Some best0 ∧
    find_longest_match a b alo ahi blo bhi = Some m ∧
    match_in alo ahi blo bhi m ∧ best0.2 ≤ m.2.
Proof.
  intros Hlo Ha Hlo' Hb. unfold find_longest_match.
  destruct (scan_rows_ok alo ahi blo bhi (ahi - alo) Ha alo ∅ (alo, blo, 0))
    as (m0 & -> & Hin0); [lia|lia| |simpl; lia|].
  { by intros j k; rewrite lookup_empty. }
  simpl.
  destruct (extend_left_ok false alo ahi blo bhi m0.1.1 Ha Hb m0)
    as (m1 & -> & Hin1 & Hle1); [lia|done|]. simpl.
  destruct (extend_right_ok false alo ahi blo bhi ahi Ha Hb m1)
    as (m2 & -> & Hin2 & Hle2); [lia|done|]. simpl.
  destruct (extend_left_ok true alo ahi blo bhi m2.1.1 Ha Hb m2)
    as (m3 & -> & Hin3 & Hle3); [lia|done|]. simpl.
  destruct (extend_right_ok true alo ahi blo bhi ahi Ha Hb m3)
    as (m4 & -> & Hin4 & Hle4); [lia|done|].
  exists m0, m4. split_and!; try done. lia.
Qed.
End Matcher.

(** *** The queue of windows *)

Lemma StronglySorted_perm {X} (R : relation X) `{!Symmetric R} (l l' : list X) :
  l ≡ₚ l' → StronglySorted R l → StronglySorted R l'.
Proof.
  induction 1 as [|x l l' Hp IH|x y l|l l' l'' _ IH1 _ IH2]; intros Hs.
  - done.
  - apply StronglySorted_cons in Hs as [Hx Hl].
    apply StronglySorted_cons. split; [by rewrite <- Hp|by apply IH].
  - apply StronglySorted_cons in Hs as [Hy Hs].
    apply StronglySorted_cons in Hs as [Hx Hl].
    inversion Hy; subst.
    apply StronglySorted_cons. split; [constructor; [by symmetry|done]|].
    by apply StronglySorted_cons.
  - auto.
Qed.

#[local] Instance apart_symmetric : Symmetric apart.
Proof. intros x y [?|?]; [by right|by left]. Qed.

Lemma apart_inside w x y : inside x w → apart w y → apart x y.
Proof.
  destruct w as [[[? ?] ?] ?], x as [[[? ?] ?] ?], y as [[[? ?] ?] ?].
  unfold inside, apart, before. lia.
Qed.

Lemma queue_weight_cons alo ahi blo bhi queue :
  queue_weight ((alo, ahi, blo, bhi) :: queue) =
  2 * (ahi - alo) + 1 + queue_weight queue.
Proof. reflexivity. Qed.

Lemma queue_weight_app q1 q2 :
  queue_weight (q1 ++ q2) = queue_weight q1 + queue_weight q2.
Proof. apply sum_list_with_app. Qed.

Section Queue.
Context {A : Type} `{EqDecision A}.
Variables a b : list A.

Lemma blocks_loop_ok fuel :
  ∀ queue acc,
    queue_weight queue ≤ fuel →
    queue_inv (length a) (length b) queue acc →
    ∃ acc', blocks_loop a b fuel queue acc = Some acc' ∧
      queue_inv (length a) (length b) [] acc'.
Proof.
  induction fuel as [|fuel IH]; intros queue acc Hw Hinv.
  - destruct queue as [|[[[alo ahi] blo] bhi] queue]; [by exists acc|].
    unfold queue_weight in Hw. simpl in Hw. lia.
  - destruct queue as [|[[[alo ahi] blo] bhi] queue]; [by exists acc|].
    destruct Hinv as (Hq & Hacc & Hs).
    apply Forall_cons in Hq as [(Hlo & Hhi & Hlo' & Hhi') Hq].
    simpl in Hs. apply StronglySorted_cons in Hs as [Hw_rest Hs].
    destruct (find_longest_match_ok a b alo ahi blo bhi)
      as (_ & [[i j] k] & _ & Hflm & (Hi1 & Hi2 & Hj1 & Hj2) & _); try done.
    simpl. rewrite Hflm. simpl.
    rewrite queue_weight_cons in Hw.
    destruct (decide (k = 0)) as [Hk|Hk].
    { apply IH; [lia|done]. }
    set (w := (alo, ahi, blo, bhi)) in *.
    set (w1 := (alo, i, blo, j)). set (w2 := (i + k, ahi, j + k, bhi)).
    set (news := (if decide (i + k < ahi ∧ j + k < bhi) then [w2] else []) ++
                 (if decide (alo < i ∧ blo < j) then [w1] else [])).
    match goal with |- ∃ _, blocks_loop _ _ _ ?q _ = _ ∧ _ =>
      replace q with (news ++ queue)
        by (unfold news; repeat case_decide; reflexivity) end.
    assert (Hnews_in : ∀ x, x ∈ news → inside x w ∧ window_ok (length a) (length b) x
              ∧ apart x (window_of (i, j, k))).
    { intros x Hx. unfold news in Hx. rewrite elem_of_app in Hx.
      destruct Hx as [Hx|Hx]; case_decide; try (by apply elem_of_nil in Hx);
        apply list_elem_of_singleton in Hx; subst x;
        unfold inside, window_ok, apart, before, w, w1, w2; simpl; lia. }
    assert (Hnews_s : StronglySorted apart news).
    { unfold news. repeat case_decide; simpl;
        repeat match goal with
               | |- StronglySorted _ _ => constructor
               | |- Forall _ _ => constructor
               end.
      unfold apart, before, w1, w2. lia. }
    assert (Hnews_w : queue_weight news + 1 ≤ 2 * (ahi - alo) + 1).
    { unfold news, queue_weight. repeat case_decide; simpl; lia. }
    apply IH.
    + rewrite queue_weight_app. lia.
    + split_and!.
      * apply Forall_app. split; [|done].
        apply Forall_forall. intros x Hx. by apply Hnews_in.
      * apply Forall_app. split; [done|].
        apply Forall_singleton. simpl. lia.
      * rewrite fmap_app. simpl.
        apply (StronglySorted_perm apart
          ((news ++ [(i, i + k, j, j + k)]) ++ (queue ++ (window_of <$> acc)))).
        { rewrite <- !(assoc_L (++)). f_equiv. simpl.
          rewrite (assoc_L (++) queue). by rewrite <- Permutation_cons_append. }
        apply StronglySorted_app_2; [|apply StronglySorted_app_2|done].
        -- intros x y Hx Hy. rewrite Forall_forall in Hw_rest.
           apply (apart_inside w); [|by apply Hw_rest].
           apply elem_of_app in Hx as [Hx|Hx]; [by apply Hnews_in|].
           apply list_elem_of_singleton in Hx. subst x.
           unfold inside, w. lia.
        -- intros x y Hx Hy. apply list_elem_of_singleton in Hy. subst y.
           by apply Hnews_in.
        -- done.
        -- repeat constructor.
Qed.
End Queue.

(** *** Sorting and collapsing the blocks *)

#[local] Instance match_le_trans : Transitive match_le.
Proof. intros [[? ?] ?] [[? ?] ?] [[? ?] ?]. unfold match_le. lia. Qed.

#[local] Instance match_le_total : Total match_le.
Proof. intros [[? ?] ?] [[? ?] ?]. unfold match_le. lia. Qed.

(** Blocks that are pairwise apart ascend without overlap once they are
    sorted. *)
Lemma sorted_blocks_upto la lb bs :
  Forall (block_ok la lb) bs →
  StronglySorted match_le bs →
  StronglySorted apart (window_of <$> bs) →
  ∀ i j,
    i ≤ la → j ≤ lb →
    Forall (fun m : Match => i ≤ m.1.1 ∧ j ≤ m.1.2) bs →
    blocks_upto la lb i j bs.
Proof.
  induction bs as [|[[ai bj] k] bs IH]; intros Hok Hle Hap i j Hi Hj Hhd;
    simpl; [done|].
  apply Forall_cons in Hok as [(Hk & Hai & Hbj) Hok].
  apply StronglySorted_cons in Hle as [Hle_hd Hle].
  rewrite fmap_cons in Hap. apply StronglySorted_cons in Hap as [Hap_hd Hap].
  apply Forall_cons in Hhd as [[Hia Hjb] _]. simpl in Hia, Hjb.
  split_and!; [done|done|].
  apply IH; try done.
  rewrite Forall_fmap in Hap_hd.
  rewrite Forall_forall in Hok, Hle_hd, Hap_hd. apply Forall_forall.
  intros [[ai' bj'] k'] Hin.
  specialize (Hok _ Hin). specialize (Hle_hd _ Hin). specialize (Hap_hd _ Hin).
  unfold block_ok, match_le, apart, before, window_of in *. simpl in *. lia.
Qed.

Lemma blocks_path_snoc bs :
  ∀ i j ei ej ai bj size,
    blocks_path i j bs ei ej → ei ≤ ai → ej ≤ bj →
    blocks_path i j (bs ++ [(ai, bj, size)]) (ai + size) (bj + size).
Proof.
  induction bs as [|[[ai' bj'] k'] bs IH]; simpl; intros i j ei ej ai bj size.
  - intros [-> ->] Hi Hj. done.
  - intros (Hi & Hj & Hrest) Hei Hej. split_and!; [done|done|].
    by apply (IH _ _ ei ej).
Qed.

Lemma collapse_path la lb bs :
  ∀ i1 j1 k1 na ei ej,
    blocks_path 0 0 na ei ej → ei ≤ i1 → ej ≤ j1 →
    blocks_upto la lb (i1 + k1) (j1 + k1) bs →
    ∃ ei' ej',
      blocks_path 0 0 (collapse bs (i1, j1, k1) na).2 ei' ej' ∧
      ei' ≤ (collapse bs (i1, j1, k1) na).1.1.1 ∧
      ej' ≤ (collapse bs (i1, j1, k1) na).1.1.2 ∧
      (collapse bs (i1, j1, k1) na).1.1.1 + (collapse bs (i1, j1, k1) na).1.2 ≤ la ∧
      (collapse bs (i1, j1, k1) na).1.1.2 + (collapse bs (i1, j1, k1) na).1.2 ≤ lb.
Proof.
  induction bs as [|[[i2 j2] k2] bs IH]; simpl; intros i1 j1 k1 na ei ej Hp Hei Hej.
  - intros [Hi Hj]. exists ei, ej. done.
  - intros (Hi & Hj & Hrest).
    destruct (decide (i1 + k1 = i2 ∧ j1 + k1 = j2)) as [[<- <-]|Hna].
    + apply (IH _ _ _ _ ei ej); try done.
      by rewrite !(assoc_L Nat.add).
    + destruct (decide (k1 = 0)) as [->|Hk1].
      * apply (IH _ _ _ _ ei ej); try done; lia.
      * apply (IH _ _ _ _ (i1 + k1) (j1 + k1)); try done.
        by apply (blocks_path_snoc _ _ _ ei ej).
Qed.

(** *** From blocks to opcodes *)

Lemma opcodes_loop_app bs :
  ∀ i j answer,
    opcodes_loop bs i j answer = answer ++ opcodes_loop bs i j [].
Proof.
  induction bs as [|[[ai bj] size] bs IH]; intros i j answer; simpl.
  - by rewrite app_nil_r.
  - rewrite IH. symmetry. rewrite IH. rewrite (assoc_L (++)). f_equal.
    repeat case_decide; simpl; by rewrite ?app_nil_r, <- ?(assoc_L (++)).
Qed.

Lemma opcodes_loop_ok la lb bs :
  ∀ i j,
    blocks_path i j bs la lb →
    opcodes_from la lb i j (opcodes_loop bs i j []).
Proof.
  induction bs as [|[[ai bj] size] bs IH]; intros i j; simpl; [done|].
  intros (Hi & Hj & Hrest). apply IH in Hrest.
  rewrite opcodes_loop_app.
  destruct (decide (size = 0)) as [->|Hsize].
  - rewrite !Nat.add_0_r in *.
    repeat case_decide; simpl; rewrite ?app_nil_r; simpl;
      try (split_and!; try done; lia).
    by replace i with ai by lia; replace j with bj by lia.
  - repeat case_decide; simpl;
      (split_and!; try done; try lia).
Qed.

Section Opcodes.
Context {A : Type} `{EqDecision A}.
Variables a b : list A.

(** [get_matching_blocks] returns, and its blocks ascend without
    overlap from [(0, 0)] to the sentinel [(la, lb, 0)]. *)
Lemma get_matching_blocks_ok :
  ∃ bs, get_matching_blocks a b = Some bs ∧
    blocks_path 0 0 bs (length a) (length b).
Proof.
  unfold get_matching_blocks.
  destruct (blocks_loop_ok a b (2 * length a + 1) [(0, length a, 0, length b)] [])
    as (acc & -> & _ & Hok & Hap).
  { rewrite queue_weight_cons. unfold queue_weight. simpl. lia. }
  { split_and!; [|done|].
    - apply Forall_singleton. simpl. lia.
    - repeat constructor. }
  simpl in Hap |- *.
  set (sorted := merge_sort match_le acc).
  assert (Hperm : sorted ≡ₚ acc) by apply merge_sort_Permutation.
  assert (Hupto : blocks_upto (length a) (length b) (0 + 0) (0 + 0) sorted).
  { apply sorted_blocks_upto.
    - by rewrite Hperm.
    - apply StronglySorted_merge_sort; apply _.
    - apply (StronglySorted_perm apart (window_of <$> acc)); [|done].
      by rewrite Hperm.
    - lia.
    - lia.
    - apply Forall_forall. intros; simpl; lia. }
  destruct (collapse_path _ _ _ 0 0 0 [] 0 0 ltac:(done) ltac:(lia) ltac:(lia) Hupto)
    as (ei & ej & Hpath & Hei & Hej & Hla & Hlb).
  destruct (collapse sorted (0, 0, 0) []) as [[[i1 j1] k1] na]. simpl in *.
  eexists; split; [reflexivity|].
  replace (length a) with (length a + 0) at 2 by lia.
  replace (length b) with (length b + 0) at 2 by lia.
  destruct (decide (k1 = 0)) as [->|Hk1].
  - apply (blocks_path_snoc _ _ _ ei ej); [done|lia|lia].
  - apply (blocks_path_snoc _ _ _ (i1 + k1) (j1 + k1)); [|lia|lia].
    by apply (blocks_path_snoc _ _ _ ei ej).
Qed.

(** [get_opcodes] returns, and its opcodes partition both sequences. *)
Lemma get_opcodes_ok :
  ∃ ops, get_opcodes a b = Some ops ∧
    opcodes_from (length a) (length b) 0 0 ops.
Proof.
  unfold get_opcodes.
  destruct get_matching_blocks_ok as (bs & -> & Hpath). simpl.
  eexists; split; [reflexivity|]. by apply opcodes_loop_ok.
Qed.
End Opcodes.

(** *** A sequence against itself *)
Section Identity.
Context {A : Type} `{EqDecision A}.
Variable a : list A.

Lemma scan_row_diag i j2len js :
  Forall (fun j => j < length a) js →
  ∀ new best,
    i ∈ js ∨ (new !! i = Some (j2lenget j2len i + 1) ∧
              j2lenget j2len i + 1 ≤ best.2) →
    (scan_row i 0 (length a) j2len js new best).1 !! i
      = Some (j2lenget j2len i + 1) ∧
    j2lenget j2len i + 1 ≤ (scan_row i 0 (length a) j2len js new best).2.2.
Proof.
  induction js as [|j js IH]; intros Hjs new best Hcase; simpl.
  - destruct Hcase as [Hin|Hdone]; [by apply elem_of_nil in Hin|done].
  - inversion Hjs as [|? ? Hj Hjs']; subst.
    destruct (decide (j < 0)); [lia|].
    destruct (decide (length a ≤ j)); [lia|].
    apply IH; [done|].
    destruct (decide (j = i)) as [->|Hne].
    + right. rewrite lookup_insert_eq. split; [done|].
      destruct (decide (best.2 < j2lenget j2len i + 1)); simpl; lia.
    + destruct Hcase as [Hin|[Hnew Hbest]].
      * left. apply elem_of_cons in Hin. destruct Hin; [congruence|done].
      * right. rewrite lookup_insert_ne by done. split; [done|].
        destruct (decide (best.2 < j2lenget j2len j + 1)); simpl; lia.
Qed.

Lemma scan_rows_diag n :
  ∀ i0 j2len best best',
    i0 + n ≤ length a →
    j2lenget j2len i0 = i0 → i0 ≤ best.2 →
    scan_rows a a (seq i0 n) 0 (length a) j2len best = Some best' →
    i0 + n ≤ best'.2.
Proof.
  induction n as [|n IH]; intros i0 j2len best best' Hn Hj Hbest; simpl.
  - intros [= <-]. lia.
  - destruct (lookup_lt_is_Some_2 a i0) as [x Hx]; [lia|]. rewrite Hx. simpl.
    pose proof (scan_row_diag i0 j2len (b2j_get a x)) as Hrow.
    destruct (scan_row i0 0 (length a) j2len (b2j_get a x) ∅ best)
      as [new best1] eqn:Hscan.
    intros Hrun. specialize (Hrow ltac:(
      apply Forall_forall; intros j Hjin; unfold b2j_get in Hjin;
      apply list_elem_of_filter in Hjin as [_ Hjin];
      apply elem_of_seq in Hjin; lia) ∅ best).
    rewrite Hscan in Hrow. simpl in Hrow. destruct Hrow as [Hnew Hbest1].
    { left. apply list_elem_of_filter. split; [done|].
      apply elem_of_seq. lia. }
    apply (IH (S i0) new best1 best') in Hrun; [lia|lia| |lia].
    simpl. rewrite Hnew. simpl. lia.
Qed.

Lemma find_longest_match_same :
  find_longest_match a a 0 (length a) 0 (length a) = Some (0, 0, length a).
Proof.
  destruct (find_longest_match_ok a a 0 (length a) 0 (length a))
    as (best0 & [[i j] k] & Hscan & -> & Hin & Hle); try lia.
  rewrite Nat.sub_0_r in Hscan.
  apply scan_rows_diag in Hscan; simpl in *; try lia.
  f_equal. f_equal; [f_equal|]; lia.
Qed.

(** The opcodes of a sequence against itself: one [equal] range, or
    none when the sequence is empty. *)
Lemma get_opcodes_same :
  get_opcodes a a =
  Some (if decide (length a = 0) then []
        else [(tag_equal, 0, length a, 0, length a)]).
Proof.
  unfold get_opcodes, get_matching_blocks.
  replace (2 * length a + 1) with (S (2 * length a)) by lia.
  simpl blocks_loop. rewrite find_longest_match_same. simpl.
  destruct (decide (length a = 0)) as [Hz|Hz]; simpl.
  - rewrite Hz. reflexivity.
  - rewrite !decide_False by lia. rewrite blocks_loop_nil. simpl.
    rewrite decide_False by lia. simpl.
    rewrite !decide_False by lia. reflexivity.
Qed.
End Identity.
End DifflibFacts.

(** ** The diff engine on every input *)

Lemma StronglySorted_lookup_lt {X} (R : relation X) (l : list X) m n x y :
  StronglySorted R l → m < n → l !! m = Some x → l !! n = Some y → R x y.
Proof.
  intros Hs Hmn Hm Hn. rewrite <- (take_drop n l) in Hs.
  apply (StronglySorted_app_1_elem_of R (take n l) (drop n l)); [done| |].
  - apply elem_of_take. eauto.
  - apply list_elem_of_lookup. exists 0. by rewrite lookup_drop, Nat.add_0_r.
Qed.

Lemma NoDup_marks_exclusive (ad de ch bl : list nat) :
  NoDup (ad ++ de ++ ch ++ bl) →
  marks_exclusive {| added := ad; deleted := de; changed := ch; blank := bl |}.
Proof.
  intros Hnd. unfold marks_exclusive. simpl.
  apply NoDup_app in Hnd as (_ & H1 & Hnd).
  apply NoDup_app in Hnd as (_ & H2 & Hnd).
  apply NoDup_app in Hnd as (_ & H3 & _).
  split_and!; intros r Hr Hr'.
  - apply (H1 r Hr). rewrite !elem_of_app. tauto.
  - apply (H1 r Hr). rewrite !elem_of_app. tauto.
  - apply (H1 r Hr). rewrite !elem_of_app. tauto.
  - apply (H2 r Hr). rewrite !elem_of_app. tauto.
  - apply (H2 r Hr). rewrite !elem_of_app. tauto.
  - by apply (H3 r Hr).
Qed.

(** [compute_diff] returns on every pair of inputs, and the state its
    walk ends in satisfies the invariant with both inputs consumed. *)
Lemma compute_diff_walk (left_in right_in : list string) :
  ∃ st,
    compute_diff left_in right_in = Some (to_result st) ∧
    walk_inv left_in right_in (length left_in) (length right_in) st.
Proof.
  unfold compute_diff, compute_diff_with.
  destruct (DifflibFacts.get_opcodes_ok left_in right_in) as (ops & -> & Hops).
  simpl.
  destruct (walk_opcodes_inv left_in right_in ops 0 0 init_locals Hops
    (walk_inv_init left_in right_in)) as (st & -> & Hinv).
  by exists st.
Qed.

(** C5. For every pair of input line sequences, empty ones included,
    [compute_diff] returns a result whose [left_lines] and [right_lines]
    have the same length. *)
Theorem compute_diff_length_invariant (left_in right_in : list string) :
  ∃ res,
    compute_diff left_in right_in = Some res ∧
    length (left_lines res) = length (right_lines res).
Proof.
  destruct (compute_diff_walk left_in right_in)
    as (st & Hrun & ((Hl & _) & (Hr & _) & Hlr) & _).
  exists (to_result st). split; [done|]. simpl. congruence.
Qed.

(** C1. For every pair of input line sequences, deleting from
    [left_lines] the rows whose index is in the left [blank] marks gives
    back the left input, and deleting from [right_lines] the rows in the
    right [blank] marks gives back the right input. *)
Theorem compute_diff_reconstruction (left_in right_in : list string) :
  ∃ res,
    compute_diff left_in right_in = Some res ∧
    remove_rows (blank (left_marks res)) (left_lines res) = left_in ∧
    remove_rows (blank (right_marks res)) (right_lines res) = right_in.
Proof.
  destruct (compute_diff_walk left_in right_in)
    as (st & Hrun & ((_ & Hl & _) & (_ & Hr & _) & _) & _).
  exists (to_result st). split; [done|]. simpl.
  rewrite Hl, Hr. by rewrite !take_ge.
Qed.

(** C2. For every pair of input line sequences, [diff_blocks] is
    strictly increasing in both components: an anchor [(l1, r1)] that
    precedes an anchor [(l2, r2)] has [l1 < l2] and [r1 < r2]. *)
Theorem compute_diff_blocks_increasing (left_in right_in : list string) :
  ∃ res,
    compute_diff left_in right_in = Some res ∧
    ∀ m n l1 r1 l2 r2,
      m < n →
      diff_blocks res !! m = Some (l1, r1) →
      diff_blocks res !! n = Some (l2, r2) →
      l1 < l2 ∧ r1 < r2.
Proof.
  destruct (compute_diff_walk left_in right_in) as (st & Hrun & _ & Hs & _).
  exists (to_result st). split; [done|]. simpl.
  intros m n l1 r1 l2 r2 Hmn Hm Hn.
  apply (StronglySorted_lookup_lt anchor_lt (blocks st) m n (l1, r1) (l2, r2));
    done.
Qed.

(** C10. For every pair of input line sequences, on each side the four
    mark sets [added], [deleted], [changed] and [blank] are pairwise
    disjoint. *)
Theorem compute_diff_marks_exclusive (left_in right_in : list string) :
  ∃ res,
    compute_diff left_in right_in = Some res ∧
    marks_exclusive (left_marks res) ∧ marks_exclusive (right_marks res).
Proof.
  destruct (compute_diff_walk left_in right_in)
    as (st & Hrun & ((_ & _ & _ & Hl) & (_ & _ & _ & Hr) & _) & _).
  exists (to_result st). split; [done|]. simpl.
  split; by apply NoDup_marks_exclusive.
Qed.

(** ** The [equal] branch and identical inputs *)

Lemma equal_loop_exact (left_in right_in : list string) i1 j1 n :
  ∀ k0 st,
    i1 + k0 + n ≤ length left_in → j1 + k0 + n ≤ length right_in →
    for_each (seq k0 n) (equal_body left_in right_in i1 j1) st =
    Some (equal_rows left_in right_in (i1 + k0) (j1 + k0) n st).
Proof.
  induction n as [|n IH]; intros k0 st Hi Hj; simpl.
  - destruct st. unfold equal_rows. simpl.
    by rewrite !app_nil_r, !Nat.add_0_r.
  - destruct (lookup_lt_is_Some_2 left_in (i1 + k0)) as [x Hx]; [lia|].
    destruct (lookup_lt_is_Some_2 right_in (j1 + k0)) as [y Hy]; [lia|].
    assert (Hb : equal_body left_in right_in i1 j1 k0 st =
              Some (equal_rows left_in right_in (i1 + k0) (j1 + k0) 1 st)).
    { unfold equal_body, equal_rows. rewrite Hx, Hy. simpl.
      by rewrite (drop_S _ _ _ Hx), (drop_S _ _ _ Hy). }
    rewrite Hb. simpl. rewrite IH by lia. f_equal. unfold equal_rows. simpl.
    rewrite (drop_S _ _ _ Hx), (drop_S _ _ _ Hy). simpl.
    rewrite <- !(assoc_L (++)). simpl.
    replace (i1 + S k0) with (S (i1 + k0)) by lia.
    replace (j1 + S k0) with (S (j1 + k0)) by lia.
    f_equal; lia.
Qed.

(** The whole result of the engine on two copies of one sequence. *)
Lemma compute_diff_same (lines : list string) :
  compute_diff lines lines =
  Some {| left_lines := lines; right_lines := lines;
          left_marks := {| added := []; deleted := []; changed := []; blank := [] |};
          right_marks := {| added := []; deleted := []; changed := []; blank := [] |};
          diff_blocks := []; changed_pairs := [] |}.
Proof.
  unfold compute_diff. rewrite DifflibFacts.get_opcodes_same. simpl.
  destruct (decide (length lines = 0)) as [Hz|Hz].
  - apply length_zero_iff_nil in Hz. by subst lines.
  - unfold compute_diff_with. simpl. unfold for_range.
    rewrite Nat.sub_0_r.
    rewrite (equal_loop_exact lines lines 0 0 (length lines) 0 init_locals)
      by (simpl; lia).
    simpl. unfold to_result. simpl. by rewrite !take_ge.
Qed.

(** C8. For every line sequence [X], the engine on [(X, X)] returns a
    result with no [diff_blocks], no [changed_pairs], and
    [left_lines = right_lines = X]. *)
Theorem compute_diff_identity (lines : list string) :
  ∃ res,
    compute_diff lines lines = Some res ∧
    diff_blocks res = [] ∧ changed_pairs res = [] ∧
    left_lines res = lines ∧ right_lines res = lines.
Proof. rewrite compute_diff_same. eexists. split; [reflexivity|]. done. Qed.

(** ** The [replace] branch *)

Lemma replace_rows_0 (left_in right_in : list string) i1 j1 st :
  replace_rows left_in right_in i1 j1 0 0 st = record_block st.
Proof.
  destruct st. unfold replace_rows, record_block. simpl.
  by rewrite !app_nil_r, !Nat.add_0_r.
Qed.

Lemma take_drop_snoc (src : list string) i1 k x :
  src !! (i1 + k) = Some x →
  take (k + 1) (drop i1 src) = take k (drop i1 src) ++ [x].
Proof.
  intros Hx. rewrite Nat.add_1_r. apply take_S_r. by rewrite lookup_drop.
Qed.

Lemma changed_pairs_snoc (left_in right_in : list string) i1 j1 k l r x y :
  left_in !! (i1 + k) = Some x → right_in !! (j1 + k) = Some y →
  imap (fun k p => (l + k, r + k, p.1, p.2))
    (zip (take (k + 1) (drop i1 left_in)) (take (k + 1) (drop j1 right_in))) =
  imap (fun k (p : string * string) => (l + k, r + k, p.1, p.2))
    (zip (take k (drop i1 left_in)) (take k (drop j1 right_in)))
  ++ [(l + k, r + k, x, y)].
Proof.
  intros Hx Hy.
  assert (Hlx : length (take k (drop i1 left_in)) = k).
  { apply length_take_le. rewrite length_drop.
    apply lookup_lt_Some in Hx. lia. }
  assert (Hly : length (take k (drop j1 right_in)) = k).
  { apply length_take_le. rewrite length_drop.
    apply lookup_lt_Some in Hy. lia. }
  rewrite (take_drop_snoc _ _ _ _ Hx), (take_drop_snoc _ _ _ _ Hy).
  rewrite (zip_with_app pair (take k (drop i1 left_in)) [x]
             (take k (drop j1 right_in)) [y]) by congruence.
  rewrite imap_app. simpl. rewrite length_zip_with, Hlx, Hly.
  by rewrite Nat.min_id, Nat.add_0_r.
Qed.

Section ReplaceLoop.
Variables left_in right_in : list string.
Variables i1 j1 lcount rcount : nat.
Hypothesis Hleft : i1 + lcount ≤ length left_in.
Hypothesis Hright : j1 + rcount ≤ length right_in.

(** One iteration takes the rows written for the first [k] steps to
    the rows written for the first [k + 1]. *)
Lemma replace_body_exact st k :
  k < lcount `max` rcount →
  replace_body left_in right_in i1 j1 lcount rcount k
    (replace_rows left_in right_in i1 j1 (k `min` lcount) (k `min` rcount) st) =
  Some (replace_rows left_in right_in i1 j1
          ((k + 1) `min` lcount) ((k + 1) `min` rcount) st).
Proof.
  intros Hk. unfold replace_body.
  destruct (decide (k < lcount)) as [Hkl|Hkl];
    destruct (decide (k < rcount)) as [Hkr|Hkr]; try lia.
  - destruct (lookup_lt_is_Some_2 left_in (i1 + k)) as [x Hx]; [lia|].
    destruct (lookup_lt_is_Some_2 right_in (j1 + k)) as [y Hy]; [lia|].
    rewrite Hx, Hy. simpl. rewrite decide_True by done.
    replace (k `min` lcount) with k by lia.
    replace (k `min` rcount) with k by lia.
    replace ((k + 1) `min` lcount) with (k + 1) by lia.
    replace ((k + 1) `min` rcount) with (k + 1) by lia.
    unfold replace_rows. simpl.
    rewrite !Nat.min_id, !Nat.max_id, !Nat.sub_diag. simpl.
    rewrite !app_nil_r.
    rewrite (changed_pairs_snoc _ _ _ _ _ _ _ _ _ Hx Hy).
    rewrite (take_drop_snoc _ _ _ _ Hx), (take_drop_snoc _ _ _ _ Hy).
    rewrite !(Nat.add_1_r k), !seq_S.
    rewrite !(assoc_L (++)). f_equal. f_equal; lia.
  - destruct (lookup_lt_is_Some_2 left_in (i1 + k)) as [x Hx]; [lia|].
    rewrite Hx. simpl. rewrite decide_False by tauto.
    replace (k `min` lcount) with k by lia.
    replace (k `min` rcount) with rcount by lia.
    replace ((k + 1) `min` lcount) with (k + 1) by lia.
    replace ((k + 1) `min` rcount) with rcount by lia.
    unfold replace_rows. simpl.
    replace (k `min` rcount) with rcount by lia.
    replace ((k + 1) `min` rcount) with rcount by lia.
    replace (k `max` rcount) with k by lia.
    replace ((k + 1) `max` rcount) with (k + 1) by lia.
    rewrite !Nat.sub_diag. simpl. rewrite !app_nil_r.
    rewrite (take_drop_snoc _ _ _ _ Hx).
    replace (k + 1 - rcount) with (S (k - rcount)) by lia.
    rewrite replicate_S_end, !seq_S.
    rewrite !(assoc_L (++)). f_equal.
    f_equal; first [lia | f_equal; f_equal; lia].
  - destruct (lookup_lt_is_Some_2 right_in (j1 + k)) as [y Hy]; [lia|].
    rewrite Hy. simpl. rewrite decide_False by tauto.
    replace (k `min` lcount) with lcount by lia.
    replace (k `min` rcount) with k by lia.
    replace ((k + 1) `min` lcount) with lcount by lia.
    replace ((k + 1) `min` rcount) with (k + 1) by lia.
    unfold replace_rows. simpl.
    replace (lcount `min` k) with lcount by lia.
    replace (lcount `min` (k + 1)) with lcount by lia.
    replace (lcount `max` k) with k by lia.
    replace (lcount `max` (k + 1)) with (k + 1) by lia.
    rewrite !Nat.sub_diag. simpl. rewrite !app_nil_r.
    rewrite (take_drop_snoc _ _ _ _ Hy).
    replace (k + 1 - lcount) with (S (k - lcount)) by lia.
    rewrite replicate_S_end, !seq_S.
    rewrite !(assoc_L (++)). f_equal.
    f_equal; first [lia | f_equal; f_equal; lia].
Qed.

(** The whole branch: the anchor, then the loop. *)
Lemma replace_loop_exact st :
  for_range (lcount `max` rcount)
    (replace_body left_in right_in i1 j1 lcount rcount) (record_block st) =
  Some (replace_rows left_in right_in i1 j1 lcount rcount st).
Proof.
  destruct (for_range_inv
    (fun k s => s = replace_rows left_in right_in i1 j1
                      (k `min` lcount) (k `min` rcount) st)
    (replace_body left_in right_in i1 j1 lcount rcount)
    (lcount `max` rcount) (record_block st)) as (s & -> & ->).
  - simpl. by rewrite replace_rows_0.
  - intros k s Hk ->. eexists. split; [by apply replace_body_exact|done].
  - f_equal. f_equal; lia.
Qed.
End ReplaceLoop.

Lemma replace_rows_length (left_in right_in : list string) i1 j1 lcount rcount st :
  i1 + lcount ≤ length left_in → j1 + rcount ≤ length right_in →
  length (l_out (replace_rows left_in right_in i1 j1 lcount rcount st)) =
    length (l_out st) + lcount `max` rcount ∧
  length (r_out (replace_rows left_in right_in i1 j1 lcount rcount st)) =
    length (r_out st) + lcount `max` rcount.
Proof.
  intros Hl Hr. unfold replace_rows. simpl.
  rewrite !length_app, !length_replicate, !length_take, !length_drop. lia.
Qed.

(** C4. A [replace] opcode over the ranges [[i1, i2)] and [[j1, j2)]
    leaves exactly the state [replace_rows] describes: one anchor at the
    cursors held before the loop and [max lcount rcount] more rows on
    each side, the first [min lcount rcount] of them changed pairs with
    real text on both sides, the others deleted text facing blank filler
    or blank filler facing added text.  On [["a";"b";"c"]] against
    [["a";"x";"c"]] the engine returns one block at row 1, the inputs as
    lines, [changed = [1]] on both sides and the pair
    [(1, 1, "b", "x")]. *)
Theorem replace_opcode_rows (left_in right_in : list string) i1 i2 j1 j2 st :
  i1 ≤ i2 ≤ length left_in → j1 ≤ j2 ≤ length right_in →
  walk_opcode left_in right_in (tag_replace, i1, i2, j1, j2) st =
    Some (replace_rows left_in right_in i1 j1 (i2 - i1) (j2 - j1) st) ∧
  length (l_out (replace_rows left_in right_in i1 j1 (i2 - i1) (j2 - j1) st)) =
    length (l_out st) + (i2 - i1) `max` (j2 - j1) ∧
  length (r_out (replace_rows left_in right_in i1 j1 (i2 - i1) (j2 - j1) st)) =
    length (r_out st) + (i2 - i1) `max` (j2 - j1) ∧
  compute_diff ex_a ex_b =
    Some {| left_lines := ["a"; "b"; "c"]; right_lines := ["a"; "x"; "c"];
            left_marks := {| added := []; deleted := []; changed := [1];
                             blank := [] |};
            right_marks := {| added := []; deleted := []; changed := [1];
                              blank := [] |};
            diff_blocks := [(1, 1)];
            changed_pairs := [(1, 1, "b", "x")] |}.
Proof.
  intros [Hi Hi'] [Hj Hj'].
  split; [|split; [|split]].
  - simpl. apply replace_loop_exact; lia.
  - apply replace_rows_length; lia.
  - apply replace_rows_length; lia.
  - vm_compute. reflexivity.
Qed.

Lemma replace_opcode_rows_witness :
  (1 ≤ 2 ≤ length ex_a ∧ 1 ≤ 2 ≤ length ex_b) ∧
  walk_opcode ex_a ex_b (tag_replace, 1, 2, 1, 2)
    (equal_rows ex_a ex_b 0 0 1 init_locals) =
  Some (replace_rows ex_a ex_b 1 1 (2 - 1) (2 - 1)
          (equal_rows ex_a ex_b 0 0 1 init_locals)).
Proof.
  split; [simpl; lia|].
  apply (replace_opcode_rows ex_a ex_b 1 2 1 2
           (equal_rows ex_a ex_b 0 0 1 init_locals)); simpl; lia.
Defined.

(** ** Navigation *)

Lemma set_block_index_same s :
  set_block_index (block_index s) s = (s, Ok tt).
Proof. by destruct s. Qed.

Lemma py_index_in_range {X} (l : list X) (i : Z) :
  (0 ≤ i < Z.of_nat (length l))%Z → ∃ x, py_index l i = Some x.
Proof.
  intros Hi. unfold py_index. rewrite decide_True by lia.
  apply lookup_lt_is_Some_2. lia.
Qed.

(** A step of the cursor, forwards or backwards, on a non-empty list of
    blocks: the index is reduced into range and the block there is
    returned. *)
Lemma move_block s (i : Z) :
  diff_blocks (diff s) ≠ [] →
  ∃ b,
    py_index (diff_blocks (diff s))
      (i `mod` Z.of_nat (length (diff_blocks (diff s)))) = Some b ∧
    (set_block_index (i `mod` Z.of_nat (length (diff_blocks (diff s))));;
     current_block) s =
    ((set_block_index (i `mod` Z.of_nat (length (diff_blocks (diff s)))) s).1,
     Ok (Some b)).
Proof.
  intros Hne.
  assert (Hk : (0 < Z.of_nat (length (diff_blocks (diff s))))%Z).
  { destruct (diff_blocks (diff s)); [done|simpl; lia]. }
  destruct (py_index_in_range (diff_blocks (diff s))
    (i `mod` Z.of_nat (length (diff_blocks (diff s))))) as [b Hb].
  { by apply Z.mod_pos_bound. }
  exists b. split; [done|].
  unfold py_bind, set_block_index, current_block. simpl.
  rewrite decide_False by done. by rewrite Hb.
Qed.

Lemma next_block_times_index n :
  ∀ s,
    diff_blocks (diff s) ≠ [] →
    (0 ≤ block_index s < Z.of_nat (length (diff_blocks (diff s))))%Z →
    next_block_times n s =
    ((set_block_index
        ((block_index s + Z.of_nat n)
           `mod` Z.of_nat (length (diff_blocks (diff s)))) s).1, Ok tt).
Proof.
  induction n as [|n IH]; intros s Hne Hi.
  - change (Z.of_nat 0) with 0%Z. rewrite Z.add_0_r, Z.mod_small by done.
    by rewrite set_block_index_same.
  - simpl. unfold py_bind at 1. unfold next_block.
    rewrite decide_False by done.
    destruct (move_block s (block_index s + 1) Hne) as (b & _ & ->).
    rewrite IH; simpl; [|done|by apply Z.mod_pos_bound; lia].
    rewrite Zplus_mod_idemp_l.
    by replace (block_index s + 1 + Z.of_nat n)%Z
      with (block_index s + Z.of_nat (S n))%Z by lia.
Qed.

(** C6. With [k > 0] blocks and the cursor on any of them, the [k]-th
    call of [next_block] in a row returns the block the cursor started
    on and leaves the session as it was; [prev_block] with the cursor on
    block 0 moves it to block [k - 1]; with no blocks both calls return
    [None] and leave the session unchanged. *)
Theorem navigation_wraparound (s : CompareSession) :
  (diff_blocks (diff s) ≠ [] →
   (0 ≤ block_index s < Z.of_nat (length (diff_blocks (diff s))))%Z →
   ∃ b,
     py_index (diff_blocks (diff s)) (block_index s) = Some b ∧
     (next_block_times (length (diff_blocks (diff s)) - 1);; next_block) s =
     (s, Ok (Some b))) ∧
  (diff_blocks (diff s) ≠ [] → block_index s = 0%Z →
   ∃ s' b,
     prev_block s = (s', Ok (Some b)) ∧
     block_index s' = (Z.of_nat (length (diff_blocks (diff s))) - 1)%Z ∧
     diff_blocks (diff s) !! (length (diff_blocks (diff s)) - 1) = Some b) ∧
  (diff_blocks (diff s) = [] →
   next_block s = (s, Ok None) ∧ prev_block s = (s, Ok None)).
Proof.
  split_and!.
  - intros Hne Hi.
    set (k := length (diff_blocks (diff s))) in *.
    assert (Hk : 0 < k).
    { unfold k. destruct (diff_blocks (diff s)); [done|simpl; lia]. }
    destruct (py_index_in_range _ _ Hi) as [b Hb]. exists b. split; [done|].
    unfold py_bind. rewrite next_block_times_index by done. fold k.
    remember (set_block_index
      ((block_index s + Z.of_nat (k - 1)) `mod` Z.of_nat k) s).1 as s1 eqn:Hs1.
    assert (Hdiff : diff s1 = diff s) by (by subst s1).
    assert (Hidx : block_index s1 =
              ((block_index s + Z.of_nat (k - 1)) `mod` Z.of_nat k)%Z)
      by (by subst s1).
    assert (Hne1 : diff_blocks (diff s1) ≠ []) by (by rewrite Hdiff).
    unfold next_block. rewrite decide_False by done.
    destruct (move_block s1 (block_index s1 + 1) Hne1) as (b' & Hb' & ->).
    rewrite Hdiff, Hidx in *. fold k in Hb' |- *.
    assert (Hback : (((block_index s + Z.of_nat (k - 1)) `mod` Z.of_nat k + 1)
                      `mod` Z.of_nat k = block_index s)%Z).
    { rewrite Zplus_mod_idemp_l.
      replace (block_index s + Z.of_nat (k - 1) + 1)%Z
        with (block_index s + 1 * Z.of_nat k)%Z by lia.
      rewrite Z.mod_add by lia. by apply Z.mod_small. }
    rewrite Hback in Hb' |- *. rewrite Hb in Hb'. injection Hb' as <-.
    subst s1. by destruct s.
  - intros Hne Hz.
    destruct (move_block s (block_index s - 1) Hne) as (b & Hb & Hrun).
    set (k := length (diff_blocks (diff s))) in *.
    assert (Hk : 0 < k).
    { unfold k. destruct (diff_blocks (diff s)); [done|simpl; lia]. }
    assert (Hlast : ((block_index s - 1) `mod` Z.of_nat k = Z.of_nat k - 1)%Z).
    { rewrite Hz. replace (0 - 1)%Z with (Z.of_nat k - 1 + -1 * Z.of_nat k)%Z by lia.
      rewrite Z.mod_add by lia. apply Z.mod_small. lia. }
    eexists _, b. unfold prev_block. rewrite decide_False by done. fold k.
    split; [exact Hrun|]. simpl. split; [done|].
    rewrite Hlast in Hb. unfold py_index in Hb. rewrite decide_True in Hb by lia.
    by replace (Z.to_nat (Z.of_nat k - 1)) with (k - 1) in Hb by lia.
  - intros Hnil. unfold next_block, prev_block. by rewrite !decide_True.
Qed.

Lemma navigation_wraparound_witness :
  (diff_blocks (diff ex_session3) ≠ [] ∧
   (0 ≤ block_index ex_session3 < 3)%Z) ∧
  ∃ b,
    py_index ex_blocks 1%Z = Some b ∧
    (next_block_times 2;; next_block) ex_session3 = (ex_session3, Ok (Some b)).
Proof.
  split; [split; [done|simpl; lia]|].
  apply (proj1 (navigation_wraparound ex_session3)); [done|simpl; lia].
Defined.

(** ** The registry *)

Lemma dict_get_remove_eq {K V} `{EqDecision K} (d : list (K * V)) k :
  dict_get (dict_remove d k) k = None.
Proof.
  induction d as [|[k' v] d IH]; [done|]. unfold dict_remove in *.
  rewrite filter_cons. simpl. destruct (decide (k' ≠ k)) as [Hne|Heq]; [|done].
  simpl. by rewrite decide_False.
Qed.

Lemma dict_get_remove_ne {K V} `{EqDecision K} (d : list (K * V)) k k' :
  k ≠ k' → dict_get (dict_remove d k) k' = dict_get d k'.
Proof.
  intros Hne. induction d as [|[k0 v] d IH]; [done|]. unfold dict_remove in *.
  rewrite filter_cons. simpl. destruct (decide (k0 ≠ k)) as [Hne0|Heq]; simpl.
  - by rewrite IH.
  - assert (k0 = k) as -> by (by destruct (decide (k0 = k))).
    by rewrite decide_False.
Qed.

Lemma dict_get_remove_None {K V} `{EqDecision K} (d : list (K * V)) k k' :
  dict_get d k' = None → dict_get (dict_remove d k) k' = None.
Proof.
  intros Hnone. destruct (decide (k = k')) as [->|Hne].
  - apply dict_get_remove_eq.
  - by rewrite dict_get_remove_ne.
Qed.

Lemma dict_remove_absent {K V} `{EqDecision K} (d : list (K * V)) k :
  dict_get d k = None → dict_remove d k = d.
Proof.
  induction d as [|[k' v] d IH]; [done|]. unfold dict_remove in *. simpl.
  destruct (decide (k' = k)) as [->|Hne]; [done|]. intros Hnone.
  rewrite filter_cons. simpl. rewrite decide_True by done. by rewrite IH.
Qed.

Lemma set_sessions_remove_absent g k :
  dict_get (_sessions g) k = None →
  set_sessions (fun d => dict_remove d k) g = g.
Proof.
  intros Hnone. destruct g. unfold set_sessions. simpl in *.
  by rewrite dict_remove_absent.
Qed.

Arguments dict_remove : simpl never.

Section CloseProofs.
Variable H : Type.
Variable view_set_read_only : ViewId → bool → Py H unit.
Variable view_set_scratch : ViewId → bool → Py H unit.
Variable view_close : ViewId → Py H unit.

(** The teardown of the two displays returns whatever the view methods
    do, and leaves the globals alone. *)
Lemma close_views_returns (views : list ViewId) g h :
  ∃ h',
    py_for views
      (fun v => try_pass (on_host (view_set_read_only v false;;
                                  view_set_scratch v true;;
                                  view_close v))) (g, h) =
    ((g, h'), Ok tt).
Proof.
  revert h. induction views as [|v views IH]; intros h; simpl.
  - by exists h.
  - unfold py_bind at 1. unfold try_pass, on_host. simpl.
    destruct ((view_set_read_only v false;; view_set_scratch v true;;
               view_close v) h) as [h1 [[]|]]; apply IH.
Qed.

Lemma close_absent k cv g h :
  dict_get (_sessions g) k = None →
  _close_session H view_set_read_only view_set_scratch view_close k cv (g, h) =
  ((g, h), Ok tt).
Proof.
  intros Hnone. unfold _close_session, pop_session, py_bind, get_globals,
    modify_globals, py_ret. simpl.
  rewrite Hnone. by rewrite set_sessions_remove_absent.
Qed.

Lemma close_present k cv g h r :
  dict_get (_sessions g) k = Some r →
  ∃ h',
    _close_session H view_set_read_only view_set_scratch view_close k cv (g, h) =
    ((set_sessions
        (fun d => dict_remove
           (dict_remove (dict_remove d k) (source_window (objects g r)))
           (window (objects g r))) g, h'), Ok tt).
Proof.
  intros Hsome. unfold _close_session, pop_session.
  unfold py_bind at 1 2 3. unfold get_globals at 1, modify_globals at 1, py_ret at 1.
  simpl. rewrite Hsome.
  unfold py_bind, get_globals, modify_globals, py_ret. simpl.
  destruct cv.
  - destruct (close_views_returns
      [left_display (objects g r); right_display (objects g r)]
      (set_sessions
        (fun d => dict_remove
           (dict_remove (dict_remove d k) (source_window (objects g r)))
           (window (objects g r))) g) h) as [h' Hviews].
    exists h'. exact Hviews.
  - by exists h.
Qed.

(** C7. Closing by either key of a registered session returns without
    raising, whatever the view methods do, and leaves neither key in the
    registry; a registry in which every session sits under its two keys
    stays so; a second close by either key changes nothing. *)
Theorem close_session_removes_both_keys k g h r :
  dict_get (_sessions g) k = Some r →
  k = source_window (objects g r) ∨ k = window (objects g r) →
  ∃ g' h',
    _close_session H view_set_read_only view_set_scratch view_close k true
      (g, h) = ((g', h'), Ok tt) ∧
    dict_get (_sessions g') (source_window (objects g r)) = None ∧
    dict_get (_sessions g') (window (objects g r)) = None ∧
    (registry_paired g → registry_paired g') ∧
    (∀ k' h'',
       k' = source_window (objects g r) ∨ k' = window (objects g r) →
       _close_session H view_set_read_only view_set_scratch view_close k' true
         (g', h'') = ((g', h''), Ok tt)).
Proof.
  intros Hsome Hkey.
  destruct (close_present k true g h r Hsome) as [h' Hrun].
  set (src := source_window (objects g r)) in *.
  set (win := window (objects g r)) in *.
  set (g' := set_sessions
    (fun d => dict_remove (dict_remove (dict_remove d k) src) win) g) in *.
  assert (Hsrc : dict_get (_sessions g') src = None).
  { simpl. apply dict_get_remove_None, dict_get_remove_eq. }
  assert (Hwin : dict_get (_sessions g') win = None).
  { simpl. apply dict_get_remove_eq. }
  exists g', h'. split_and!; try done.
  - intros Hpaired k0 r0 Hk0. simpl in Hk0.
    assert (Hk0win : k0 ≠ win).
    { intros ->. by rewrite dict_get_remove_eq in Hk0. }
    rewrite dict_get_remove_ne in Hk0 by done.
    assert (Hk0src : k0 ≠ src).
    { intros ->. by rewrite dict_get_remove_eq in Hk0. }
    rewrite dict_get_remove_ne in Hk0 by done.
    assert (Hk0k : k0 ≠ k).
    { intros ->. by rewrite dict_get_remove_eq in Hk0. }
    rewrite dict_get_remove_ne in Hk0 by done.
    destruct (Hpaired k0 r0 Hk0) as (Hkeys & Hs0 & Hw0).
    destruct (Hpaired k r Hsome) as (_ & Hs & Hw). fold src in Hs. fold win in Hw.
    assert (Hr : r0 ≠ r).
    { intros ->. fold src win in Hkeys. by destruct Hkeys. }
    assert (Hfresh : ∀ k1, dict_get (_sessions g) k1 = Some r0 →
              dict_get (_sessions g') k1 = Some r0).
    { intros k1 Hk1. simpl.
      rewrite !dict_get_remove_ne; [done| | |]; intros ->; congruence. }
    simpl. split_and!; [done|by apply Hfresh|by apply Hfresh].
  - intros k' h'' [->| ->]; by apply close_absent.
Qed.
End CloseProofs.

Lemma close_session_removes_both_keys_witness :
  (dict_get (_sessions ex_globals) 2%Z = Some 0 ∧
   (2%Z = source_window (objects ex_globals 0) ∨
    2%Z = window (objects ex_globals 0))) ∧
  ∃ g' h',
    _close_session Host view_flag view_flag view_close_host 2%Z true
      (ex_globals, ex_host_gone) = ((g', h'), Ok tt) ∧
    dict_get (_sessions g') 1%Z = None ∧ dict_get (_sessions g') 2%Z = None.
Proof.
  split; [split; [reflexivity|by right]|].
  destruct (close_session_removes_both_keys Host view_flag view_flag
    view_close_host 2%Z ex_globals ex_host_gone 0 eq_refl (or_intror eq_refl))
    as (g' & h' & Hrun & Hsrc & Hwin & _).
  exists g', h'. split_and!; done.
Defined.

(** ** Synchronised scrolling *)

Lemma moved_same p : moved (Some p) p = false.
Proof.
  unfold moved. rewrite !bool_decide_eq_false_2; [done| |]; by intros [].
Qed.

Lemma lookup_insert_twice (m : gmap ViewId Pos) a b p :
  <[a := p]> (<[b := p]> m) !! b = Some p.
Proof.
  destruct (decide (a = b)) as [->|Hne].
  - apply lookup_insert_eq.
  - by rewrite lookup_insert_ne, lookup_insert_eq.
Qed.

Ltac run_py :=
  unfold tick_session, guarded_write, try_finally, attempt, py_bind, on_host,
    get_globals, modify_globals, py_ret, viewport_position,
    set_viewport_position; cbn.

(** One visit of a session whose displays both stand at [p]: nothing
    moves, both last-known positions become [p], and a write, if any,
    re-applies [p] to one of the two displays. *)
Lemma tick_session_synced r g h p :
  viewport h !! left_display (objects g r) = Some p →
  viewport h !! right_display (objects g r) = Some p →
  ∃ g' h',
    tick_session r (g, h) = ((g', h'), Ok tt) ∧
    _sessions g' = _sessions g ∧ objects g' = objects g ∧
    viewport h' = viewport h ∧
    _last_vp g' !! left_display (objects g r) = Some p ∧
    _last_vp g' !! right_display (objects g r) = Some p ∧
    (∀ v, v ≠ left_display (objects g r) → v ≠ right_display (objects g r) →
          _last_vp g' !! v = _last_vp g !! v) ∧
    ∃ extra,
      set_calls h' = set_calls h ++ extra ∧
      Forall (fun c => (c.1 = left_display (objects g r) ∨
                        c.1 = right_display (objects g r)) ∧ c.2 = p) extra ∧
      (_last_vp g !! left_display (objects g r) = Some p →
       _last_vp g !! right_display (objects g r) = Some p → extra = []).
Proof.
  intros Hl Hr.
  set (lv := left_display (objects g r)) in *.
  set (rv := right_display (objects g r)) in *.
  run_py. fold lv rv. rewrite Hl. cbn. rewrite Hr. cbn.
  destruct (moved (_last_vp g !! lv) p && bool_decide (lv ∉ _syncing g))
    eqn:Hlm; cbn.
  - rewrite Hr. cbn. rewrite insert_id by done. rewrite Hl. cbn. rewrite Hr. cbn.
    eexists _, _. split; [reflexivity|]. cbn.
    split_and!; try done.
    + apply lookup_insert_twice.
    + by rewrite lookup_insert_eq.
    + intros v Hvl Hvr. by rewrite !lookup_insert_ne.
    + exists [(rv, p)]. split_and!; [done|by repeat constructor; auto|].
      intros Hpl _. rewrite Hpl, moved_same in Hlm. done.
  - destruct (moved (_last_vp g !! rv) p && bool_decide (rv ∉ _syncing g))
      eqn:Hrm; cbn.
    + rewrite Hl. cbn. rewrite insert_id by done. rewrite Hl. cbn. rewrite Hr. cbn.
      eexists _, _. split; [reflexivity|]. cbn.
      split_and!; try done.
      * apply lookup_insert_twice.
      * by rewrite lookup_insert_eq.
      * intros v Hvl Hvr. by rewrite !lookup_insert_ne.
      * exists [(lv, p)]. split_and!; [done|by repeat constructor; auto|].
        intros _ Hpr. rewrite Hpr, moved_same in Hrm. done.
    + rewrite Hl. cbn. rewrite Hr. cbn.
      eexists _, _. split; [reflexivity|]. cbn.
      split_and!; try done.
      * apply lookup_insert_twice.
      * by rewrite lookup_insert_eq.
      * intros v Hvl Hvr. by rewrite !lookup_insert_ne.
      * exists []. by rewrite app_nil_r.
Qed.

(** One visit of any session returns and touches nothing but the
    positions and the last-known positions of its own two displays. *)
Lemma tick_session_frame r g h :
  ∃ g' h',
    tick_session r (g, h) = ((g', h'), Ok tt) ∧
    _sessions g' = _sessions g ∧ objects g' = objects g ∧
    (∀ v, v ≠ left_display (objects g r) → v ≠ right_display (objects g r) →
          viewport h' !! v = viewport h !! v ∧
          _last_vp g' !! v = _last_vp g !! v) ∧
    ∃ extra,
      set_calls h' = set_calls h ++ extra ∧
      Forall (fun c => c.1 = left_display (objects g r) ∨
                       c.1 = right_display (objects g r)) extra.
Proof.
  set (lv := left_display (objects g r)) in *.
  set (rv := right_display (objects g r)) in *.
  run_py. fold lv rv.
  destruct (viewport h !! lv) as [lp|] eqn:Hl; cbn.
  2:{ exists g, h. split_and!; try done. exists []. by rewrite app_nil_r. }
  destruct (viewport h !! rv) as [rp|] eqn:Hr; cbn.
  2:{ exists g, h. split_and!; try done. exists []. by rewrite app_nil_r. }
  destruct (moved (_last_vp g !! lv) lp && bool_decide (lv ∉ _syncing g)); cbn.
  - rewrite Hr. cbn. rewrite lookup_insert. case_decide; cbn;
      rewrite ?Hl; cbn; rewrite lookup_insert_eq; cbn;
      (eexists _, _; split; [reflexivity|]; cbn; split_and!; try done;
       [ intros v Hvl Hvr; by rewrite !lookup_insert_ne
       | exists [(rv, lp)]; split; [done|]; repeat constructor; by right ]).
  - destruct (moved (_last_vp g !! rv) rp && bool_decide (rv ∉ _syncing g)); cbn.
    + rewrite Hl. cbn. rewrite lookup_insert_eq. cbn.
      rewrite lookup_insert. case_decide; cbn; rewrite ?Hr; cbn;
      (eexists _, _; split; [reflexivity|]; cbn; split_and!; try done;
       [ intros v Hvl Hvr; by rewrite !lookup_insert_ne
       | exists [(lv, rp)]; split; [done|]; repeat constructor; by left ]).
    + rewrite Hl. cbn. rewrite Hr. cbn.
      eexists _, _; split; [reflexivity|]; cbn; split_and!; try done.
      * intros v Hvl Hvr. by rewrite !lookup_insert_ne.
      * exists []. by rewrite app_nil_r.
Qed.

(** The visits of a tick, with the displays [lv] and [rv] of session [r]
    both at [p].  [known] says the last-known positions are already [p]
    when the visits start. *)
Lemma tick_loop_keeps g0 calls r p (ok : ViewId * Pos → Prop) (known : Prop) rs :
  (∀ c, c.1 ≠ left_display (objects g0 r) →
        c.1 ≠ right_display (objects g0 r) → ok c) →
  (known ∨ ∀ v, v = left_display (objects g0 r) ∨
                v = right_display (objects g0 r) → ok (v, p)) →
  Forall (fun r' =>
    r' = r ∨
    (left_display (objects g0 r') ≠ left_display (objects g0 r) ∧
     left_display (objects g0 r') ≠ right_display (objects g0 r) ∧
     right_display (objects g0 r') ≠ left_display (objects g0 r) ∧
     right_display (objects g0 r') ≠ right_display (objects g0 r))) rs →
  ∀ (seen : Prop) g h,
    tick_keeps g0 calls (left_display (objects g0 r))
      (right_display (objects g0 r)) p ok (g, h) →
    (known ∨ seen →
     _last_vp g !! left_display (objects g0 r) = Some p ∧
     _last_vp g !! right_display (objects g0 r) = Some p) →
    ∃ g' h',
      py_for rs tick_session (g, h) = ((g', h'), Ok tt) ∧
      tick_keeps g0 calls (left_display (objects g0 r))
        (right_display (objects g0 r)) p ok (g', h') ∧
      (known ∨ seen ∨ r ∈ rs →
       _last_vp g' !! left_display (objects g0 r) = Some p ∧
       _last_vp g' !! right_display (objects g0 r) = Some p).
Proof.
  set (lv := left_display (objects g0 r)).
  set (rv := right_display (objects g0 r)).
  intros Hother Hself. induction 1 as [|r' rs Hr' Hrs IH];
    intros seen g h Hkeep Hlast.
  - exists g, h. split_and!; [done|done|].
    intros [?|[?|Hin]]; [tauto|tauto|by apply elem_of_nil in Hin].
  - destruct Hkeep as (Hs & Ho & Hl & Hr & extra & Hcalls & Hextra).
    cbn in Hs, Ho, Hl, Hr, Hcalls.
    simpl. unfold py_bind at 1.
    destruct Hr' as [->|(Hll & Hlr & Hrl & Hrr)].
    + destruct (tick_session_synced r g h p) as
        (g1 & h1 & -> & Hs1 & Ho1 & Hv1 & Hl1 & Hr1 & _ & extra1 & Hc1 & He1 & Hq1);
        rewrite ?Ho; try done.
      rewrite Ho in Hl1, Hr1, He1, Hq1. fold lv rv in Hl1, Hr1, He1, Hq1.
      destruct (IH True g1 h1) as (g' & h' & Hrun & Hkeep' & Hlast').
      * split_and!; cbn; [congruence|congruence|by rewrite Hv1|by rewrite Hv1|].
        exists (extra ++ extra1). split; [by rewrite Hc1, Hcalls, (assoc_L (++))|].
        apply Forall_app. split; [done|].
        destruct Hself as [Hk|Hany].
        -- destruct (Hlast (or_introl Hk)) as [Hpl Hpr].
           rewrite (Hq1 Hpl Hpr). constructor.
        -- eapply Forall_impl; [exact He1|]. intros [v q] [Hv Hq].
           simpl in Hv, Hq. subst q. by apply Hany.
      * done.
      * exists g', h'. split_and!; [done|done|]. intros _. apply Hlast'. tauto.
    + fold lv rv in Hll, Hlr, Hrl, Hrr.
      destruct (tick_session_frame r' g h) as
        (g1 & h1 & -> & Hs1 & Ho1 & Hframe & extra1 & Hc1 & He1).
      rewrite Ho in Hframe, He1.
      destruct (Hframe lv) as [Hvl Hpl]; [done|done|].
      destruct (Hframe rv) as [Hvr Hpr]; [done|done|].
      destruct (IH seen g1 h1) as (g' & h' & Hrun & Hkeep' & Hlast').
      * split_and!; cbn; [congruence|congruence|congruence|congruence|].
        exists (extra ++ extra1). split; [by rewrite Hc1, Hcalls, (assoc_L (++))|].
        apply Forall_app. split; [done|].
        eapply Forall_impl; [exact He1|]. intros c [Hc|Hc]; apply Hother;
          rewrite Hc; done.
      * rewrite Hpl, Hpr. done.
      * exists g', h'. split_and!; [done|done|].
        intros [Hk|[Hseen|Hin]]; apply Hlast'; [tauto|tauto|].
        apply elem_of_cons in Hin as [->|Hin]; [|tauto].
        exfalso. by apply Hll.
Qed.

Lemma dict_get_values {K V} `{EqDecision K} (d : list (K * V)) k v :
  dict_get d k = Some v → v ∈ dict_values d.
Proof.
  unfold dict_values. induction d as [|[k' v'] d IH]; simpl; [done|].
  destruct (decide (k' = k)).
  - intros [= ->]. apply list_elem_of_here.
  - intros Hget. apply list_elem_of_further. by apply IH.
Qed.

(** A whole tick on a state in which the displays of the registered
    session [r] both stand at [p]. *)
Lemma fast_poll_tick_keeps g h r p (ok : ViewId * Pos → Prop) (known : Prop) :
  (∀ c, c.1 ≠ left_display (objects g r) →
        c.1 ≠ right_display (objects g r) → ok c) →
  (known ∨ ∀ v, v = left_display (objects g r) ∨
                v = right_display (objects g r) → ok (v, p)) →
  r ∈ dict_values (_sessions g) → others_apart g r →
  viewport h !! left_display (objects g r) = Some p →
  viewport h !! right_display (objects g r) = Some p →
  (known → _last_vp g !! left_display (objects g r) = Some p ∧
           _last_vp g !! right_display (objects g r) = Some p) →
  ∃ g' h',
    _fast_poll_tick (g, h) = ((g', h'), Ok tt) ∧
    tick_keeps g (set_calls h) (left_display (objects g r))
      (right_display (objects g r)) p ok (g', h') ∧
    _last_vp g' !! left_display (objects g r) = Some p ∧
    _last_vp g' !! right_display (objects g r) = Some p.
Proof.
  intros Hother Hself Hin Hapart Hl Hr Hknown.
  unfold _fast_poll_tick. unfold py_bind at 1. unfold get_globals at 1. cbn.
  destruct (decide (_sessions g = [])) as [Hnil|Hne].
  { rewrite Hnil in Hin. by apply elem_of_nil in Hin. }
  destruct (tick_loop_keeps g (set_calls h) r p ok known
    (dict_values (_sessions g)) Hother Hself Hapart False g h)
    as (g' & h' & Hrun & (Hs & Ho & Hl' & Hr' & extra & Hc & He) & Hlast).
  - split_and!; try done. exists []. by rewrite app_nil_r.
  - intros [Hk|Hf]; [by apply Hknown|done].
  - unfold py_bind. rewrite Hrun. unfold on_host, set_timeout. cbn.
    eexists _, _. split; [reflexivity|]. cbn in *.
    split; [|apply Hlast; tauto].
    split_and!; cbn; try done. by exists extra.
Qed.

(** C3, as the code has it.  When a display [a] of a registered session
    propagates its offset [p] to its peer through [_sync_peer], the poll
    tick that follows returns with both displays still at [p] and both
    last-known offsets equal to [p]; whatever it writes to the two
    displays is [p] again; and the tick after that one writes to neither
    of them. *)
Theorem sync_then_poll g h r a w p :
  view_window h !! a = Some w →
  dict_get (_sessions g) w = Some r →
  left_display (objects g r) ≠ right_display (objects g r) →
  a = left_display (objects g r) ∨ a = right_display (objects g r) →
  a ∉ _syncing g →
  viewport h !! a = Some p →
  is_Some (viewport h !! peer_of (objects g r) a) →
  others_apart g r →
  ∃ g1 h1 g2 h2 g3 h3 extra2 extra3,
    _sync_peer a (g, h) = ((g1, h1), Ok tt) ∧
    set_calls h1 = set_calls h ++ [(peer_of (objects g r) a, p)] ∧
    _fast_poll_tick (g1, h1) = ((g2, h2), Ok tt) ∧
    viewport h2 !! left_display (objects g r) = Some p ∧
    viewport h2 !! right_display (objects g r) = Some p ∧
    _last_vp g2 !! left_display (objects g r) = Some p ∧
    _last_vp g2 !! right_display (objects g r) = Some p ∧
    set_calls h2 = set_calls h1 ++ extra2 ∧
    Forall (fun c => c.1 = left_display (objects g r) ∨
                     c.1 = right_display (objects g r) → c.2 = p) extra2 ∧
    _fast_poll_tick (g2, h2) = ((g3, h3), Ok tt) ∧
    set_calls h3 = set_calls h2 ++ extra3 ∧
    Forall (fun c => c.1 ≠ left_display (objects g r) ∧
                     c.1 ≠ right_display (objects g r)) extra3.
Proof.
  intros Hw Hr Hlr Ha Hsync Hp [q Hq] Hapart.
  set (lv := left_display (objects g r)) in *.
  set (rv := right_display (objects g r)) in *.
  assert (Hrin : r ∈ dict_values (_sessions g)) by (by eapply dict_get_values).
  (* the event-driven propagation *)
  assert (Hsyncrun : ∃ g1 h1,
    _sync_peer a (g, h) = ((g1, h1), Ok tt) ∧
    _sessions g1 = _sessions g ∧ objects g1 = objects g ∧
    set_calls h1 = set_calls h ++ [(peer_of (objects g r) a, p)] ∧
    viewport h1 !! lv = Some p ∧ viewport h1 !! rv = Some p).
  { unfold _sync_peer. rewrite decide_False by done. rewrite Hw, Hr.
    fold lv rv. unfold peer_of in *. fold lv rv in Hq |- *.
    destruct (decide (a = lv)) as [->|Hal].
    - run_py. rewrite Hp. cbn. rewrite Hq. cbn.
      eexists _, _. split; [reflexivity|]. cbn. split_and!; try done.
      + by rewrite lookup_insert_ne.
      + by rewrite lookup_insert_eq.
    - destruct Ha as [?| ->]; [done|]. rewrite decide_True by done.
      run_py. rewrite Hp. cbn. rewrite Hq. cbn.
      eexists _, _. split; [reflexivity|]. cbn. split_and!; try done.
      + by rewrite lookup_insert_eq.
      + by rewrite lookup_insert_ne. }
  destruct Hsyncrun as (g1 & h1 & Hrun1 & Hs1 & Ho1 & Hc1 & Hl1 & Hr1).
  assert (Hapart1 : others_apart g1 r).
  { unfold others_apart in *. by rewrite Hs1, Ho1. }
  (* the tick that follows *)
  destruct (fast_poll_tick_keeps g1 h1 r p
    (fun c => c.1 = lv ∨ c.1 = rv → c.2 = p) False)
    as (g2 & h2 & Hrun2 & (Hs2 & Ho2 & Hl2 & Hr2 & extra2 & Hc2 & He2) & Hpl2 & Hpr2);
    rewrite ?Ho1, ?Hs1; fold lv rv; try done.
  { intros c Hcl Hcr [?|?]; done. }
  { right. intros v _ _. done. }
  rewrite Ho1 in Hl2, Hr2, Hpl2, Hpr2. fold lv rv in Hl2, Hr2, Hpl2, Hpr2.
  cbn in Hs2, Ho2, Hl2, Hr2, Hc2.
  assert (Hapart2 : others_apart g2 r).
  { unfold others_apart in *. by rewrite Hs2, Ho2. }
  (* the tick after *)
  destruct (fast_poll_tick_keeps g2 h2 r p
    (fun c => c.1 ≠ lv ∧ c.1 ≠ rv) True)
    as (g3 & h3 & Hrun3 & (_ & _ & _ & _ & extra3 & Hc3 & He3) & _);
    rewrite ?Ho2, ?Ho1, ?Hs2, ?Hs1; fold lv rv; try done.
  { by left. }
  exists g1, h1, g2, h2, g3, h3, extra2, extra3.
  split_and!; done.
Qed.

Lemma sync_then_poll_witness :
  ∃ g1 h1 g2 h2,
    _sync_peer 10%Z (ex_globals, ex_host) = ((g1, h1), Ok tt) ∧
    _fast_poll_tick (g1, h1) = ((g2, h2), Ok tt) ∧
    viewport h2 !! 10%Z = Some (0%Z, 5%Z) ∧
    viewport h2 !! 11%Z = Some (0%Z, 5%Z) ∧
    _last_vp g2 !! 10%Z = Some (0%Z, 5%Z) ∧
    _last_vp g2 !! 11%Z = Some (0%Z, 5%Z).
Proof.
  destruct (sync_then_poll ex_globals ex_host 0 10%Z 2%Z (0%Z, 5%Z))
    as (g1 & h1 & g2 & h2 & _ & _ & _ & _ & H1 & _ & H2 & H3 & H4 & H5 & H6 & _).
  - reflexivity.
  - reflexivity.
  - vm_compute. discriminate.
  - left. reflexivity.
  - apply not_elem_of_empty.
  - reflexivity.
  - exists (0%Z, 0%Z). reflexivity.
  - unfold others_apart. repeat constructor.
  - exists g1, h1, g2, h2. split_and!; assumption.
Defined.

(** The claim C3 as the spec states it fails on the code: after
    [_sync_peer] has propagated the left display's new offset, the tick
    that follows calls [set_viewport_position] on the right display once
    more, because [_sync_peer] leaves [_last_vp] as it was. *)
Lemma sync_then_poll_propagates_again :
  set_calls (_sync_peer 10%Z (ex_globals, ex_host)).1.2
    = [(11%Z, (0%Z, 5%Z))] ∧
  set_calls (_fast_poll_tick (_sync_peer 10%Z (ex_globals, ex_host)).1).1.2
    ≠ set_calls (_sync_peer 10%Z (ex_globals, ex_host)).1.2.
Proof. split; [by vm_compute|]. vm_compute. discriminate. Qed.

(** ** Intra-line highlights *)




(** * Further properties *)

(** ** Rows, again *)

Lemma lookup_snoc_new {X} (l : list X) x : (l ++ [x]) !! length l = Some x.
Proof. by apply list_lookup_middle. Qed.

Lemma Forall_lookup_snoc {X} (out : list X) v x (marks : list nat) :
  Forall (fun r => out !! r = Some v) marks →
  Forall (fun r => (out ++ [x]) !! r = Some v) marks.
Proof.
  intros Hall. eapply Forall_impl; [exact Hall|].
  intros r Hr. by apply lookup_app_l_Some.
Qed.

Lemma Forall_lt_S (l : list nat) n :
  Forall (fun r => r < n) l → Forall (fun r => r < n + 1) l.
Proof. intros Hall. eapply Forall_impl; [exact Hall|]. simpl. intros; lia. Qed.

Lemma row_facts_bound_l i j st :
  row_facts i j st →
  Forall (fun r => r < li st) (l_deleted st) ∧
  Forall (fun r => r < li st) (l_changed st) ∧
  Forall (fun r => r < li st) (l_blank st).
Proof.
  intros (_&_&_&_&_&_&_&_&_&_&_&_&_&_&_&_&_&Hb).
  rewrite !Forall_app in Hb. tauto.
Qed.

(** One row keeps the facts; the texts must be the lines the kind
    stands for. *)
Lemma row_facts_push kind lline rline i j st :
  row_facts i j st →
  (kind = row_deleted → rline = BLANK_FILL) →
  (kind = row_inserted → lline = BLANK_FILL) →
  row_facts (match kind with row_inserted => i | _ => i + 1 end)
            (match kind with row_deleted => j | _ => j + 1 end)
            (push_row kind lline rline st).
Proof.
  intros Hfacts Hdel Hins.
  pose proof (row_facts_bound_l _ _ _ Hfacts) as (Hbd & Hbc & Hbb).
  destruct Hfacts as (Hli & Hri & Hlr & Had & Hrd & Hbl & Hde & Hch & Hfl & Hfr
    & Hpairs & Hmap & Hlen_l & Hlen_r & Hsd & Hsc & Hsb & Hbound).
  assert (Hpairs' : Forall (fun p : ChangedPair =>
            p.1.1.1 = p.1.1.2 ∧ (l_out st ++ [lline]) !! p.1.1.1 = Some p.1.2 ∧
            (r_out st ++ [rline]) !! p.1.1.2 = Some p.2) (pairs st)).
  { eapply Forall_impl; [exact Hpairs|]. intros p (? & ? & ?).
    split_and!; [done| |]; by apply lookup_app_l_Some. }
  destruct kind; unfold row_facts; simpl;
    rewrite ?length_app, ?fmap_app; simpl;
    (split_and!; try done; try lia; try congruence;
     try (by apply Forall_lookup_snoc);
     try (by apply StronglySorted_snoc);
     try (rewrite !Forall_app, ?Forall_singleton; split_and!;
          first [by apply Forall_lt_S | lia])).
  - rewrite Forall_app, Forall_singleton. split; [done|]. simpl.
    rewrite Hli at 2. rewrite Hri at 2. rewrite !lookup_snoc_new. done.
  - rewrite Forall_app, Forall_singleton. split; [by apply Forall_lookup_snoc|].
    rewrite Hri, (Hdel eq_refl). apply lookup_snoc_new.
  - rewrite Forall_app, Forall_singleton. split; [by apply Forall_lookup_snoc|].
    rewrite Hli, (Hins eq_refl). apply lookup_snoc_new.
Qed.

Lemma marked_row_push kind lline rline st r :
  marked_row st r → marked_row (push_row kind lline rline st) r.
Proof.
  unfold marked_row. destruct kind; simpl; rewrite ?elem_of_app; tauto.
Qed.

Lemma marked_row_new kind lline rline st :
  kind ≠ row_equal → marked_row (push_row kind lline rline st) (li st).
Proof.
  unfold marked_row. destruct kind; simpl; intros Hk; try done;
    rewrite ?elem_of_app, ?list_elem_of_singleton; tauto.
Qed.

Lemma push_row_blocks kind lline rline st :
  blocks (push_row kind lline rline st) = blocks st ∧
  li (push_row kind lline rline st) = li st + 1.
Proof. by destruct kind. Qed.

Lemma loop_facts_push st0 anchored (i j : nat → nat) k st kind lline rline :
  loop_facts st0 anchored i j k st →
  (kind = row_deleted → rline = BLANK_FILL) →
  (kind = row_inserted → lline = BLANK_FILL) →
  (anchored = true → kind ≠ row_equal) →
  i (k + 1) = match kind with row_inserted => i k | _ => i k + 1 end →
  j (k + 1) = match kind with row_deleted => j k | _ => j k + 1 end →
  loop_facts st0 anchored i j (k + 1) (push_row kind lline rline st).
Proof.
  intros (Hfacts & Hb & Hli & Hmono & Hanchor) Hdel Hins Hkind Hi Hj.
  destruct (push_row_blocks kind lline rline st) as [Hb' Hli'].
  split_and!.
  - rewrite Hi, Hj. by apply row_facts_push.
  - congruence.
  - lia.
  - intros r Hr. by apply marked_row_push, Hmono.
  - intros Ha _. destruct (decide (k = 0)) as [->|Hk].
    + rewrite Nat.add_0_r in Hli. rewrite <- Hli.
      by apply marked_row_new, Hkind.
    + apply marked_row_push, Hanchor; [done|lia].
Qed.

Section WalkFacts.
Variables left_in right_in : list string.

Lemma equal_body_push i1 j1 k st x y :
  left_in !! (i1 + k) = Some x → right_in !! (j1 + k) = Some y →
  equal_body left_in right_in i1 j1 k st = Some (push_row row_equal x y st).
Proof. intros Hx Hy. unfold equal_body. by rewrite Hx, Hy. Qed.

Lemma insert_body_push j1 k st y :
  right_in !! (j1 + k) = Some y →
  insert_body right_in j1 k st = Some (push_row row_inserted BLANK_FILL y st).
Proof. intros Hy. unfold insert_body. by rewrite Hy. Qed.

Lemma delete_body_push i1 k st x :
  left_in !! (i1 + k) = Some x →
  delete_body left_in i1 k st = Some (push_row row_deleted x BLANK_FILL st).
Proof. intros Hx. unfold delete_body. by rewrite Hx. Qed.

(** The three cases of the [replace] body are a changed row, a deleted
    row and an inserted row. *)
Lemma replace_body_push i1 j1 lcount rcount k st :
  i1 + lcount ≤ length left_in → j1 + rcount ≤ length right_in →
  k < lcount `max` rcount →
  ∃ kind lline rline,
    replace_body left_in right_in i1 j1 lcount rcount k st =
      Some (push_row kind lline rline st) ∧
    kind ≠ row_equal ∧
    (kind = row_deleted → rline = BLANK_FILL) ∧
    (kind = row_inserted → lline = BLANK_FILL) ∧
    kind = (if decide (k < lcount)
            then if decide (k < rcount) then row_changed else row_deleted
            else row_inserted).
Proof.
  intros Hi Hj Hk. unfold replace_body.
  destruct (decide (k < lcount)) as [Hkl|Hkl];
    destruct (decide (k < rcount)) as [Hkr|Hkr]; try lia.
  - destruct (lookup_lt_is_Some_2 left_in (i1 + k)) as [x Hx]; [lia|].
    destruct (lookup_lt_is_Some_2 right_in (j1 + k)) as [y Hy]; [lia|].
    rewrite Hx, Hy. simpl. rewrite decide_True by done.
    exists row_changed, x, y. done.
  - destruct (lookup_lt_is_Some_2 left_in (i1 + k)) as [x Hx]; [lia|].
    rewrite Hx. simpl. rewrite decide_False by tauto.
    exists row_deleted, x, BLANK_FILL. done.
  - destruct (lookup_lt_is_Some_2 right_in (j1 + k)) as [y Hy]; [lia|].
    rewrite Hy. simpl. rewrite decide_False by tauto.
    exists row_inserted, BLANK_FILL, y. done.
Qed.

Lemma block_facts_later st st' :
  block_facts st → li st ≤ li st' →
  (∀ r, marked_row st r → marked_row st' r) →
  Forall (fun p : nat * nat => p.1 = p.2 ∧ p.1 < li st' ∧ marked_row st' p.1)
    (blocks st).
Proof.
  intros Hb Hli Hmono. eapply Forall_impl; [exact Hb|].
  intros p (? & ? & ?). split_and!; [done|lia|by apply Hmono].
Qed.

Lemma walk_opcode_facts tag i1 i2 j1 j2 st :
  row_facts i1 j1 st → block_facts st →
  opcode_ok (tag, i1, i2, j1, j2) →
  i2 ≤ length left_in → j2 ≤ length right_in →
  ∃ st', walk_opcode left_in right_in (tag, i1, i2, j1, j2) st = Some st' ∧
    row_facts i2 j2 st' ∧ block_facts st'.
Proof.
  intros Hfacts Hblocks Hok Hi Hj.
  assert (Hlr : li st = ri st) by (by destruct Hfacts as (_ & _ & ? & _)).
  assert (Hstart : ∀ anchored i j, i 0 = i1 → j 0 = j1 →
    loop_facts (record_block st) anchored i j 0 (record_block st)).
  { intros anchored i j Hi0 Hj0. unfold loop_facts. rewrite Hi0, Hj0.
    split_and!; [done|done|simpl; lia|done|lia]. }
  assert (Hend : ∀ i j n st',
    0 < n → i n = i2 → j n = j2 →
    loop_facts (record_block st) true i j n st' →
    row_facts i2 j2 st' ∧ block_facts st').
  { intros i j n st' Hn Hin Hjn (Hf & Hb & Hli & Hmono & Hanchor).
    rewrite Hin, Hjn in Hf. split; [done|].
    unfold block_facts. rewrite Hb. simpl. apply Forall_app. split.
    - apply (block_facts_later st st'); [done|simpl in Hli; lia|].
      intros r Hr. by apply Hmono.
    - apply Forall_singleton. simpl in *.
      split_and!; [done|lia|by apply Hanchor]. }
  destruct tag; simpl in *.
  - destruct Hok as (Hlt & Hlt' & Hlen).
    destruct (for_range_inv
      (loop_facts st false (fun k => i1 + k) (fun k => j1 + k))
      (equal_body left_in right_in i1 j1) (i2 - i1) st)
      as (st' & Hrun & Hf & Hb & Hli & Hmono & _).
    { unfold loop_facts. rewrite !Nat.add_0_r.
      split_and!; [done|done|lia|done|done]. }
    { intros k s Hk Hloop.
      destruct (lookup_lt_is_Some_2 left_in (i1 + k)) as [x Hx]; [lia|].
      destruct (lookup_lt_is_Some_2 right_in (j1 + k)) as [y Hy]; [lia|].
      rewrite (equal_body_push _ _ _ _ _ _ Hx Hy). eexists; split; [done|].
      apply loop_facts_push; try done; lia. }
    exists st'. split; [done|].
    replace (i1 + (i2 - i1)) with i2 in Hf by lia.
    replace (j1 + (i2 - i1)) with j2 in Hf by lia.
    split; [done|]. unfold block_facts. rewrite Hb.
    apply (block_facts_later st st'); [done|lia|done].
  - destruct Hok as (-> & Hlt).
    destruct (for_range_inv
      (loop_facts (record_block st) true (fun _ => i2) (fun k => j1 + k))
      (insert_body right_in j1) (j2 - j1) (record_block st))
      as (st' & Hrun & Hloop); [by apply Hstart| |].
    { intros k s Hk Hloop.
      destruct (lookup_lt_is_Some_2 right_in (j1 + k)) as [y Hy]; [lia|].
      rewrite (insert_body_push _ _ _ _ Hy). eexists; split; [done|].
      apply loop_facts_push; try done; lia. }
    exists st'. split; [done|].
    apply (Hend (fun _ => i2) (fun k => j1 + k) (j2 - j1)); [lia|done|lia|done].
  - destruct Hok as (Hlt & ->).
    destruct (for_range_inv
      (loop_facts (record_block st) true (fun k => i1 + k) (fun _ => j2))
      (delete_body left_in i1) (i2 - i1) (record_block st))
      as (st' & Hrun & Hloop); [by apply Hstart| |].
    { intros k s Hk Hloop.
      destruct (lookup_lt_is_Some_2 left_in (i1 + k)) as [x Hx]; [lia|].
      rewrite (delete_body_push _ _ _ _ Hx). eexists; split; [done|].
      apply loop_facts_push; try done; lia. }
    exists st'. split; [done|].
    apply (Hend (fun k => i1 + k) (fun _ => j2) (i2 - i1)); [lia|lia|done|done].
  - destruct Hok as (Hlt & Hlt').
    destruct (for_range_inv
      (loop_facts (record_block st) true
         (fun k => i1 + k `min` (i2 - i1)) (fun k => j1 + k `min` (j2 - j1)))
      (replace_body left_in right_in i1 j1 (i2 - i1) (j2 - j1))
      ((i2 - i1) `max` (j2 - j1)) (record_block st))
      as (st' & Hrun & Hloop).
    { apply Hstart; simpl; lia. }
    { intros k s Hk Hloop.
      destruct (replace_body_push i1 j1 (i2 - i1) (j2 - j1) k s)
        as (kind & x & y & -> & Hne & Hdel & Hins & Hkind); [lia|lia|lia|].
      eexists; split; [done|].
      apply loop_facts_push; try done;
        rewrite Hkind; repeat case_decide; lia. }
    exists st'. split; [done|].
    apply (Hend (fun k => i1 + k `min` (i2 - i1))
                (fun k => j1 + k `min` (j2 - j1))
                ((i2 - i1) `max` (j2 - j1))); [lia|lia|lia|done].
Qed.

Lemma walk_opcodes_facts ops :
  ∀ i j st,
    opcodes_from (length left_in) (length right_in) i j ops →
    row_facts i j st → block_facts st →
    ∃ st', walk_opcodes left_in right_in ops st = Some st' ∧
      row_facts (length left_in) (length right_in) st' ∧ block_facts st'.
Proof.
  induction ops as [|[[[[tag i1] i2] j1] j2] ops IH]; simpl; intros i j st.
  - intros (-> & ->) Hf Hb. by exists st.
  - intros (-> & -> & Hok & Hrest) Hf Hb.
    pose proof (opcodes_from_bound _ _ _ _ _ Hrest) as (Hi & Hj).
    destruct (walk_opcode_facts tag i i2 j j2 st) as (st1 & Hrun & Hf1 & Hb1);
      auto.
    simpl in Hrun. rewrite Hrun. simpl. by apply (IH i2 j2).
Qed.

(** [compute_diff] returns on every pair of inputs, in a state that
    satisfies the further facts. *)
Lemma compute_diff_facts :
  ∃ st,
    compute_diff left_in right_in = Some (to_result st) ∧
    row_facts (length left_in) (length right_in) st ∧ block_facts st.
Proof.
  unfold compute_diff, compute_diff_with.
  destruct (DifflibFacts.get_opcodes_ok left_in right_in) as (ops & -> & Hops).
  simpl.
  destruct (walk_opcodes_facts ops 0 0 init_locals Hops)
    as (st & -> & Hf & Hb).
  - unfold row_facts. simpl. split_and!; try done; constructor.
  - constructor.
  - by exists st.
Qed.
End WalkFacts.

(** ** Further properties of the diff engine *)

(** X1. The two sides mirror each other: the left side never has an
    added row and the right side never a deleted one; the left blank
    rows are the right added rows, the left deleted rows are the right
    blank rows, and both sides have the same changed rows. *)
Theorem compute_diff_marks_mirror (left_in right_in : list string) :
  ∃ res,
    compute_diff left_in right_in = Some res ∧
    added (left_marks res) = [] ∧ deleted (right_marks res) = [] ∧
    blank (left_marks res) = added (right_marks res) ∧
    deleted (left_marks res) = blank (right_marks res) ∧
    changed (left_marks res) = changed (right_marks res).
Proof.
  destruct (compute_diff_facts left_in right_in) as (st & Hrun & Hf & _).
  destruct Hf as (_ & _ & _ & Had & Hrd & Hbl & Hde & Hch & _).
  exists (to_result st). split; [done|]. simpl. done.
Qed.

(** X2. Every mark is the index of an output row, and each mark list
    is strictly increasing. *)
Theorem compute_diff_marks_in_range (left_in right_in : list string) :
  ∃ res,
    compute_diff left_in right_in = Some res ∧
    Forall (fun r => r < length (left_lines res))
      (added (left_marks res) ++ deleted (left_marks res) ++
       changed (left_marks res) ++ blank (left_marks res)) ∧
    Forall (fun r => r < length (right_lines res))
      (added (right_marks res) ++ deleted (right_marks res) ++
       changed (right_marks res) ++ blank (right_marks res)) ∧
    StronglySorted lt (deleted (left_marks res)) ∧
    StronglySorted lt (changed (left_marks res)) ∧
    StronglySorted lt (blank (left_marks res)) ∧
    StronglySorted lt (added (right_marks res)) ∧
    StronglySorted lt (changed (right_marks res)) ∧
    StronglySorted lt (blank (right_marks res)).
Proof.
  destruct (compute_diff_facts left_in right_in) as (st & Hrun & Hf & _).
  pose proof (row_facts_bound_l _ _ _ Hf) as (Hbd & Hbc & Hbb).
  destruct Hf as (Hli & Hri & Hlr & Had & Hrd & Hbl & Hde & Hch & _ & _ & _ & _
    & _ & _ & Hsd & Hsc & Hsb & _).
  exists (to_result st). split; [done|]. simpl.
  rewrite Had, Hrd, <- Hbl, <- Hde, <- Hch. simpl.
  rewrite <- Hri, <- Hlr, <- Hli. rewrite !Forall_app. split_and!; done.
Qed.

(** X3. The rows marked blank hold the filler string. *)
Theorem compute_diff_blank_is_filler (left_in right_in : list string) :
  ∃ res,
    compute_diff left_in right_in = Some res ∧
    Forall (fun r => left_lines res !! r = Some BLANK_FILL)
      (blank (left_marks res)) ∧
    Forall (fun r => right_lines res !! r = Some BLANK_FILL)
      (blank (right_marks res)).
Proof.
  destruct (compute_diff_facts left_in right_in) as (st & Hrun & Hf & _).
  destruct Hf as (_ & _ & _ & _ & _ & _ & _ & _ & Hfl & Hfr & _).
  exists (to_result st). split; [done|]. simpl. done.
Qed.

(** X4. Every changed pair [(li, ri, ltext, rtext)] names one row
    ([li = ri]) and repeats the two lines the outputs hold there; the
    rows of the changed pairs are, in order, the changed marks. *)
Theorem compute_diff_changed_pairs_rows (left_in right_in : list string) :
  ∃ res,
    compute_diff left_in right_in = Some res ∧
    Forall (fun p : ChangedPair =>
              p.1.1.1 = p.1.1.2 ∧
              left_lines res !! p.1.1.1 = Some p.1.2 ∧
              right_lines res !! p.1.1.2 = Some p.2) (changed_pairs res) ∧
    (fun p : ChangedPair => p.1.1.1) <$> changed_pairs res =
      changed (left_marks res).
Proof.
  destruct (compute_diff_facts left_in right_in) as (st & Hrun & Hf & _).
  destruct Hf as (_ & _ & _ & _ & _ & _ & _ & _ & _ & _ & Hp & Hm & _).
  exists (to_result st). split; [done|]. simpl. done.
Qed.

(** X5. Every anchor of [diff_blocks] is the same row on both sides,
    an output row, and a row the left side marks deleted, changed or
    blank. *)
Theorem compute_diff_blocks_on_marked_rows (left_in right_in : list string) :
  ∃ res,
    compute_diff left_in right_in = Some res ∧
    Forall (fun p : nat * nat =>
              p.1 = p.2 ∧ p.1 < length (left_lines res) ∧
              (p.1 ∈ deleted (left_marks res) ∨
               p.1 ∈ changed (left_marks res) ∨
               p.1 ∈ blank (left_marks res))) (diff_blocks res).
Proof.
  destruct (compute_diff_facts left_in right_in) as (st & Hrun & Hf & Hb).
  destruct Hf as (Hli & _).
  exists (to_result st). split; [done|]. simpl.
  eapply Forall_impl; [exact Hb|]. intros p (? & ? & ?).
  split_and!; [done|lia|done].
Qed.

(** X6. The number of output rows is the number of left lines plus the
    number of left blank rows, and the number of right lines plus the
    number of right blank rows. *)
Theorem compute_diff_row_count (left_in right_in : list string) :
  ∃ res,
    compute_diff left_in right_in = Some res ∧
    length (left_lines res) =
      length left_in + length (blank (left_marks res)) ∧
    length (right_lines res) =
      length right_in + length (blank (right_marks res)).
Proof.
  destruct (compute_diff_facts left_in right_in) as (st & Hrun & Hf & _).
  destruct Hf as (_ & _ & _ & _ & _ & _ & _ & _ & _ & _ & _ & _ & Hl & Hr & _).
  exists (to_result st). split; [done|]. simpl. done.
Qed.

(** ** Line highlights *)

Lemma safe_omap line_regs indices :
  safe line_regs indices = Some (omap (fun i => line_regs !! i) indices).
Proof.
  induction indices as [|i indices IH]; simpl; [done|].
  destruct (decide (i < length line_regs)) as [Hi|Hi].
  - destruct (lookup_lt_is_Some_2 line_regs i Hi) as [reg Hreg].
    rewrite Hreg, IH. done.
  - rewrite IH. by rewrite lookup_ge_None_2 by lia.
Qed.

Lemma omap_lookup_total {X} (l : list X) (indices : list nat) :
  Forall (fun i => i < length l) indices →
  length (omap (fun i => l !! i) indices) = length indices ∧
  ∀ n i, indices !! n = Some i →
         omap (fun i => l !! i) indices !! n = l !! i.
Proof.
  induction 1 as [|i indices Hi Hall [IHlen IH]]; simpl; [done|].
  destruct (lookup_lt_is_Some_2 l i Hi) as [x Hx]. rewrite Hx. simpl.
  split; [f_equal; exact IHlen|].
  intros [|n] i'; simpl; [by intros [= <-]|apply IH].
Qed.

(** X7. [safe] never raises: it returns the regions of the indices
    below the line count, in order, and drops the others.  On a display
    with at least as many lines as the diff has rows it drops none of
    the marks of [compute_diff]: the [n]-th region is the line of the
    [n]-th mark. *)
Theorem safe_keeps_every_mark (left_in right_in : list string)
    (line_regs : list Region) :
  (∀ indices,
     safe line_regs indices = Some (omap (fun i => line_regs !! i) indices)) ∧
  ∃ res,
    compute_diff left_in right_in = Some res ∧
    (length (left_lines res) ≤ length line_regs →
     ∀ marks,
       marks ∈ [added (left_marks res); deleted (left_marks res);
                changed (left_marks res); blank (left_marks res);
                added (right_marks res); deleted (right_marks res);
                changed (right_marks res); blank (right_marks res)] →
       ∃ regs,
         safe line_regs marks = Some regs ∧ length regs = length marks ∧
         ∀ n i, marks !! n = Some i → regs !! n = line_regs !! i).
Proof.
  split; [apply safe_omap|].
  destruct (compute_diff_facts left_in right_in) as (st & Hrun & Hf & _).
  pose proof (row_facts_bound_l _ _ _ Hf) as (Hbd & Hbc & Hbb).
  destruct Hf as (Hli & Hri & Hlr & Had & Hrd & Hbl & Hde & Hch & _).
  exists (to_result st). split; [done|]. simpl. intros Hregs marks Hin.
  rewrite Had, Hrd, <- Hbl, <- Hde, <- Hch in Hin. rewrite <- Hli in Hregs.
  assert (Hbound : Forall (fun i => i < length line_regs) marks).
  { rewrite !elem_of_cons in Hin.
    destruct Hin as [->|[->|[->|[->|[->|[->|[->|[->|Hin]]]]]]]];
      try (eapply Forall_impl; [eassumption|]; simpl; intros; lia);
      try constructor.
    by apply elem_of_nil in Hin. }
  destruct (omap_lookup_total line_regs marks Hbound) as [Hlen' Hnth].
  exists (omap (fun i => line_regs !! i) marks).
  split_and!; [apply safe_omap|done|done].
Qed.

Lemma safe_keeps_every_mark_witness :
  ∃ res regs,
    compute_diff ex_a ex_b = Some res ∧
    safe ex_regions (changed (left_marks res)) = Some regs ∧
    length regs = length (changed (left_marks res)).
Proof.
  destruct (safe_keeps_every_mark ex_a ex_b ex_regions)
    as (_ & res & Hrun & Hkeep).
  destruct (Hkeep ltac:(vm_compute in Hrun; injection Hrun as <-; simpl; lia)
    (changed (left_marks res))) as (regs & Hsafe & Hlen & _).
  { rewrite !elem_of_cons. auto. }
  by exists res, regs.
Defined.

(** ** The [equal], [insert] and [delete] branches *)

Lemma insert_rows_0 right_in j1 st : insert_rows right_in j1 0 st = record_block st.
Proof.
  destruct st. unfold insert_rows, record_block. simpl.
  by rewrite !app_nil_r, !Nat.add_0_r.
Qed.

Lemma delete_rows_0 left_in i1 st : delete_rows left_in i1 0 st = record_block st.
Proof.
  destruct st. unfold delete_rows, record_block. simpl.
  by rewrite !app_nil_r, !Nat.add_0_r.
Qed.

Lemma insert_loop_exact (right_in : list string) j1 n st :
  j1 + n ≤ length right_in →
  for_range n (insert_body right_in j1) (record_block st) =
  Some (insert_rows right_in j1 n st).
Proof.
  intros Hn.
  destruct (for_range_inv
    (fun k s => k ≤ n ∧ s = insert_rows right_in j1 k st)
    (insert_body right_in j1) n (record_block st)) as (s & -> & _ & ->);
    [split; [lia|by rewrite insert_rows_0]| |done].
  intros k s Hk [_ ->].
  destruct (lookup_lt_is_Some_2 right_in (j1 + k)) as [y Hy]; [lia|].
  eexists. split; [|split; [lia|reflexivity]].
  unfold insert_body. rewrite Hy. simpl. f_equal.
  unfold insert_rows. simpl.
  rewrite (take_drop_snoc _ _ _ _ Hy).
  rewrite !(Nat.add_1_r k), replicate_S_end, !seq_S.
  rewrite !(assoc_L (++)). f_equal; lia.
Qed.

Lemma delete_loop_exact (left_in : list string) i1 n st :
  i1 + n ≤ length left_in →
  for_range n (delete_body left_in i1) (record_block st) =
  Some (delete_rows left_in i1 n st).
Proof.
  intros Hn.
  destruct (for_range_inv
    (fun k s => k ≤ n ∧ s = delete_rows left_in i1 k st)
    (delete_body left_in i1) n (record_block st)) as (s & -> & _ & ->);
    [split; [lia|by rewrite delete_rows_0]| |done].
  intros k s Hk [_ ->].
  destruct (lookup_lt_is_Some_2 left_in (i1 + k)) as [x Hx]; [lia|].
  eexists. split; [|split; [lia|reflexivity]].
  unfold delete_body. rewrite Hx. simpl. f_equal.
  unfold delete_rows. simpl.
  rewrite (take_drop_snoc _ _ _ _ Hx).
  rewrite !(Nat.add_1_r k), replicate_S_end, !seq_S.
  rewrite !(assoc_L (++)). f_equal; lia.
Qed.

(** X8. An [equal] opcode copies its lines to both sides, row for row,
    and records neither a mark, nor an anchor, nor a changed pair. *)
Theorem equal_opcode_rows (left_in right_in : list string) i1 i2 j1 j2 st :
  i1 ≤ i2 ≤ length left_in → j1 + (i2 - i1) ≤ length right_in →
  walk_opcode left_in right_in (tag_equal, i1, i2, j1, j2) st =
  Some (equal_rows left_in right_in i1 j1 (i2 - i1) st).
Proof.
  intros [Hi Hi'] Hj. simpl. unfold for_range.
  rewrite (equal_loop_exact left_in right_in i1 j1 (i2 - i1) 0 st) by lia.
  by rewrite !Nat.add_0_r.
Qed.

Lemma equal_opcode_rows_witness :
  (0 ≤ 1 ≤ length ex_a ∧ 0 + (1 - 0) ≤ length ex_b) ∧
  walk_opcode ex_a ex_b (tag_equal, 0, 1, 0, 1) init_locals =
  Some (equal_rows ex_a ex_b 0 0 (1 - 0) init_locals).
Proof.
  split; [simpl; lia|].
  apply (equal_opcode_rows ex_a ex_b 0 1 0 1 init_locals); simpl; lia.
Defined.

(** X9. An [insert] opcode over the right range [[j1, j2)] records one
    anchor at the cursors held before it and writes [j2 - j1] rows:
    filler marked blank on the left, the right lines marked added on
    the right. *)
Theorem insert_opcode_rows (left_in right_in : list string) i1 i2 j1 j2 st :
  j1 ≤ j2 ≤ length right_in →
  walk_opcode left_in right_in (tag_insert, i1, i2, j1, j2) st =
  Some (insert_rows right_in j1 (j2 - j1) st).
Proof. intros [Hj Hj']. simpl. apply insert_loop_exact. lia. Qed.

Lemma insert_opcode_rows_witness :
  (1 ≤ 3 ≤ length ex_b) ∧
  walk_opcode ex_a ex_b (tag_insert, 3, 3, 1, 3) init_locals =
  Some (insert_rows ex_b 1 (3 - 1) init_locals).
Proof.
  split; [simpl; lia|].
  apply (insert_opcode_rows ex_a ex_b 3 3 1 3 init_locals); simpl; lia.
Defined.

(** X10. A [delete] opcode over the left range [[i1, i2)] records one
    anchor and writes [i2 - i1] rows: the left lines marked deleted on
    the left, filler marked blank on the right. *)
Theorem delete_opcode_rows (left_in right_in : list string) i1 i2 j1 j2 st :
  i1 ≤ i2 ≤ length left_in →
  walk_opcode left_in right_in (tag_delete, i1, i2, j1, j2) st =
  Some (delete_rows left_in i1 (i2 - i1) st).
Proof. intros [Hi Hi']. simpl. apply delete_loop_exact. lia. Qed.

Lemma delete_opcode_rows_witness :
  (1 ≤ 3 ≤ length ex_a) ∧
  walk_opcode ex_a ex_b (tag_delete, 1, 3, 3, 3) init_locals =
  Some (delete_rows ex_a 1 (3 - 1) init_locals).
Proof.
  split; [simpl; lia|].
  apply (delete_opcode_rows ex_a ex_b 1 3 3 3 init_locals); simpl; lia.
Defined.

(** ** An empty side *)

Module EmptySide.
Import Difflib.
Section EmptySide.
Context {A : Type} `{EqDecision A}.

Lemma get_opcodes_nil_l (b : list A) :
  get_opcodes [] b =
  Some (if decide (length b = 0) then []
        else [(tag_insert, 0, 0, 0, length b)]).
Proof.
  unfold get_opcodes, get_matching_blocks. simpl.
  destruct (decide (length b = 0)) as [Hz|Hz].
  - rewrite Hz. reflexivity.
  - case_decide; [done|lia].
Qed.

Lemma scan_rows_nil_r (a : list A) n :
  ∀ i0 j2len best,
    i0 + n ≤ length a →
    scan_rows a [] (seq i0 n) 0 0 j2len best = Some best.
Proof.
  induction n as [|n IH]; intros i0 j2len best Hn; simpl; [done|].
  destruct (lookup_lt_is_Some_2 a i0) as [x Hx]; [lia|]. rewrite Hx. simpl.
  apply IH. lia.
Qed.

Lemma find_longest_match_nil_r (a : list A) :
  find_longest_match a [] 0 (length a) 0 0 = Some (0, 0, 0).
Proof.
  unfold find_longest_match. rewrite Nat.sub_0_r.
  rewrite scan_rows_nil_r by lia. simpl.
  destruct (length a) as [|n]; simpl; reflexivity.
Qed.

Lemma get_opcodes_nil_r (a : list A) :
  get_opcodes a [] =
  Some (if decide (length a = 0) then []
        else [(tag_delete, 0, length a, 0, 0)]).
Proof.
  unfold get_opcodes, get_matching_blocks.
  replace (2 * length a + 1) with (S (2 * length a)) by lia.
  simpl blocks_loop. simpl length. rewrite find_longest_match_nil_r. simpl.
  rewrite DifflibFacts.blocks_loop_nil. simpl.
  destruct (decide (length a = 0)) as [Hz|Hz].
  - rewrite Hz. reflexivity.
  - repeat case_decide; try lia; done.
Qed.
End EmptySide.
End EmptySide.

(** X11. With an empty left input the engine returns one block at row
    0 and one row per right line: filler marked blank on the left, the
    right line marked added on the right.  With an empty right input it
    returns the mirror image: every left line marked deleted, facing
    filler marked blank.  Two empty inputs give the empty result, with
    no row and no block. *)
Theorem compute_diff_empty_side (lines : list string) :
  lines ≠ [] →
  compute_diff [] lines =
    Some {| left_lines := replicate (length lines) BLANK_FILL;
            right_lines := lines;
            left_marks := {| added := []; deleted := []; changed := [];
                             blank := seq 0 (length lines) |};
            right_marks := {| added := seq 0 (length lines); deleted := [];
                              changed := []; blank := [] |};
            diff_blocks := [(0, 0)]; changed_pairs := [] |} ∧
  compute_diff lines [] =
    Some {| left_lines := lines;
            right_lines := replicate (length lines) BLANK_FILL;
            left_marks := {| added := []; deleted := seq 0 (length lines);
                             changed := []; blank := [] |};
            right_marks := {| added := []; deleted := []; changed := [];
                              blank := seq 0 (length lines) |};
            diff_blocks := [(0, 0)]; changed_pairs := [] |} ∧
  compute_diff [] [] = Some (to_result init_locals).
Proof.
  intros Hne.
  assert (Hlen : length lines ≠ 0) by (by destruct lines).
  split_and!.
  - unfold compute_diff. rewrite EmptySide.get_opcodes_nil_l. simpl.
    rewrite decide_False by done.
    unfold compute_diff_with. simpl.
    rewrite Nat.sub_0_r, insert_loop_exact by (simpl; lia).
    simpl. unfold to_result. simpl. by rewrite take_ge.
  - unfold compute_diff. rewrite EmptySide.get_opcodes_nil_r. simpl.
    rewrite decide_False by done.
    unfold compute_diff_with. simpl.
    rewrite Nat.sub_0_r, delete_loop_exact by (simpl; lia).
    simpl. unfold to_result. simpl. by rewrite take_ge.
  - by vm_compute.
Qed.

Lemma compute_diff_empty_side_witness :
  ex_a ≠ [] ∧
  compute_diff ex_a [] =
    Some {| left_lines := ex_a;
            right_lines := replicate (length ex_a) BLANK_FILL;
            left_marks := {| added := []; deleted := seq 0 (length ex_a);
                             changed := []; blank := [] |};
            right_marks := {| added := []; deleted := []; changed := [];
                              blank := seq 0 (length ex_a) |};
            diff_blocks := [(0, 0)]; changed_pairs := [] |}.
Proof.
  split; [done|].
  apply (compute_diff_empty_side ex_a). done.
Defined.

(** ** The matcher's blocks hold equal elements *)

Module MatchFacts.
Import Difflib.
Section MatchFacts.
Context {A : Type} `{EqDecision A}.
Variables a b : list A.

Lemma b2j_get_holds x j : j ∈ b2j_get b x → b !! j = Some x.
Proof. unfold b2j_get. rewrite list_elem_of_filter. tauto. Qed.

Lemma j2lenget_run i j2len j :
  j2len_runs a b i j2len → a !! i = b !! j →
  j2lenget j2len j + 1 ≤ i + 1 ∧ j2lenget j2len j + 1 ≤ j + 1 ∧
  ∀ s, s < j2lenget j2len j + 1 → a !! (i - s) = b !! (j - s).
Proof.
  intros Hruns Hij. destruct j as [|j']; simpl.
  - split_and!; [lia|lia|]. intros s Hs. replace s with 0 by lia.
    by rewrite !Nat.sub_0_r.
  - destruct (j2len !! j') as [k|] eqn:Hk; simpl.
    + destruct (Hruns _ _ Hk) as (Hki & Hkj & Hrun).
      split_and!; [lia|lia|]. intros [|s] Hs; [by rewrite !Nat.sub_0_r|].
      replace (i - S s) with (i - 1 - s) by lia.
      apply Hrun. lia.
    + split_and!; [lia|lia|]. intros s Hs. replace s with 0 by lia.
    by rewrite !Nat.sub_0_r.
Qed.

Lemma scan_row_runs i blo bhi j2len js :
  j2len_runs a b i j2len →
  Forall (fun j => a !! i = b !! j) js →
  ∀ new best,
    j2len_runs a b (i + 1) new → block_matches a b best →
    j2len_runs a b (i + 1) (scan_row i blo bhi j2len js new best).1 ∧
    block_matches a b (scan_row i blo bhi j2len js new best).2.
Proof.
  intros Hold. induction 1 as [|j js Hj Hjs IH]; intros new best Hnew Hbest;
    simpl; [done|].
  destruct (decide (j < blo)); [by apply IH|].
  destruct (decide (bhi ≤ j)); [done|].
  destruct (j2lenget_run i j2len j Hold Hj) as (Hki & Hkj & Hrun).
  apply IH.
  - intros j' k'. destruct (decide (j = j')) as [->|Hne].
    + rewrite lookup_insert_eq. intros [= <-].
      split_and!; [lia|lia|]. intros s Hs.
      replace (i + 1 - 1 - s) with (i - s) by lia. by apply Hrun.
    + rewrite lookup_insert_ne by done. apply Hnew.
  - destruct best as [[bi bj] bk]. simpl.
    destruct (decide (bk < j2lenget j2len j + 1)); [|done].
    simpl. intros t Ht.
    replace (i + 1 - (j2lenget j2len j + 1) + t)
      with (i - (j2lenget j2len j - t)) by lia.
    replace (j + 1 - (j2lenget j2len j + 1) + t)
      with (j - (j2lenget j2len j - t)) by lia.
    apply Hrun. lia.
Qed.

Lemma scan_rows_matches blo bhi n :
  ∀ i0 j2len best best',
    j2len_runs a b i0 j2len → block_matches a b best →
    scan_rows a b (seq i0 n) blo bhi j2len best = Some best' →
    block_matches a b best'.
Proof.
  induction n as [|n IH]; intros i0 j2len best best' Hj Hbest; simpl.
  - by intros [= <-].
  - destruct (a !! i0) as [x|] eqn:Hx; simpl; [|done].
    pose proof (scan_row_runs i0 blo bhi j2len (b2j_get b x) Hj) as Hrow.
    destruct (scan_row i0 blo bhi j2len (b2j_get b x) ∅ best)
      as [new best1] eqn:Hscan.
    specialize (Hrow ltac:(
      apply Forall_forall; intros j Hjin; rewrite Hx; symmetry;
      by apply b2j_get_holds) ∅ best).
    rewrite Hscan in Hrow. simpl in Hrow.
    destruct Hrow as [Hnew Hbest1]; [by intros j k; rewrite lookup_empty|done|].
    apply (IH (S i0) new best1 best'); [|done].
    by rewrite Nat.add_1_r in Hnew.
Qed.

Lemma guard_left_true junk alo blo bi bj bk :
  guard_left a b junk alo blo (bi, bj, bk) = Some true →
  0 < bi ∧ 0 < bj ∧ a !! (bi - 1) = b !! (bj - 1).
Proof.
  unfold guard_left.
  destruct (decide (alo < bi)); [|done].
  destruct (decide (blo < bj)); [|done].
  destruct (b !! (bj - 1)) as [y|]; simpl; [|done].
  destruct (negb _); [done|].
  destruct (a !! (bi - 1)) as [x|]; simpl; [|done].
  intros [= Heq]. apply bool_decide_eq_true in Heq. subst.
  split_and!; [lia|lia|done].
Qed.

Lemma guard_right_true junk ahi bhi bi bj bk :
  guard_right a b junk ahi bhi (bi, bj, bk) = Some true →
  a !! (bi + bk) = b !! (bj + bk).
Proof.
  unfold guard_right.
  destruct (decide (bi + bk < ahi)); [|done].
  destruct (decide (bj + bk < bhi)); [|done].
  destruct (b !! (bj + bk)) as [y|]; simpl; [|done].
  destruct (negb _); [done|].
  destruct (a !! (bi + bk)) as [x|]; simpl; [|done].
  intros [= Heq]. apply bool_decide_eq_true in Heq. by subst.
Qed.

Lemma extend_left_eq junk n alo blo best :
  extend_left a b junk n alo blo best =
  match guard_left a b junk alo blo best with
  | Some true =>
      match n with
      | 0 => None
      | S n' => extend_left a b junk n' alo blo
                  (best.1.1 - 1, best.1.2 - 1, best.2 + 1)
      end
  | Some false => Some best
  | None => None
  end.
Proof.
  destruct best as [[bi bj] bk].
  destruct n; simpl; destruct (guard_left a b junk alo blo (bi, bj, bk))
    as [[|]|]; reflexivity.
Qed.

Lemma extend_right_eq junk n ahi bhi best :
  extend_right a b junk n ahi bhi best =
  match guard_right a b junk ahi bhi best with
  | Some true =>
      match n with
      | 0 => None
      | S n' => extend_right a b junk n' ahi bhi
                  (best.1.1, best.1.2, best.2 + 1)
      end
  | Some false => Some best
  | None => None
  end.
Proof.
  destruct best as [[bi bj] bk].
  destruct n; simpl; destruct (guard_right a b junk ahi bhi (bi, bj, bk))
    as [[|]|]; reflexivity.
Qed.

Lemma extend_left_matches junk alo blo n :
  ∀ best best',
    block_matches a b best →
    extend_left a b junk n alo blo best = Some best' →
    block_matches a b best'.
Proof.
  induction n as [|n IH]; intros [[bi bj] bk] best' Hbest;
    rewrite extend_left_eq;
    destruct (guard_left a b junk alo blo (bi, bj, bk)) as [[|]|] eqn:Hg;
    try done; try (by intros [= <-]).
  apply guard_left_true in Hg as (Hi & Hj & Heq).
  apply IH. simpl. intros [|t] Ht.
  - by rewrite !Nat.add_0_r.
  - replace (bi - 1 + S t) with (bi + t) by lia.
    replace (bj - 1 + S t) with (bj + t) by lia.
    apply Hbest. lia.
Qed.

Lemma extend_right_matches junk ahi bhi n :
  ∀ best best',
    block_matches a b best →
    extend_right a b junk n ahi bhi best = Some best' →
    block_matches a b best'.
Proof.
  induction n as [|n IH]; intros [[bi bj] bk] best' Hbest;
    rewrite extend_right_eq;
    destruct (guard_right a b junk ahi bhi (bi, bj, bk)) as [[|]|] eqn:Hg;
    try done; try (by intros [= <-]).
  apply guard_right_true in Hg.
  apply IH. simpl. intros t Ht.
  destruct (decide (t = bk)) as [->|Hne]; [done|].
  apply Hbest. lia.
Qed.

Lemma find_longest_match_matches alo ahi blo bhi m :
  find_longest_match a b alo ahi blo bhi = Some m → block_matches a b m.
Proof.
  unfold find_longest_match.
  destruct (scan_rows a b (seq alo (ahi - alo)) blo bhi ∅ (alo, blo, 0))
    as [m0|] eqn:H0; simpl; [|done].
  apply scan_rows_matches in H0;
    [|by intros j k; rewrite lookup_empty|by intros t Ht; lia].
  destruct (extend_left a b false m0.1.1 alo blo m0) as [m1|] eqn:H1;
    simpl; [|done].
  apply extend_left_matches in H1; [|done].
  destruct (extend_right a b false ahi ahi bhi m1) as [m2|] eqn:H2;
    simpl; [|done].
  apply extend_right_matches in H2; [|done].
  destruct (extend_left a b true m2.1.1 alo blo m2) as [m3|] eqn:H3;
    simpl; [|done].
  apply extend_left_matches in H3; [|done].
  intros H4. by apply extend_right_matches in H4.
Qed.

Lemma blocks_loop_matches fuel :
  ∀ queue acc acc',
    Forall (block_matches a b) acc →
    blocks_loop a b fuel queue acc = Some acc' →
    Forall (block_matches a b) acc'.
Proof.
  induction fuel as [|fuel IH]; intros queue acc acc' Hacc;
    destruct queue as [|[[[alo ahi] blo] bhi] queue]; simpl;
    try (by intros [= <-]); try done.
  destruct (find_longest_match a b alo ahi blo bhi) as [[[i j] k]|] eqn:Hflm;
    simpl; [|done].
  apply find_longest_match_matches in Hflm.
  destruct (decide (k = 0)); [by apply IH|].
  apply IH. apply Forall_app. split; [done|]. by apply Forall_singleton.
Qed.

Lemma collapse_matches bs :
  ∀ cur na,
    Forall (block_matches a b) bs → block_matches a b cur →
    Forall (block_matches a b) na →
    block_matches a b (collapse bs cur na).1 ∧
    Forall (block_matches a b) (collapse bs cur na).2.
Proof.
  induction bs as [|[[i2 j2] k2] bs IH]; intros [[i1 j1] k1] na Hbs Hcur Hna;
    simpl; [done|].
  apply Forall_cons in Hbs as [Hb Hbs].
  destruct (decide (i1 + k1 = i2 ∧ j1 + k1 = j2)) as [[<- <-]|Hne].
  - apply IH; [done| |done]. intros t Ht.
    destruct (decide (t < k1)) as [Hlt|Hge]; [by apply Hcur|].
    replace (i1 + t) with (i1 + k1 + (t - k1)) by lia.
    replace (j1 + t) with (j1 + k1 + (t - k1)) by lia.
    apply Hb. lia.
  - apply IH; [done|done|].
    destruct (decide (k1 = 0)); [done|].
    apply Forall_app. split; [done|]. by apply Forall_singleton.
Qed.

Lemma opcodes_loop_matches bs :
  ∀ i j,
    Forall (block_matches a b) bs →
    opcodes_match a b (opcodes_loop bs i j []).
Proof.
  induction bs as [|[[ai bj] size] bs IH]; intros i j Hbs; simpl;
    [constructor|].
  apply Forall_cons in Hbs as [Hb Hbs].
  rewrite DifflibFacts.opcodes_loop_app. unfold opcodes_match.
  apply Forall_app. split; [|by apply IH].
  repeat case_decide; simpl;
    repeat (apply Forall_cons; split); try apply Forall_nil;
    try done; intros _ t Ht; apply Hb; lia.
Qed.

(** Every [equal] opcode of [get_opcodes] covers equal elements. *)
Lemma get_opcodes_match ops :
  get_opcodes a b = Some ops → opcodes_match a b ops.
Proof.
  unfold get_opcodes, get_matching_blocks.
  destruct (blocks_loop a b (2 * length a + 1) [(0, length a, 0, length b)] [])
    as [acc|] eqn:Hloop; simpl; [|done].
  apply blocks_loop_matches in Hloop; [|constructor].
  assert (Hsorted : Forall (block_matches a b) (merge_sort match_le acc)).
  { by rewrite merge_sort_Permutation. }
  pose proof (collapse_matches (merge_sort match_le acc) (0, 0, 0) []
    Hsorted ltac:(intros t Ht; lia) ltac:(constructor)) as [Hcur Hna].
  destruct (collapse (merge_sort match_le acc) (0, 0, 0) [])
    as [[[i1 j1] k1] na]. simpl in Hcur, Hna.
  intros [= <-]. apply opcodes_loop_matches.
  apply Forall_app. split.
  - destruct (decide (k1 = 0)); [done|].
    apply Forall_app. split; [done|]. by apply Forall_singleton.
  - apply Forall_singleton. intros t Ht. lia.
Qed.
End MatchFacts.
End MatchFacts.

(** ** Rows without a mark *)

(** A loop that returns ends in a state with [P] when every iteration
    that returns keeps [P]. *)
Lemma for_each_post {St : Type} (P : St → Prop) body ks :
  ∀ s s',
    for_each ks body s = Some s' → P s →
    (∀ k s s1, k ∈ ks → P s → body k s = Some s1 → P s1) →
    P s'.
Proof.
  induction ks as [|k ks IH]; intros s s'; simpl.
  - by intros [= <-].
  - destruct (body k s) as [s1|] eqn:Hb; simpl; [|done].
    intros Hrun HP Hstep. apply (IH s1 s'); [done| |].
    + apply (Hstep k s); [apply list_elem_of_here|done|done].
    + intros k' s2 s3 Hin. apply Hstep. by apply list_elem_of_further.
Qed.

Lemma same_inv_push kind lline rline st :
  same_inv st → (kind = row_equal → lline = rline) →
  same_inv (push_row kind lline rline st).
Proof.
  intros (Hli & Hlen & Hsame) Heq.
  assert (Hshape : li (push_row kind lline rline st) = li st + 1 ∧
            l_out (push_row kind lline rline st) = l_out st ++ [lline] ∧
            r_out (push_row kind lline rline st) = r_out st ++ [rline])
    by (by destruct kind).
  destruct Hshape as (Hli' & Hl' & Hr').
  unfold same_inv. rewrite Hli', Hl', Hr', !length_app. simpl.
  split_and!; [lia|lia|].
  intros r Hr Hunmarked. destruct (decide (r = li st)) as [->|Hne].
  - assert (Hnl : (l_out st ++ [lline]) !! li st = Some lline)
      by (rewrite Hli; apply lookup_snoc_new).
    assert (Hnr : (r_out st ++ [rline]) !! li st = Some rline)
      by (rewrite Hli, Hlen; apply lookup_snoc_new).
    rewrite Hnl, Hnr.
    assert (Hcase : kind = row_equal ∨ kind ≠ row_equal)
      by (destruct kind; auto).
    destruct Hcase as [Hk|Hk]; [by rewrite (Heq Hk)|].
    exfalso. apply Hunmarked. by apply marked_row_new.
  - rewrite !lookup_app_l by lia. apply Hsame; [lia|].
    intros Hm. apply Hunmarked. by apply marked_row_push.
Qed.

Lemma same_inv_record_block st : same_inv st → same_inv (record_block st).
Proof. by unfold same_inv, marked_row. Qed.

Section WalkSame.
Variables left_in right_in : list string.

Lemma equal_body_inv_push i1 j1 k st st1 :
  equal_body left_in right_in i1 j1 k st = Some st1 →
  ∃ x y, left_in !! (i1 + k) = Some x ∧ right_in !! (j1 + k) = Some y ∧
         st1 = push_row row_equal x y st.
Proof.
  unfold equal_body.
  destruct (left_in !! (i1 + k)) as [x|]; simpl; [|done].
  destruct (right_in !! (j1 + k)) as [y|]; simpl; [|done].
  intros [= <-]. by exists x, y.
Qed.

Lemma other_body_inv_push tag i1 i2 j1 j2 k st st1 :
  match tag with
  | tag_equal => False
  | tag_insert => insert_body right_in j1 k st = Some st1
  | tag_delete => delete_body left_in i1 k st = Some st1
  | tag_replace =>
      replace_body left_in right_in i1 j1 (i2 - i1) (j2 - j1) k st = Some st1
  end →
  ∃ kind x y, kind ≠ row_equal ∧ st1 = push_row kind x y st.
Proof.
  destruct tag; [done| | |].
  - unfold insert_body.
    destruct (right_in !! (j1 + k)) as [y|]; simpl; [|done].
    intros [= <-]. by exists row_inserted, BLANK_FILL, y.
  - unfold delete_body.
    destruct (left_in !! (i1 + k)) as [x|]; simpl; [|done].
    intros [= <-]. by exists row_deleted, x, BLANK_FILL.
  - unfold replace_body.
    destruct (if decide (k < i2 - i1) then left_in !! (i1 + k)
              else Some BLANK_FILL) as [x|]; simpl; [|done].
    destruct (if decide (k < j2 - j1) then right_in !! (j1 + k)
              else Some BLANK_FILL) as [y|]; simpl; [|done].
    destruct (decide (k < i2 - i1 ∧ k < j2 - j1)).
    { intros [= <-]. by exists row_changed, x, y. }
    destruct (decide (k < i2 - i1)); intros [= <-].
    + by exists row_deleted, x, y.
    + by exists row_inserted, x, y.
Qed.

Lemma walk_opcode_same tag i1 i2 j1 j2 st st' :
  walk_opcode left_in right_in (tag, i1, i2, j1, j2) st = Some st' →
  (tag = tag_equal →
   ∀ t, t < i2 - i1 → left_in !! (i1 + t) = right_in !! (j1 + t)) →
  same_inv st → same_inv st'.
Proof.
  intros Hrun Heq Hsame. destruct tag; simpl in Hrun; unfold for_range in Hrun.
  - apply (for_each_post same_inv _ _ _ _ Hrun Hsame).
    intros k s s1 Hk Hs Hbody.
    apply equal_body_inv_push in Hbody as (x & y & Hx & Hy & ->).
    apply same_inv_push; [done|]. intros _.
    apply elem_of_seq in Hk.
    specialize (Heq eq_refl k ltac:(lia)). congruence.
  - apply (for_each_post same_inv _ _ _ _ Hrun (same_inv_record_block _ Hsame)).
    intros k s s1 Hk Hs Hbody.
    destruct (other_body_inv_push tag_insert i1 i2 j1 j2 k s s1 Hbody)
      as (kind & x & y & Hne & ->).
    by apply same_inv_push.
  - apply (for_each_post same_inv _ _ _ _ Hrun (same_inv_record_block _ Hsame)).
    intros k s s1 Hk Hs Hbody.
    destruct (other_body_inv_push tag_delete i1 i2 j1 j2 k s s1 Hbody)
      as (kind & x & y & Hne & ->).
    by apply same_inv_push.
  - apply (for_each_post same_inv _ _ _ _ Hrun (same_inv_record_block _ Hsame)).
    intros k s s1 Hk Hs Hbody.
    destruct (other_body_inv_push tag_replace i1 i2 j1 j2 k s s1 Hbody)
      as (kind & x & y & Hne & ->).
    by apply same_inv_push.
Qed.

Lemma walk_opcodes_cons op ops st :
  walk_opcodes left_in right_in (op :: ops) st =
  walk_opcode left_in right_in op st ≫= walk_opcodes left_in right_in ops.
Proof. reflexivity. Qed.

Lemma walk_opcodes_same ops :
  ∀ st st',
    walk_opcodes left_in right_in ops st = Some st' →
    opcodes_match left_in right_in ops →
    same_inv st → same_inv st'.
Proof.
  induction ops as [|[[[[tag i1] i2] j1] j2] ops IH]; intros st st'.
  - by intros [= <-].
  - rewrite walk_opcodes_cons.
    destruct (walk_opcode left_in right_in (tag, i1, i2, j1, j2) st)
      as [st1|] eqn:Hop; simpl; [|done].
    intros Hrun Hmatch Hsame. apply Forall_cons in Hmatch as [Hm Hmatch].
    apply (IH st1 st'); [done|done|].
    by apply (walk_opcode_same tag i1 i2 j1 j2 st st1).
Qed.
End WalkSame.

(** X12. A row that the left side marks neither deleted, nor changed,
    nor blank holds the same text on both sides. *)
Theorem compute_diff_unmarked_rows_equal (left_in right_in : list string) :
  ∃ res,
    compute_diff left_in right_in = Some res ∧
    ∀ r,
      r < length (left_lines res) →
      r ∉ deleted (left_marks res) → r ∉ changed (left_marks res) →
      r ∉ blank (left_marks res) →
      left_lines res !! r = right_lines res !! r.
Proof.
  destruct (compute_diff_facts left_in right_in) as (st & Hrun & Hf & _).
  exists (to_result st). split; [done|].
  unfold compute_diff, compute_diff_with in Hrun.
  destruct (Difflib.get_opcodes left_in right_in) as [ops|] eqn:Hops;
    simpl in Hrun; [|done].
  destruct (walk_opcodes left_in right_in ops init_locals) as [st1|] eqn:Hwalk;
    simpl in Hrun; [|done].
  assert (Hst : to_result st1 = to_result st) by congruence.
  assert (Hsame : same_inv st1).
  { apply (walk_opcodes_same left_in right_in ops init_locals st1 Hwalk).
    - by apply MatchFacts.get_opcodes_match.
    - unfold same_inv. simpl. split_and!; [done|done|]. intros r Hr. lia. }
  destruct Hsame as (Hli & Hlen & Hsame).
  rewrite <- Hst. simpl. intros r Hr Hd Hc Hb.
  apply Hsame; [lia|]. unfold marked_row. tauto.
Qed.

Lemma compute_diff_unmarked_rows_equal_witness :
  ∃ res,
    compute_diff ex_a ex_b = Some res ∧
    left_lines res !! 0 = right_lines res !! 0.
Proof.
  destruct (compute_diff_unmarked_rows_equal ex_a ex_b) as (res & Hrun & Hsame).
  exists res. split; [exact Hrun|].
  vm_compute in Hrun. injection Hrun as <-.
  apply Hsame; simpl; [lia|..]; intros Hin;
    repeat (apply elem_of_cons in Hin as [Hin|Hin]; [done|]);
    by apply elem_of_nil in Hin.
Defined.

(** ** Navigation, further *)

(** X13. On a non-empty list of blocks [next_block] and [prev_block]
    never raise, whatever the cursor was: they return the block under
    the new cursor, which lies in range, and leave the rest of the
    session alone. *)
Theorem navigation_stays_in_range (s : CompareSession) :
  diff_blocks (diff s) ≠ [] →
  ∀ step, step = next_block ∨ step = prev_block →
    ∃ s' b,
      step s = (s', Ok (Some b)) ∧
      (0 ≤ block_index s' < Z.of_nat (length (diff_blocks (diff s))))%Z ∧
      diff_blocks (diff s) !! Z.to_nat (block_index s') = Some b ∧
      diff s' = diff s ∧ source_window s' = source_window s ∧
      window s' = window s ∧ left_display s' = left_display s ∧
      right_display s' = right_display s.
Proof.
  intros Hne step Hstep.
  assert (Hk : (0 < Z.of_nat (length (diff_blocks (diff s))))%Z).
  { destruct (diff_blocks (diff s)); [done|simpl; lia]. }
  assert (Hmove : ∀ i,
    ∃ s' b,
      (set_block_index (i `mod` Z.of_nat (length (diff_blocks (diff s))));;
       current_block) s = (s', Ok (Some b)) ∧
      (0 ≤ block_index s' < Z.of_nat (length (diff_blocks (diff s))))%Z ∧
      diff_blocks (diff s) !! Z.to_nat (block_index s') = Some b ∧
      diff s' = diff s ∧ source_window s' = source_window s ∧
      window s' = window s ∧ left_display s' = left_display s ∧
      right_display s' = right_display s).
  { intros i. destruct (move_block s i Hne) as (b & Hb & Hrun).
    eexists _, b. split; [exact Hrun|]. simpl.
    pose proof (Z.mod_pos_bound i _ Hk) as Hrange.
    split_and!; try done; try lia.
    unfold py_index in Hb. by rewrite decide_True in Hb by lia. }
  destruct Hstep as [-> | ->]; unfold next_block, prev_block;
    rewrite decide_False by done; apply Hmove.
Qed.

Lemma navigation_stays_in_range_witness :
  diff_blocks (diff ex_session3) ≠ [] ∧
  ∃ s' b,
    prev_block ex_session3 = (s', Ok (Some b)) ∧
    (0 ≤ block_index s' < 3)%Z.
Proof.
  split; [done|].
  destruct (navigation_stays_in_range ex_session3 ltac:(done) prev_block
    (or_intror eq_refl)) as (s' & b & Hrun & Hrange & _).
  by exists s', b.
Defined.

(** X14. With the cursor in range, [prev_block] undoes [next_block] and
    [next_block] undoes [prev_block]: the session is back as it was and
    the second call returns the block the cursor started on. *)
Theorem next_prev_round_trip (s : CompareSession) :
  diff_blocks (diff s) ≠ [] →
  (0 ≤ block_index s < Z.of_nat (length (diff_blocks (diff s))))%Z →
  ∃ b,
    diff_blocks (diff s) !! Z.to_nat (block_index s) = Some b ∧
    (next_block;; prev_block) s = (s, Ok (Some b)) ∧
    (prev_block;; next_block) s = (s, Ok (Some b)).
Proof.
  intros Hne Hi.
  set (k := Z.of_nat (length (diff_blocks (diff s)))) in *.
  destruct (py_index_in_range _ _ Hi) as [b Hb].
  exists b. split.
  { unfold py_index in Hb. by rewrite decide_True in Hb by lia. }
  assert (Hback : ∀ d : Z,
    (((block_index s + d) `mod` k - d) `mod` k = block_index s)%Z).
  { intros d. rewrite Zminus_mod_idemp_l.
    replace (block_index s + d - d)%Z with (block_index s) by lia.
    by apply Z.mod_small. }
  assert (Hround : ∀ d : Z,
    ∀ s1, s1 = (set_block_index ((block_index s + d) `mod` k) s).1 →
      (set_block_index ((block_index s1 - d) `mod` k);; current_block) s1 =
      (s, Ok (Some b))).
  { intros d s1 ->.
    assert (Hne1 : diff_blocks (diff (set_block_index
              ((block_index s + d) `mod` k) s).1) ≠ []) by done.
    destruct (move_block _ ((block_index s + d) `mod` k - d) Hne1)
      as (b' & Hb' & Hrun).
    simpl in Hb', Hrun |- *. fold k in Hb', Hrun |- *.
    rewrite Hrun. rewrite Hback in Hb' |- *.
    rewrite Hb in Hb'. injection Hb' as <-. by destruct s. }
  split.
  - unfold py_bind. unfold next_block at 1. rewrite decide_False by done.
    destruct (move_block s (block_index s + 1) Hne) as (b1 & _ & ->).
    fold k. unfold prev_block. rewrite decide_False by done.
    apply (Hround 1%Z). done.
  - unfold py_bind. unfold prev_block at 1. rewrite decide_False by done.
    destruct (move_block s (block_index s - 1) Hne) as (b1 & _ & ->).
    fold k. unfold next_block. rewrite decide_False by done.
    replace (block_index s - 1)%Z with (block_index s + -1)%Z by lia.
    specialize (Hround (-1)%Z). simpl in Hround.
    apply (Hround _ eq_refl).
Qed.

Lemma next_prev_round_trip_witness :
  (diff_blocks (diff ex_session3) ≠ [] ∧
   (0 ≤ block_index ex_session3 < 3)%Z) ∧
  ∃ b, (next_block;; prev_block) ex_session3 = (ex_session3, Ok (Some b)).
Proof.
  split; [split; [done|simpl; lia]|].
  destruct (next_prev_round_trip ex_session3) as (b & _ & Hrun & _);
    [done|simpl; lia|].
  by exists b.
Defined.

(** ** The registry, further *)

Lemma dict_get_set_eq {K V} `{EqDecision K} (d : list (K * V)) k v :
  dict_get (dict_set d k v) k = Some v.
Proof.
  induction d as [|[k' v'] d IH]; simpl.
  - by rewrite decide_True.
  - destruct (decide (k' = k)) as [->|Hne]; simpl.
    + by rewrite decide_True.
    + by rewrite decide_False.
Qed.

Lemma dict_get_set_ne {K V} `{EqDecision K} (d : list (K * V)) k k' v :
  k ≠ k' → dict_get (dict_set d k v) k' = dict_get d k'.
Proof.
  intros Hne. induction d as [|[k0 v0] d IH]; simpl.
  - by rewrite decide_False.
  - destruct (decide (k0 = k)) as [->|Hne0]; simpl.
    + by rewrite !decide_False.
    + destruct (decide (k0 = k')); [done|apply IH].
Qed.

(** Removing the two keys of a session from a paired registry leaves it
    paired. *)
Lemma paired_remove_session g r :
  registry_paired g →
  dict_get (_sessions g) (source_window (objects g r)) = Some r →
  dict_get (_sessions g) (window (objects g r)) = Some r →
  registry_paired
    (set_sessions (fun d => dict_remove
       (dict_remove d (source_window (objects g r)))
       (window (objects g r))) g).
Proof.
  intros Hpaired Hs Hw k0 r0 Hk0. simpl in Hk0 |- *.
  set (src := source_window (objects g r)) in *.
  set (win := window (objects g r)) in *.
  assert (Hk0win : k0 ≠ win).
  { intros ->. by rewrite dict_get_remove_eq in Hk0. }
  rewrite dict_get_remove_ne in Hk0 by done.
  assert (Hk0src : k0 ≠ src).
  { intros ->. by rewrite dict_get_remove_eq in Hk0. }
  rewrite dict_get_remove_ne in Hk0 by done.
  destruct (Hpaired k0 r0 Hk0) as (Hkeys & Hs0 & Hw0).
  assert (Hr : r0 ≠ r).
  { intros ->. fold src win in Hkeys. by destruct Hkeys. }
  assert (Hfresh : ∀ k1, dict_get (_sessions g) k1 = Some r0 →
            dict_get (dict_remove (dict_remove (_sessions g) src) win) k1
            = Some r0).
  { intros k1 Hk1.
    rewrite !dict_get_remove_ne; [done| |]; intros ->; congruence. }
  split_and!; [done|by apply Hfresh|by apply Hfresh].
Qed.

Lemma ex_globals_paired : registry_paired ex_globals.
Proof.
  intros k r Hk. simpl in Hk. repeat case_decide; simplify_eq;
    split_and!; try reflexivity; auto.
Qed.



(** X16. Closing a window that is not the compare window of the session
    registered under its id leaves the registry as it is: an id that is
    not registered, and also the id of a session's source window. *)
Theorem pre_close_window_other_noop {H} (window_id : WindowId) g (h : H) :
  (∀ r, dict_get (_sessions g) window_id = Some r →
        window (objects g r) ≠ window_id) →
  on_pre_close_window window_id (g, h) = ((g, h), Ok tt).
Proof.
  intros Hother.
  unfold on_pre_close_window, py_bind, get_globals, py_ret; cbn.
  destruct (dict_get (_sessions g) window_id) as [r|] eqn:Hr; [|done].
  rewrite decide_False; [done|]. intros Heq. by apply (Hother r).
Qed.

Lemma pre_close_window_other_noop_witness :
  (∀ r, dict_get (_sessions ex_globals) 1%Z = Some r →
        window (objects ex_globals r) ≠ 1%Z) ∧
  on_pre_close_window 1%Z (ex_globals, ex_host) = ((ex_globals, ex_host), Ok tt).
Proof.
  split; [by intros r _|].
  apply (pre_close_window_other_noop 1%Z ex_globals ex_host). by intros r _.
Defined.

Section CloseListenerProofs.
Variable H : Type.
Variable view_set_read_only : ViewId → bool → Py H unit.
Variable view_set_scratch : ViewId → bool → Py H unit.
Variable view_close : ViewId → Py H unit.

Lemma try_pass_on_host_returns (m : Py H unit) g h :
  ∃ h', try_pass (on_host m) (g, h) = ((g, h'), Ok tt).
Proof.
  unfold try_pass, on_host. simpl.
  destruct (m h) as [h1 [[]|]]; by exists h1.
Qed.

Lemma on_pre_close_loop_other view items :
  ∀ g h,
    Forall (fun item : WindowId * SessionRef =>
      view ≠ left_display (objects g item.2) ∧
      view ≠ right_display (objects g item.2)) items →
    on_pre_close_loop H view_set_read_only view_set_scratch view_close
      view items ∅ (g, h) = ((g, h), Ok tt).
Proof.
  induction items as [|[wid r] items IH]; intros g h Hall; [done|].
  apply Forall_cons in Hall as [[Hl Hr] Hall]. simpl in Hl, Hr.
  simpl. unfold py_bind at 1. unfold get_globals at 1. cbn.
  rewrite decide_False by apply not_elem_of_empty.
  rewrite decide_False by tauto. by apply IH.
Qed.

Lemma on_pre_close_loop_display view items :
  ∀ g h r,
    (∃ wid, (wid, r) ∈ items) →
    (view = left_display (objects g r) ∨ view = right_display (objects g r)) →
    (∀ wid r', (wid, r') ∈ items →
       view = left_display (objects g r') ∨
       view = right_display (objects g r') → r' = r) →
    ∃ h',
      on_pre_close_loop H view_set_read_only view_set_scratch view_close
        view items ∅ (g, h) =
      ((set_sessions (fun d => dict_remove
          (dict_remove d (source_window (objects g r)))
          (window (objects g r))) g, h'), Ok tt).
Proof.
  induction items as [|[wid r'] items IH]; intros g h r [wid0 Hin] Hview Honly.
  { by apply elem_of_nil in Hin. }
  simpl. unfold py_bind at 1. unfold get_globals at 1. cbn.
  rewrite decide_False by apply not_elem_of_empty.
  destruct (decide (view = left_display (objects g r') ∨
                    view = right_display (objects g r'))) as [Hd|Hd].
  - assert (r' = r) as -> by (apply (Honly wid); [apply list_elem_of_here|done]).
    unfold pop_session. unfold py_bind at 1 2 3 4. unfold get_globals,
      modify_globals, py_ret. cbn.
    match goal with |- context [try_pass (on_host ?m) (?g1, _)] =>
      destruct (try_pass_on_host_returns m g1 h) as [h1 Hrun] end.
    exists h1. exact Hrun.
  - apply (IH g h r); [|done|].
    + exists wid0. apply elem_of_cons in Hin as [Heq|Hin]; [|done].
      injection Heq as -> ->. tauto.
    + intros wid1 r1 Hin1. apply (Honly wid1). by apply list_elem_of_further.
Qed.

Lemma dict_get_elem_of {K V} `{EqDecision K} (d : list (K * V)) k v :
  dict_get d k = Some v → (k, v) ∈ d.
Proof.
  induction d as [|[k' v'] d IH]; simpl; [done|].
  destruct (decide (k' = k)) as [->|Hne].
  - intros [= ->]. apply list_elem_of_here.
  - intros Hd. apply list_elem_of_further. by apply IH.
Qed.

(** X17. [on_pre_close] for a view that is no display of a registered
    session changes nothing and calls no view method. *)
Theorem pre_close_view_other_noop view g (h : H) :
  Forall (fun item : WindowId * SessionRef =>
    view ≠ left_display (objects g item.2) ∧
    view ≠ right_display (objects g item.2)) (_sessions g) →
  on_pre_close H view_set_read_only view_set_scratch view_close view (g, h)
  = ((g, h), Ok tt).
Proof.
  intros Hall. unfold on_pre_close. unfold py_bind, get_globals. cbn.
  by apply on_pre_close_loop_other.
Qed.

(** X18. [on_pre_close] for a display of the registered session [r],
    and of no other, returns without raising, whatever the view methods
    do, with both keys of [r] gone and the registry still paired. *)
Theorem pre_close_view_unregisters view g (h : H) r wid :
  registry_paired g →
  dict_get (_sessions g) wid = Some r →
  (view = left_display (objects g r) ∨ view = right_display (objects g r)) →
  (∀ wid' r', (wid', r') ∈ _sessions g →
     view = left_display (objects g r') ∨
     view = right_display (objects g r') → r' = r) →
  ∃ g' h',
    on_pre_close H view_set_read_only view_set_scratch view_close view
      (g, h) = ((g', h'), Ok tt) ∧
    dict_get (_sessions g') (source_window (objects g r)) = None ∧
    dict_get (_sessions g') (window (objects g r)) = None ∧
    registry_paired g'.
Proof.
  intros Hpaired Hr Hview Honly.
  destruct (Hpaired _ _ Hr) as (_ & Hs & Hw).
  destruct (on_pre_close_loop_display view (_sessions g) g h r)
    as [h' Hrun]; [|done|done|].
  { exists wid. by apply dict_get_elem_of. }
  eexists _, h'. unfold on_pre_close. unfold py_bind, get_globals. cbn.
  split; [exact Hrun|]. cbn. split_and!.
  - apply dict_get_remove_None, dict_get_remove_eq.
  - apply dict_get_remove_eq.
  - by apply paired_remove_session.
Qed.
End CloseListenerProofs.

Lemma pre_close_view_other_noop_witness :
  Forall (fun item : WindowId * SessionRef =>
     42%Z ≠ left_display (objects ex_globals item.2) ∧
     42%Z ≠ right_display (objects ex_globals item.2)) (_sessions ex_globals) ∧
  on_pre_close Host view_flag view_flag view_close_host 42%Z
    (ex_globals, ex_host) = ((ex_globals, ex_host), Ok tt).
Proof.
  split; [by repeat constructor|].
  apply (pre_close_view_other_noop Host view_flag view_flag
    view_close_host 42%Z ex_globals ex_host).
  by repeat constructor.
Defined.

Lemma pre_close_view_unregisters_witness :
  registry_paired ex_globals ∧
  dict_get (_sessions ex_globals) 2%Z = Some 0 ∧
  10%Z = left_display (objects ex_globals 0) ∧
  ∃ g' h',
    on_pre_close Host view_flag view_flag view_close_host 10%Z
      (ex_globals, ex_host_gone) = ((g', h'), Ok tt) ∧
    dict_get (_sessions g') 1%Z = None ∧ dict_get (_sessions g') 2%Z = None.
Proof.
  split; [apply ex_globals_paired|]. split; [reflexivity|].
  split; [reflexivity|].
  destruct (pre_close_view_unregisters Host view_flag view_flag
    view_close_host 10%Z ex_globals ex_host_gone 0 2%Z ex_globals_paired
    eq_refl (or_introl eq_refl)) as (g' & h' & Hrun & Hs & Hw & _).
  { intros wid' r' Hin _. simpl in Hin.
    apply elem_of_cons in Hin as [Heq|Hin]; [by injection Heq|].
    apply elem_of_cons in Hin as [Heq|Hin]; [by injection Heq|].
    by apply elem_of_nil in Hin. }
  by exists g', h'.
Defined.

(** ** Synchronised scrolling, further *)

Lemma guard_released (peer : ViewId) (s : gset ViewId) :
  ({[peer]} ∪ s) ∖ {[peer]} ⊆ s.
Proof.
  intros x Hx. apply elem_of_difference in Hx as [Hx Hn].
  apply elem_of_union in Hx as [Hx|Hx]; done.
Qed.

(** X19. [_sync_peer] never leaves a display in [_syncing]: whatever it
    does, also when it raises, [_syncing] has not grown, and the
    registry, the last-known positions and the poll flag are as before.
    For a view that is in [_syncing] it does nothing at all. *)
Theorem sync_peer_releases_guard (source_view : ViewId) g h :
  ∃ g' h' out,
    _sync_peer source_view (g, h) = ((g', h'), out) ∧
    _syncing g' ⊆ _syncing g ∧
    _sessions g' = _sessions g ∧ objects g' = objects g ∧
    _last_vp g' = _last_vp g ∧ _poll_active g' = _poll_active g ∧
    (source_view ∈ _syncing g → g' = g ∧ h' = h ∧ out = Ok tt).
Proof.
  unfold _sync_peer.
  destruct (decide (source_view ∈ _syncing g)) as [Hin|Hout].
  { eexists _, _, _. split; [reflexivity|]. split_and!; done. }
  destruct (view_window h !! source_view) as [w|].
  2:{ eexists _, _, _. split; [reflexivity|]. split_and!; done. }
  destruct (dict_get (_sessions g) w) as [r|].
  2:{ eexists _, _, _. split; [reflexivity|]. split_and!; done. }
  cbn zeta.
  assert (Hwrite : ∀ peer, ∃ g' h' out,
    guarded_write peer (on_host (viewport_position source_view)) (g, h)
      = ((g', h'), out) ∧
    _syncing g' ⊆ _syncing g ∧
    _sessions g' = _sessions g ∧ objects g' = objects g ∧
    _last_vp g' = _last_vp g ∧ _poll_active g' = _poll_active g ∧
    (source_view ∈ _syncing g → g' = g ∧ h' = h ∧ out = Ok tt)).
  { intros peer. run_py.
    destruct (viewport h !! source_view) as [p|]; cbn.
    - destruct (viewport h !! peer) as [q|]; cbn;
        (eexists _, _, _; split; [reflexivity|]; cbn; split_and!;
         [apply guard_released|done..]).
    - eexists _, _, _; split; [reflexivity|]; cbn; split_and!;
        [apply guard_released|done..]. }
  repeat case_decide; [apply Hwrite|apply Hwrite|].
  eexists _, _, _. split; [reflexivity|]. split_and!; done.
Qed.

Lemma moved_ne (p q : Pos) : p ≠ q → moved (Some q) p = true.
Proof.
  intros Hne. unfold moved. destruct p as [p1 p2], q as [q1 q2]. simpl.
  destruct (decide (p1 = q1)) as [->|H1].
  - rewrite (bool_decide_eq_true_2 (p2 ≠ q2)); [by rewrite orb_true_r|].
    intros ->. done.
  - by rewrite (bool_decide_eq_true_2 (p1 ≠ q1)).
Qed.

(** X20. A poll visit of a session whose left display has moved since
    the last visit writes the left position to the right display, once,
    whatever the right display did meanwhile: both displays and both
    last-known positions end at the left position. *)
Theorem poll_left_scroll_wins r g h (lp rp q : Pos) :
  viewport h !! left_display (objects g r) = Some lp →
  viewport h !! right_display (objects g r) = Some rp →
  left_display (objects g r) ≠ right_display (objects g r) →
  _last_vp g !! left_display (objects g r) = Some q →
  lp ≠ q →
  left_display (objects g r) ∉ _syncing g →
  ∃ g' h',
    tick_session r (g, h) = ((g', h'), Ok tt) ∧
    set_calls h' = set_calls h ++ [(right_display (objects g r), lp)] ∧
    viewport h' !! left_display (objects g r) = Some lp ∧
    viewport h' !! right_display (objects g r) = Some lp ∧
    _last_vp g' !! left_display (objects g r) = Some lp ∧
    _last_vp g' !! right_display (objects g r) = Some lp.
Proof.
  intros Hl Hr Hlr Hq Hne Hsync.
  set (lv := left_display (objects g r)) in *.
  set (rv := right_display (objects g r)) in *.
  run_py. fold lv rv. rewrite Hl. cbn. rewrite Hr. cbn.
  rewrite Hq, (moved_ne lp q Hne). rewrite bool_decide_eq_true_2 by done. cbn.
  rewrite Hr. cbn. rewrite lookup_insert_ne by done. rewrite Hl. cbn.
  rewrite lookup_insert_eq. cbn.
  eexists _, _. split; [reflexivity|]. cbn. split_and!.
  - done.
  - by rewrite lookup_insert_ne.
  - by rewrite lookup_insert_eq.
  - rewrite lookup_insert_ne by done. by rewrite lookup_insert_eq.
  - by rewrite lookup_insert_eq.
Qed.

Lemma poll_left_scroll_wins_witness :
  ∃ g' h',
    tick_session 0 (ex_globals, ex_host) = ((g', h'), Ok tt) ∧
    set_calls h' = [(11%Z, (0%Z, 5%Z))] ∧
    viewport h' !! 11%Z = Some (0%Z, 5%Z).
Proof.
  destruct (poll_left_scroll_wins 0 ex_globals ex_host (0, 5)%Z (0, 0)%Z
    (0, 0)%Z) as (g' & h' & Hrun & Hcalls & _ & Hv & _); try done.
  by exists g', h'.
Defined.

(** X21. A poll visit of a session whose left display has not moved and
    whose right display has writes the right position to the left
    display, once: both displays and both last-known positions end at
    the right position. *)
Theorem poll_right_scroll_propagates r g h (lp rp q : Pos) :
  viewport h !! left_display (objects g r) = Some lp →
  viewport h !! right_display (objects g r) = Some rp →
  left_display (objects g r) ≠ right_display (objects g r) →
  moved (_last_vp g !! left_display (objects g r)) lp = false →
  _last_vp g !! right_display (objects g r) = Some q →
  rp ≠ q →
  right_display (objects g r) ∉ _syncing g →
  ∃ g' h',
    tick_session r (g, h) = ((g', h'), Ok tt) ∧
    set_calls h' = set_calls h ++ [(left_display (objects g r), rp)] ∧
    viewport h' !! left_display (objects g r) = Some rp ∧
    viewport h' !! right_display (objects g r) = Some rp ∧
    _last_vp g' !! left_display (objects g r) = Some rp ∧
    _last_vp g' !! right_display (objects g r) = Some rp.
Proof.
  intros Hl Hr Hlr Hstill Hq Hne Hsync.
  set (lv := left_display (objects g r)) in *.
  set (rv := right_display (objects g r)) in *.
  run_py. fold lv rv. rewrite Hl. cbn. rewrite Hr. cbn.
  rewrite Hstill. cbn.
  rewrite Hq, (moved_ne rp q Hne). rewrite bool_decide_eq_true_2 by done. cbn.
  rewrite Hl. cbn. rewrite lookup_insert_eq. cbn.
  rewrite lookup_insert_ne by done. rewrite Hr. cbn.
  eexists _, _. split; [reflexivity|]. cbn. split_and!.
  - done.
  - by rewrite lookup_insert_eq.
  - by rewrite lookup_insert_ne.
  - rewrite lookup_insert_ne by done. by rewrite lookup_insert_eq.
  - by rewrite lookup_insert_eq.
Qed.

Lemma poll_right_scroll_propagates_witness :
  ∃ g' h',
    tick_session 0 (ex_globals, ex_host_right) = ((g', h'), Ok tt) ∧
    set_calls h' = [(10%Z, (0%Z, 7%Z))] ∧
    viewport h' !! 10%Z = Some (0%Z, 7%Z).
Proof.
  destruct (poll_right_scroll_propagates 0 ex_globals ex_host_right
    (0, 0)%Z (0, 7)%Z (0, 0)%Z) as (g' & h' & Hrun & Hcalls & Hv & _);
    try done.
  by exists g', h'.
Defined.

(** One visit of any session returns, and leaves the registry, the poll
    flag, the pending callbacks and the views' windows as they are. *)
Lemma tick_session_rest r g h :
  ∃ g' h',
    tick_session r (g, h) = ((g', h'), Ok tt) ∧
    _sessions g' = _sessions g ∧ objects g' = objects g ∧
    _poll_active g' = _poll_active g ∧ _syncing g' ⊆ _syncing g ∧
    timeouts h' = timeouts h ∧ view_window h' = view_window h.
Proof.
  set (lv := left_display (objects g r)) in *.
  set (rv := right_display (objects g r)) in *.
  run_py. fold lv rv.
  destruct (viewport h !! lv) as [lp|] eqn:Hl; cbn.
  2:{ exists g, h. split_and!; done. }
  destruct (viewport h !! rv) as [rp|] eqn:Hr; cbn.
  2:{ exists g, h. split_and!; done. }
  destruct (moved (_last_vp g !! lv) lp && bool_decide (lv ∉ _syncing g)); cbn.
  - rewrite Hr. cbn. rewrite lookup_insert. case_decide; cbn;
      rewrite ?Hl; cbn; rewrite lookup_insert_eq; cbn;
      (eexists _, _; split; [reflexivity|]; cbn; split_and!; try done;
       apply guard_released).
  - destruct (moved (_last_vp g !! rv) rp && bool_decide (rv ∉ _syncing g)); cbn.
    + rewrite Hl. cbn. rewrite lookup_insert_eq. cbn.
      rewrite lookup_insert. case_decide; cbn; rewrite ?Hr; cbn;
      (eexists _, _; split; [reflexivity|]; cbn; split_and!; try done;
       apply guard_released).
    + rewrite Hl. cbn. rewrite Hr. cbn.
      eexists _, _; split; [reflexivity|]; cbn; split_and!; done.
Qed.

Lemma tick_loop_rest rs :
  ∀ g h,
    ∃ g' h',
      py_for rs tick_session (g, h) = ((g', h'), Ok tt) ∧
      _sessions g' = _sessions g ∧ objects g' = objects g ∧
      _poll_active g' = _poll_active g ∧ _syncing g' ⊆ _syncing g ∧
      timeouts h' = timeouts h ∧ view_window h' = view_window h.
Proof.
  induction rs as [|r rs IH]; intros g h.
  - exists g, h. split_and!; done.
  - destruct (tick_session_rest r g h)
      as (g1 & h1 & Hrun1 & Hs1 & Ho1 & Hp1 & Hy1 & Ht1 & Hw1).
    destruct (IH g1 h1) as (g2 & h2 & Hrun2 & Hs2 & Ho2 & Hp2 & Hy2 & Ht2 & Hw2).
    exists g2, h2. simpl. unfold py_bind at 1. rewrite Hrun1.
    split; [exact Hrun2|]. split_and!; try congruence.
    by transitivity (_syncing g1).
Qed.

(** X22. A tick of the poll with an empty registry stops the poll: the
    flag is cleared, the last-known positions are dropped, and no
    further tick is scheduled.  With a session registered the tick
    returns without raising, keeps the registry and the flag, and
    schedules exactly one further tick. *)
Theorem poll_tick_stops_or_rearms g h :
  (_sessions g = [] →
   ∃ g',
     _fast_poll_tick (g, h) = ((g', h), Ok tt) ∧
     _poll_active g' = false ∧ _last_vp g' = ∅ ∧ _sessions g' = []) ∧
  (_sessions g ≠ [] →
   ∃ g' h',
     _fast_poll_tick (g, h) = ((g', h'), Ok tt) ∧
     timeouts h' = timeouts h + 1 ∧
     _sessions g' = _sessions g ∧ _poll_active g' = _poll_active g ∧
     _syncing g' ⊆ _syncing g).
Proof.
  split; intros Hs.
  - unfold _fast_poll_tick, py_bind, get_globals, modify_globals. cbn.
    rewrite decide_True by done.
    eexists. split; [reflexivity|]. by cbn.
  - unfold _fast_poll_tick. unfold py_bind at 1. unfold get_globals at 1. cbn.
    rewrite decide_False by done.
    destruct (tick_loop_rest (dict_values (_sessions g)) g h)
      as (g' & h' & Hrun & Hs' & Ho' & Hp' & Hy' & Ht' & Hw').
    unfold py_bind. rewrite Hrun. unfold on_host, set_timeout. cbn.
    eexists _, _. split; [reflexivity|]. cbn.
    split_and!; [by rewrite Ht'|done..].
Qed.

Lemma poll_tick_stops_or_rearms_witness :
  (∃ g',
     _fast_poll_tick (set_sessions (fun _ => []) ex_globals, ex_host)
       = ((g', ex_host), Ok tt) ∧
     _poll_active g' = false) ∧
  ∃ g' h',
    _fast_poll_tick (ex_globals, ex_host) = ((g', h'), Ok tt) ∧
    timeouts h' = 1.
Proof.
  split.
  - destruct (proj1 (poll_tick_stops_or_rearms
      (set_sessions (fun _ => []) ex_globals) ex_host) eq_refl)
      as (g' & Hrun & Hp & _).
    by exists g'.
  - destruct (proj2 (poll_tick_stops_or_rearms ex_globals ex_host)
      ltac:(done)) as (g' & h' & Hrun & Ht & _).
    by exists g', h'.
Defined.

(** X23. [_start_fast_poll] starts the poll at most once: it sets the
    flag, schedules one tick if and only if the flag was clear, and a
    second call right after changes nothing. *)
Theorem start_fast_poll_once g h :
  ∃ g' h',
    _start_fast_poll (g, h) = ((g', h'), Ok tt) ∧
    _poll_active g' = true ∧
    timeouts h' = timeouts h + (if _poll_active g then 0 else 1) ∧
    _sessions g' = _sessions g ∧ _last_vp g' = _last_vp g ∧
    _start_fast_poll (g', h') = ((g', h'), Ok tt).
Proof.
  unfold _start_fast_poll, py_bind, get_globals, modify_globals, on_host,
    set_timeout, py_ret. cbn.
  destruct (_poll_active g) eqn:Hp; cbn.
  - exists g, h. rewrite Hp. split_and!; try done.
  - eexists _, _. split; [reflexivity|]. cbn. split_and!; done.
Qed.

(** ** Registration *)

Lemma dict_remove_twice {K V} `{EqDecision K} (d : list (K * V)) k :
  dict_remove (dict_remove d k) k = dict_remove d k.
Proof.
  apply dict_remove_absent, dict_get_remove_eq.
Qed.

Lemma dict_remove_comm {K V} `{EqDecision K} (d : list (K * V)) k k' :
  dict_remove (dict_remove d k) k' = dict_remove (dict_remove d k') k.
Proof.
  unfold dict_remove. induction d as [|[k0 v] d IH]; [done|].
  rewrite !filter_cons. simpl.
  destruct (decide (k0 ≠ k)), (decide (k0 ≠ k')); simpl;
    rewrite ?filter_cons; simpl;
    repeat (case_decide; try done); by rewrite IH.
Qed.

Lemma dict_get_remove_Some {K V} `{EqDecision K} (d : list (K * V)) k k' v :
  dict_get (dict_remove d k) k' = Some v → dict_get d k' = Some v.
Proof.
  destruct (decide (k = k')) as [->|Hne].
  - by rewrite dict_get_remove_eq.
  - by rewrite dict_get_remove_ne.
Qed.

(** What the registration at the end of [run_compare] makes of a paired
    registry. *)
Lemma register_session_registry r src win lv rv d g h pl pr :
  registry_paired g →
  dict_get (_sessions g) src = None →
  dict_get (_sessions g) win = None →
  (∀ k, dict_get (_sessions g) k ≠ Some r) →
  viewport h !! lv = Some pl →
  viewport h !! rv = Some pr →
  ∃ g' h',
    register_session r src win lv rv d (g, h) = ((g', h'), Ok tt) ∧
    dict_get (_sessions g') src = Some r ∧
    dict_get (_sessions g') win = Some r ∧
    (∀ k, k ≠ src → k ≠ win →
          dict_get (_sessions g') k = dict_get (_sessions g) k) ∧
    registry_paired g' ∧
    diff (objects g' r) = d ∧ block_index (objects g' r) = 0%Z ∧
    _last_vp g' !! lv = Some pl ∧ _last_vp g' !! rv = Some pr ∧
    _poll_active g' = true ∧ viewport h' = viewport h.
Proof.
  intros Hpaired Hsrc Hwin Hfresh Hl Hr.
  assert (Hsets : ∀ k, k ≠ src → k ≠ win →
    dict_get (dict_set (dict_set (_sessions g) src r) win r) k
    = dict_get (_sessions g) k).
  { intros k Hks Hkw. by rewrite !dict_get_set_ne. }
  assert (Hgsrc : dict_get (dict_set (dict_set (_sessions g) src r) win r) src
                  = Some r).
  { destruct (decide (win = src)) as [->|Hne].
    - apply dict_get_set_eq.
    - rewrite dict_get_set_ne by done. apply dict_get_set_eq. }
  assert (Hlast : <[rv := pr]> (<[lv := pl]> (_last_vp g)) !! lv = Some pl).
  { destruct (decide (rv = lv)) as [->|Hne].
    - rewrite lookup_insert_eq. congruence.
    - rewrite lookup_insert_ne by done. apply lookup_insert_eq. }
  assert (Hpaired' : ∀ g', 
    _sessions g' = dict_set (dict_set (_sessions g) src r) win r →
    objects g' = (fun r' => if decide (r' = r) then
       {| source_window := src; window := win; left_display := lv;
          right_display := rv; diff := d; block_index := 0 |}
       else objects g r') →
    registry_paired g').
  { intros g' Hs' Ho' k r0. rewrite Hs', Ho'. intros Hk.
    destruct (decide (k = win)) as [->|Hkw].
    { rewrite dict_get_set_eq in Hk. injection Hk as <-.
      rewrite decide_True by done. simpl.
      split_and!; [by right|done|apply dict_get_set_eq]. }
    destruct (decide (k = src)) as [->|Hks].
    { rewrite Hgsrc in Hk. injection Hk as <-.
      rewrite decide_True by done. simpl.
      split_and!; [by left|done|apply dict_get_set_eq]. }
    rewrite Hsets in Hk by done.
    assert (Hr0 : r0 ≠ r) by (intros ->; by apply (Hfresh k)).
    rewrite decide_False by done.
    destruct (Hpaired k r0 Hk) as (Hkeys & Hs0 & Hw0).
    split; [done|].
    split; rewrite Hsets; try done; intros Heq; rewrite Heq in *; congruence. }
  unfold register_session, _start_fast_poll, py_bind, get_globals,
    modify_globals, on_host, viewport_position, set_timeout, py_ret. cbn.
  rewrite Hl. cbn. rewrite Hr. cbn.
  destruct (_poll_active g) eqn:Hp; cbn;
    (eexists _, _; split; [reflexivity|]; cbn;
     split_and!;
     [ done | apply dict_get_set_eq | done | by apply Hpaired'
     | by rewrite decide_True | by rewrite decide_True | done
     | apply lookup_insert_eq | done | done ]).
Qed.

(** X24. The registration at the end of [run_compare], for two live
    display views, a session object that is not yet registered and two
    window ids with no entry: it returns without raising; both ids lead
    to the new session, whose cursor is at block 0; every other entry
    is as before and the registry is still paired; the last-known
    positions of the two displays are their current positions; the poll
    is active. *)
Theorem register_session_pairs r src win lv rv d g h pl pr :
  registry_paired g →
  dict_get (_sessions g) src = None →
  dict_get (_sessions g) win = None →
  (∀ k, dict_get (_sessions g) k ≠ Some r) →
  viewport h !! lv = Some pl →
  viewport h !! rv = Some pr →
  ∃ g' h',
    register_session r src win lv rv d (g, h) = ((g', h'), Ok tt) ∧
    dict_get (_sessions g') src = Some r ∧
    dict_get (_sessions g') win = Some r ∧
    (∀ k, k ≠ src → k ≠ win →
          dict_get (_sessions g') k = dict_get (_sessions g) k) ∧
    registry_paired g' ∧
    diff (objects g' r) = d ∧ block_index (objects g' r) = 0%Z ∧
    _last_vp g' !! lv = Some pl ∧ _last_vp g' !! rv = Some pr ∧
    _poll_active g' = true ∧ viewport h' = viewport h.
Proof.
  apply register_session_registry.
Qed.

Lemma register_session_pairs_witness :
  ∃ g' h',
    register_session 1 5%Z 6%Z 10%Z 11%Z (diff (ex_session ex_blocks 0%Z))
      (ex_globals, ex_host) = ((g', h'), Ok tt) ∧
    dict_get (_sessions g') 5%Z = Some 1 ∧
    dict_get (_sessions g') 6%Z = Some 1 ∧
    registry_paired g'.
Proof.
  destruct (register_session_pairs 1 5%Z 6%Z 10%Z 11%Z
    (diff (ex_session ex_blocks 0%Z)) ex_globals ex_host (0, 5)%Z (0, 0)%Z
    ex_globals_paired eq_refl eq_refl)
    as (g' & h' & Hrun & Hs & Hw & _ & Hp & _); [|done|done|].
  { intros k Hk. simpl in Hk. repeat case_decide; done. }
  by exists g', h'.
Defined.

Lemma registry_paired_ext g1 g2 :
  _sessions g1 = _sessions g2 → objects g1 = objects g2 →
  registry_paired g1 → registry_paired g2.
Proof.
  intros Hs Ho Hpaired k r. rewrite <- Hs, <- Ho. apply Hpaired.
Qed.

Section Replace.
Variable view_set_read_only : ViewId → bool → Py Host unit.
Variable view_set_scratch : ViewId → bool → Py Host unit.
Variable view_close : ViewId → Py Host unit.

(** What [_close_session_by_source] leaves of a paired registry. *)
Lemma close_by_source_registry src g h :
  registry_paired g →
  ∃ g1 h1,
    _close_session_by_source Host view_set_read_only view_set_scratch
      view_close src (g, h) = ((g1, h1), Ok tt) ∧
    registry_paired g1 ∧
    dict_get (_sessions g1) src = None ∧
    (∀ k v, dict_get (_sessions g1) k = Some v →
            dict_get (_sessions g) k = Some v) ∧
    (∀ r0, dict_get (_sessions g) src = Some r0 →
           ∀ k, dict_get (_sessions g1) k ≠ Some r0).
Proof.
  intros Hpaired. unfold _close_session_by_source.
  destruct (dict_get (_sessions g) src) as [r0|] eqn:Hsrc.
  - destruct (close_present Host view_set_read_only view_set_scratch
      view_close src true g h r0 Hsrc) as [h1 Hrun].
    destruct (Hpaired _ _ Hsrc) as (Hkeys & Hs & Hw).
    set (src0 := source_window (objects g r0)) in *.
    set (win0 := window (objects g r0)) in *.
    assert (Heq : dict_remove (dict_remove (dict_remove (_sessions g) src) src0)
                    win0
                  = dict_remove (dict_remove (_sessions g) src0) win0).
    { destruct Hkeys as [->| ->].
      - by rewrite dict_remove_twice.
      - rewrite (dict_remove_comm (_sessions g) win0 src0).
        by rewrite dict_remove_twice. }
    eexists _, h1. split; [exact Hrun|]. cbn. rewrite Heq. split_and!.
    + apply (registry_paired_ext
        (set_sessions (fun d => dict_remove (dict_remove d src0) win0) g));
        [by cbn|done|].
      by apply (paired_remove_session g r0).
    + destruct Hkeys as [->| ->].
      * apply dict_get_remove_None, dict_get_remove_eq.
      * apply dict_get_remove_eq.
    + intros k v Hk. by apply dict_get_remove_Some, dict_get_remove_Some in Hk.
    + intros r1 [= <-] k Hk.
      assert (Hg : dict_get (_sessions g) k = Some r0)
        by (by apply dict_get_remove_Some, dict_get_remove_Some in Hk).
      destruct (Hpaired _ _ Hg) as ([->| ->] & _ & _).
      * fold src0 in Hk.
        rewrite dict_get_remove_None in Hk; [done|apply dict_get_remove_eq].
      * fold win0 in Hk. by rewrite dict_get_remove_eq in Hk.
  - exists g, h. split; [by apply close_absent|]. split_and!; try done.
Qed.

(** X25. Comparing again from the same source window replaces the
    session: [_close_session_by_source] returns without raising,
    whatever the view methods do, and the registration that follows it,
    on whatever the host has become by then, leads from both window ids
    to the new session, keeps the registry paired, and leaves no key
    that leads to the session registered before. *)
Theorem compare_again_replaces_session r src win lv rv d g h :
  registry_paired g →
  dict_get (_sessions g) win = None →
  (∀ k, dict_get (_sessions g) k ≠ Some r) →
  ∃ g1 h1,
    _close_session_by_source Host view_set_read_only view_set_scratch
      view_close src (g, h) = ((g1, h1), Ok tt) ∧
    ∀ h2 pl pr,
      viewport h2 !! lv = Some pl →
      viewport h2 !! rv = Some pr →
      ∃ g2 h3,
        register_session r src win lv rv d (g1, h2) = ((g2, h3), Ok tt) ∧
        dict_get (_sessions g2) src = Some r ∧
        dict_get (_sessions g2) win = Some r ∧
        registry_paired g2 ∧
        (∀ r0, dict_get (_sessions g) src = Some r0 →
               ∀ k, dict_get (_sessions g2) k ≠ Some r0).
Proof.
  intros Hpaired Hwin Hfresh.
  destruct (close_by_source_registry src g h Hpaired)
    as (g1 & h1 & Hrun & Hpaired1 & Hsrc1 & Hsub & Hgone).
  exists g1, h1. split; [exact Hrun|]. intros h2 pl pr Hl Hr.
  assert (Hwin1 : dict_get (_sessions g1) win = None).
  { destruct (dict_get (_sessions g1) win) as [v|] eqn:Hv; [|done].
    apply Hsub in Hv. congruence. }
  assert (Hfresh1 : ∀ k, dict_get (_sessions g1) k ≠ Some r).
  { intros k Hk. apply Hsub in Hk. by apply (Hfresh k). }
  destruct (register_session_registry r src win lv rv d g1 h2 pl pr
    Hpaired1 Hsrc1 Hwin1 Hfresh1 Hl Hr)
    as (g2 & h3 & Hrun2 & Hs2 & Hw2 & Hrest & Hpaired2 & _).
  exists g2, h3. split_and!; try done.
  intros r0 Hr0 k Hk.
  destruct (decide (k = src)) as [->|Hks].
  { rewrite Hs2 in Hk. injection Hk as ->. by apply (Hfresh src). }
  destruct (decide (k = win)) as [->|Hkw].
  { rewrite Hw2 in Hk. injection Hk as ->. by apply (Hfresh src). }
  rewrite Hrest in Hk by done. by apply (Hgone r0 Hr0 k).
Qed.
End Replace.

Lemma compare_again_replaces_session_witness :
  ∃ g1 h1,
    _close_session_by_source Host view_flag view_flag view_close_host 1%Z
      (ex_globals, ex_host) = ((g1, h1), Ok tt) ∧
    ∃ g2 h3,
      register_session 1 1%Z 6%Z 20%Z 21%Z (diff (ex_session ex_blocks 0%Z))
        (g1, ex_host_new) = ((g2, h3), Ok tt) ∧
      dict_get (_sessions g2) 1%Z = Some 1 ∧
      dict_get (_sessions g2) 6%Z = Some 1 ∧
      ∀ k, dict_get (_sessions g2) k ≠ Some 0.
Proof.
  destruct (compare_again_replaces_session view_flag view_flag view_close_host
    1 1%Z 6%Z 20%Z 21%Z (diff (ex_session ex_blocks 0%Z)) ex_globals ex_host
    ex_globals_paired eq_refl) as (g1 & h1 & Hrun & Hnext).
  { intros k Hk. simpl in Hk. repeat case_decide; done. }
  exists g1, h1. split; [exact Hrun|].
  destruct (Hnext ex_host_new (0, 0)%Z (0, 0)%Z eq_refl eq_refl)
    as (g2 & h3 & Hrun2 & Hs & Hw & _ & Hgone).
  exists g2, h3. split_and!; try done. by apply Hgone.
Defined.

(** ** The navigation commands *)

(** One navigation command in a window with a session that has blocks;
    [d] is the direction, [1] for next and [-1] for previous. *)
Lemma diff_command_step move (d : Z) window_id g h r :
  (move = next_block ∧ d = 1%Z) ∨ (move = prev_block ∧ d = (-1)%Z) →
  dict_get (_sessions g) window_id = Some r →
  diff_blocks (diff (objects g r)) ≠ [] →
  Forall (fun b : nat * nat =>
    b.1 < view_lines h (left_display (objects g r)) ∧
    b.2 < view_lines h (right_display (objects g r)))
    (diff_blocks (diff (objects g r))) →
  ∃ g' h' b,
    diff_command_run move window_id (g, h) = ((g', h'), Ok tt) ∧
    block_index (objects g' r) =
      ((block_index (objects g r) + d)
       `mod` Z.of_nat (length (diff_blocks (diff (objects g r)))))%Z ∧
    diff_blocks (diff (objects g r)) !! Z.to_nat (block_index (objects g' r))
      = Some b ∧
    centered h' = centered h ++ [(left_display (objects g r), b.1);
                                 (right_display (objects g r), b.2)] ∧
    caret_line h' !! right_display (objects g r) = Some b.2 ∧
    status h' = status h ++
      ["Compare: difference " +:+ pretty (block_index (objects g' r) + 1)%Z
       +:+ "/" +:+ pretty (length (diff_blocks (diff (objects g r))))] ∧
    view_lines h' = view_lines h ∧
    _sessions g' = _sessions g ∧
    diff (objects g' r) = diff (objects g r) ∧
    left_display (objects g' r) = left_display (objects g r) ∧
    right_display (objects g' r) = right_display (objects g r) ∧
    (∀ r', r' ≠ r → objects g' r' = objects g r').
Proof.
  intros Hmove Hr Hne Hlines.
  set (s := objects g r) in *.
  set (n := Z.of_nat (length (diff_blocks (diff s)))).
  assert (Hk : (0 < n)%Z).
  { unfold n. destruct (diff_blocks (diff s)); [done|simpl; lia]. }
  destruct (move_block s (block_index s + d) Hne) as (b & Hb & Hrun).
  fold n in Hb, Hrun.
  pose proof (Z.mod_pos_bound (block_index s + d) n Hk) as Hrange.
  assert (Hlook : diff_blocks (diff s) !! Z.to_nat ((block_index s + d) `mod` n)
                  = Some b).
  { unfold py_index in Hb. by rewrite decide_True in Hb by lia. }
  assert (Hmv : move s =
    ((set_block_index ((block_index s + d) `mod` n) s).1, Ok (Some b))).
  { destruct Hmove as [[-> ->]|[-> ->]]; unfold next_block, prev_block;
      rewrite decide_False by done; fold n; [exact Hrun|].
    replace (block_index s - 1)%Z with (block_index s + -1)%Z by lia.
    exact Hrun. }
  rewrite Forall_forall in Hlines.
  destruct (Hlines b) as [Hbl Hbr]; [by eapply list_elem_of_lookup_2|].
  unfold diff_command_run. unfold py_bind at 1. unfold get_globals at 1. cbn.
  rewrite Hr. unfold py_bind at 1. unfold on_session at 1. cbn. fold s.
  rewrite Hmv. cbn.
  unfold py_bind, get_globals, on_host, _scroll_to_line, status_message. cbn.
  destruct (decide (r = r)) as [_|?]; [|done]. cbn.
  rewrite (decide_True (P := b.1 < _)) by done. cbn.
  rewrite (decide_True (P := b.2 < _)) by done. cbn.
  eexists _, _, b. split; [reflexivity|]. cbn.
  destruct (decide (r = r)) as [_|?]; [|done]. cbn.
  split_and!; try done.
  - by rewrite <- app_assoc.
  - apply lookup_insert_eq.
  - intros r' Hr'. by rewrite decide_False.
Qed.

(** X26. The next and the previous command, run in a window that has a
    session with at least one block, on displays that have a line for
    every anchor: the command returns without raising, whatever the
    cursor was; the cursor moves one block forward or backward, with
    wrap-around; both displays are centred on the rows of the block
    under the new cursor, the left one first; the status message counts
    that block from 1. *)
Theorem nav_command_centres_block cmd (d : Z) window_id g h r :
  (cmd = CompareNextDiffCommand_run ∧ d = 1%Z) ∨
  (cmd = ComparePrevDiffCommand_run ∧ d = (-1)%Z) →
  dict_get (_sessions g) window_id = Some r →
  diff_blocks (diff (objects g r)) ≠ [] →
  Forall (fun b : nat * nat =>
    b.1 < view_lines h (left_display (objects g r)) ∧
    b.2 < view_lines h (right_display (objects g r)))
    (diff_blocks (diff (objects g r))) →
  ∃ g' h' b,
    cmd window_id (g, h) = ((g', h'), Ok tt) ∧
    block_index (objects g' r) =
      ((block_index (objects g r) + d)
       `mod` Z.of_nat (length (diff_blocks (diff (objects g r)))))%Z ∧
    diff_blocks (diff (objects g r)) !! Z.to_nat (block_index (objects g' r))
      = Some b ∧
    centered h' = centered h ++ [(left_display (objects g r), b.1);
                                 (right_display (objects g r), b.2)] ∧
    status h' = status h ++
      ["Compare: difference " +:+ pretty (block_index (objects g' r) + 1)%Z
       +:+ "/" +:+ pretty (length (diff_blocks (diff (objects g r))))] ∧
    (1 ≤ block_index (objects g' r) + 1
       ≤ Z.of_nat (length (diff_blocks (diff (objects g r)))))%Z ∧
    _sessions g' = _sessions g.
Proof.
  intros Hcmd Hr Hne Hlines.
  destruct (diff_command_step
    (if decide (d = 1%Z) then next_block else prev_block) d window_id g h r)
    as (g' & h' & b & Hrun & Hidx & Hb & Hc & _ & Hst & _ & Hs & _); try done.
  { destruct Hcmd as [[_ ->]|[_ ->]]; [left|right]; done. }
  exists g', h', b. split_and!; try done.
  - destruct Hcmd as [[-> ->]|[-> ->]]; exact Hrun.
  - rewrite Hidx.
    assert (Hk : (0 < Z.of_nat (length (diff_blocks (diff (objects g r)))))%Z).
    { destruct (diff_blocks (diff (objects g r))); [done|simpl; lia]. }
    pose proof (Z.mod_pos_bound (block_index (objects g r) + d) _ Hk). lia.
  - rewrite Hidx.
    assert (Hk : (0 < Z.of_nat (length (diff_blocks (diff (objects g r)))))%Z).
    { destruct (diff_blocks (diff (objects g r))); [done|simpl; lia]. }
    pose proof (Z.mod_pos_bound (block_index (objects g r) + d) _ Hk). lia.
Qed.

Lemma nav_command_centres_block_witness :
  ∃ g' h',
    ComparePrevDiffCommand_run 1%Z (ex_globals, ex_nav_host)
      = ((g', h'), Ok tt) ∧
    block_index (objects g' 0) = 2%Z ∧
    centered h' = [(10%Z, 7); (11%Z, 7)] ∧
    status h' = ["Compare: difference 3/3"].
Proof.
  destruct (nav_command_centres_block ComparePrevDiffCommand_run (-1) 1%Z
    ex_globals ex_nav_host 0) as (g' & h' & b & Hrun & Hidx & Hb & Hc & Hst & _).
  - by right.
  - reflexivity.
  - done.
  - repeat constructor.
  - exists g', h'. split; [done|]. split; [exact Hidx|].
    rewrite Hidx in Hb, Hst. injection Hb as <-. split; [exact Hc|exact Hst].
Defined.

(** X27. The two keys of a session lead to one cursor: the next command
    run in one of the two windows and then in the other moves the
    cursor of the session two blocks on, and shows two messages. *)
Theorem nav_commands_share_cursor k1 k2 g h r :
  dict_get (_sessions g) k1 = Some r →
  dict_get (_sessions g) k2 = Some r →
  diff_blocks (diff (objects g r)) ≠ [] →
  Forall (fun b : nat * nat =>
    b.1 < view_lines h (left_display (objects g r)) ∧
    b.2 < view_lines h (right_display (objects g r)))
    (diff_blocks (diff (objects g r))) →
  ∃ g' h' m1 m2,
    (CompareNextDiffCommand_run k1;; CompareNextDiffCommand_run k2) (g, h)
      = ((g', h'), Ok tt) ∧
    block_index (objects g' r) =
      ((block_index (objects g r) + 2)
       `mod` Z.of_nat (length (diff_blocks (diff (objects g r)))))%Z ∧
    status h' = status h ++ [m1; m2].
Proof.
  intros Hk1 Hk2 Hne Hlines.
  destruct (diff_command_step next_block 1 k1 g h r)
    as (g1 & h1 & b1 & Hrun1 & Hidx1 & _ & _ & _ & Hst1 & Hvl1 & Hs1 & Hd1
        & Hl1 & Hr1 & _); try done; [by left|].
  destruct (diff_command_step next_block 1 k2 g1 h1 r)
    as (g2 & h2 & b2 & Hrun2 & Hidx2 & _ & _ & _ & Hst2 & _); try done.
  { by left. }
  { by rewrite Hs1. }
  { by rewrite Hd1. }
  { by rewrite Hd1, Hl1, Hr1, Hvl1. }
  eexists g2, h2, _, _. unfold py_bind.
  unfold CompareNextDiffCommand_run. rewrite Hrun1. split; [exact Hrun2|].
  split.
  - rewrite Hidx2, Hidx1, Hd1. rewrite Z.add_mod_idemp_l.
    + f_equal. lia.
    + destruct (diff_blocks (diff (objects g r))); [done|simpl; lia].
  - rewrite Hst2, Hst1, <- app_assoc. reflexivity.
Qed.

Lemma nav_commands_share_cursor_witness :
  ∃ g' h',
    (CompareNextDiffCommand_run 1%Z;; CompareNextDiffCommand_run 2%Z)
      (ex_globals, ex_nav_host) = ((g', h'), Ok tt) ∧
    block_index (objects g' 0) = 2%Z.
Proof.
  destruct (nav_commands_share_cursor 1%Z 2%Z ex_globals ex_nav_host 0)
    as (g' & h' & m1 & m2 & Hrun & Hidx & _).
  - reflexivity.
  - reflexivity.
  - done.
  - repeat constructor.
  - by exists g', h'.
Defined.

(** X28. The navigation commands when there is nothing to move to.  In
    a window without a session they show the message that no
    comparison is active, and change nothing else.  In a window whose
    session has no block they do nothing at all: no scroll and no
    message. *)
Theorem nav_command_nothing_to_show cmd window_id g h :
  cmd = CompareNextDiffCommand_run ∨ cmd = ComparePrevDiffCommand_run →
  (dict_get (_sessions g) window_id = None →
   ∃ h',
     cmd window_id (g, h) = ((g, h'), Ok tt) ∧
     status h' = status h ++ ["Compare: no active comparison."] ∧
     centered h' = centered h ∧ caret_line h' = caret_line h) ∧
  (∀ r,
     dict_get (_sessions g) window_id = Some r →
     diff_blocks (diff (objects g r)) = [] →
     ∃ g',
       cmd window_id (g, h) = ((g', h), Ok tt) ∧
       _sessions g' = _sessions g ∧ ∀ r', objects g' r' = objects g r').
Proof.
  intros Hcmd. split.
  - intros Hnone.
    destruct Hcmd as [-> | ->];
      unfold CompareNextDiffCommand_run, ComparePrevDiffCommand_run,
        diff_command_run, py_bind, get_globals, on_host, status_message; cbn;
      rewrite Hnone; cbn; (eexists; split; [reflexivity|done]).
  - intros r Hr Hnil.
    destruct Hcmd as [-> | ->];
      unfold CompareNextDiffCommand_run, ComparePrevDiffCommand_run,
        diff_command_run, py_bind, get_globals, on_session, next_block,
        prev_block, py_ret; cbn;
      rewrite Hr; cbn; rewrite decide_True by done; cbn;
      (eexists; split; [reflexivity|]; cbn; split; [done|]);
      intros r'; case_decide; congruence.
Qed.

Lemma nav_command_nothing_to_show_witness :
  ∃ h',
    CompareNextDiffCommand_run 7%Z (ex_globals, ex_nav_host)
      = ((ex_globals, h'), Ok tt) ∧
    status h' = ["Compare: no active comparison."].
Proof.
  destruct (proj1 (nav_command_nothing_to_show CompareNextDiffCommand_run 7%Z
    ex_globals ex_nav_host (or_introl eq_refl)) eq_refl)
    as (h' & Hrun & Hst & _).
  by exists h'.
Defined.

(** ** Mark and compare *)

(** [CompareMarkCommand.run] on a tab of a window that has no mark, or
    whose mark is that tab. *)
Lemma mark_command_run (v : ViewId) (w : WindowId) m h n :
  tab_window h !! v = Some w →
  tab_name h !! v = Some n →
  String.prefix ">> " n = false →
  (_marked m !! w = None ∨ _marked m !! w = Some v) →
  CompareMarkCommand_run v (m, h) =
  (({| _marked := <[w := v]> (_marked m);
       _marked_names := <[v := n]> (_marked_names m) |},
    {| tab_window := tab_window h;
       tab_name := <[v := ">> " +:+ marked_label h v]> (tab_name h);
       tab_file := tab_file h; window_tabs := window_tabs h |}), Ok tt).
Proof.
  intros Hw Hn Hp Hprev.
  unfold CompareMarkCommand_run. unfold py_bind at 1. unfold get_tabs at 1.
  cbn [fst snd]. rewrite Hw. unfold py_bind at 1. unfold get_marks at 1.
  cbn [fst snd]. unfold py_bind at 1.
  assert (Hskip : match _marked m !! w with
    | Some prev => if decide (prev ≠ 0%Z ∧ prev ≠ v) then _unmark_tab prev
                   else py_ret tt
    | None => py_ret tt end (m, h) = ((m, h), Ok tt)).
  { destruct Hprev as [Hprev|Hprev]; unfold ViewId, WindowId in *;
      rewrite Hprev; [done|]. rewrite decide_False; [done|]. intros [_ ?]. done. }
  unfold ViewId, WindowId in *. rewrite Hskip.
  unfold py_bind, set_marked, get_tabs, set_marked_names, set_name, view_name.
  unfold ViewId, WindowId in *.
  cbn [fst snd]. rewrite Hn. cbn [from_option]. unfold id. rewrite Hp. cbv beta iota. cbn [fst snd]. rewrite Hn. reflexivity.
Qed.

(** [CompareMarkCommand.run] on a tab of a window whose mark is another
    open tab. *)
Lemma mark_command_run_other (v p : ViewId) (w : WindowId) m h n np :
  tab_window h !! v = Some w →
  tab_name h !! v = Some n →
  String.prefix ">> " n = false →
  _marked m !! w = Some p → p ≠ 0%Z → p ≠ v →
  tab_name h !! p = Some np →
  CompareMarkCommand_run v (m, h) =
  (({| _marked := <[w := v]> (_marked m);
       _marked_names := <[v := n]> (delete p (_marked_names m)) |},
    {| tab_window := tab_window h;
       tab_name := <[v := ">> " +:+ marked_label h v]>
                     (<[p := default "" (_marked_names m !! p)]> (tab_name h));
       tab_file := tab_file h; window_tabs := window_tabs h |}), Ok tt).
Proof.
  intros Hw Hn Hp Hprev Hp0 Hpv Hnp.
  unfold CompareMarkCommand_run. unfold py_bind at 1. unfold get_tabs at 1.
  cbn [fst snd]. rewrite Hw. unfold py_bind at 1. unfold get_marks at 1.
  cbn [fst snd]. unfold py_bind at 1.
  unfold ViewId, WindowId in *. rewrite Hprev.
  rewrite decide_True by done.
  unfold _unmark_tab. unfold py_bind at 1. unfold get_marks at 1.
  cbn [fst snd]. unfold py_bind at 1. unfold set_marked_names at 1.
  cbn [fst snd]. unfold try_pass, set_name at 1. cbn [fst snd].
  unfold ViewId, WindowId in *. rewrite Hnp.
  unfold py_bind, set_marked, get_tabs, set_marked_names, set_name, view_name.
  unfold ViewId, WindowId in *.
  cbn [fst snd tab_name _marked _marked_names tab_window tab_file window_tabs].
  rewrite lookup_insert_ne by done. rewrite Hn. cbn [from_option]. unfold id. rewrite Hp.
  cbv beta iota.
  cbn [fst snd tab_name _marked _marked_names tab_window tab_file window_tabs].
  rewrite lookup_insert_ne by done. rewrite Hn.
  unfold marked_label, view_name. unfold ViewId, WindowId in *.
  cbn [tab_name tab_file]. rewrite lookup_insert_ne by done. reflexivity.
Qed.

(** X29. One marker per window.  Marking a tab and then another tab of
    the same window, when neither tab name starts with the marker
    already: both commands return without raising; the window's mark is
    the second tab; the first tab has its own name back and no saved
    name left; the second tab shows the marker in front of its label
    and its own name is saved. *)
Theorem mark_moves_marker (v1 v2 : ViewId) (w : WindowId) m h n1 n2 :
  tab_window h !! v1 = Some w →
  tab_window h !! v2 = Some w →
  v1 ≠ v2 → v1 ≠ 0%Z →
  tab_name h !! v1 = Some n1 →
  tab_name h !! v2 = Some n2 →
  String.prefix ">> " n1 = false →
  String.prefix ">> " n2 = false →
  _marked m !! w = None →
  ∃ m' h',
    (CompareMarkCommand_run v1;; CompareMarkCommand_run v2) (m, h)
      = ((m', h'), Ok tt) ∧
    _marked m' !! w = Some v2 ∧
    tab_name h' !! v1 = Some n1 ∧
    tab_name h' !! v2 = Some (">> " +:+ marked_label h v2) ∧
    _marked_names m' !! v1 = None ∧
    _marked_names m' !! v2 = Some n2.
Proof.
  intros Hw1 Hw2 Hne Hv1 Hn1 Hn2 Hp1 Hp2 Hnone.
  unfold py_bind.
  rewrite (mark_command_run v1 w m h n1) by auto.
  rewrite (mark_command_run_other v2 v1 w _ _ n2 (">> " +:+ marked_label h v1));
    try done; cbn [tab_window tab_name _marked _marked_names].
  - eexists _, _. split; [reflexivity|].
    cbn [tab_window tab_name tab_file _marked _marked_names].
    unfold ViewId, WindowId in *. split_and!.
    + apply lookup_insert_eq.
    + rewrite lookup_insert_ne by done. rewrite !lookup_insert_eq. done.
    + rewrite lookup_insert_eq. f_equal. f_equal.
      unfold marked_label, view_name. cbn [tab_name tab_file].
      unfold ViewId, WindowId in *. by rewrite lookup_insert_ne by done.
    + rewrite lookup_insert_ne by done. apply lookup_delete_eq.
    + apply lookup_insert_eq.
  - unfold ViewId, WindowId in *. by rewrite lookup_insert_ne by done.
  - apply lookup_insert_eq.
  - apply lookup_insert_eq.
Qed.

Lemma mark_moves_marker_witness :
  ∃ m' h',
    (CompareMarkCommand_run 3%Z;; CompareMarkCommand_run 4%Z)
      (ex_marks, ex_tabs) = ((m', h'), Ok tt) ∧
    _marked m' !! 1%Z = Some 4%Z ∧
    tab_name h' !! 3%Z = Some "notes" ∧
    tab_name h' !! 4%Z = Some ">> untitled".
Proof.
  destruct (mark_moves_marker 3%Z 4%Z 1%Z ex_marks ex_tabs "notes" "")
    as (m' & h' & Hrun & Hm & Hn1 & Hn2 & _); try done.
  by exists m', h'.
Defined.

(** X30. A mark does not outlive its tab.  After a tab is marked,
    [_get_marked] returns it for as long as it is among the views of
    the window; once it is not, [_get_marked] returns [None] and drops
    the mark and the saved name, and a second call changes nothing. *)
Theorem stale_mark_is_forgotten (v : ViewId) (w : WindowId) m h n :
  tab_window h !! v = Some w →
  tab_name h !! v = Some n →
  String.prefix ">> " n = false →
  _marked m !! w = None →
  ∃ m1 h1,
    CompareMarkCommand_run v (m, h) = ((m1, h1), Ok tt) ∧
    _marked m1 !! w = Some v ∧ _marked_names m1 !! v = Some n ∧
    ∀ h2,
      (v ∈ window_tabs h2 w →
       _get_marked w (m1, h2) = ((m1, h2), Ok (Some v))) ∧
      (v ∉ window_tabs h2 w →
       ∃ m2,
         _get_marked w (m1, h2) = ((m2, h2), Ok None) ∧
         _marked m2 !! w = None ∧ _marked_names m2 !! v = None ∧
         _get_marked w (m2, h2) = ((m2, h2), Ok None)).
Proof.
  intros Hw Hn Hp Hnone.
  eexists _, _. split; [by apply (mark_command_run v w m h n); auto|].
  cbn [_marked _marked_names]. unfold ViewId, WindowId in *.
  split; [apply lookup_insert_eq|]. split; [apply lookup_insert_eq|].
  intros h2. split; intros Hin.
  - unfold _get_marked, py_bind, get_marks, get_tabs, py_ret.
    cbn [fst snd _marked]. unfold ViewId, WindowId in *.
    rewrite lookup_insert_eq. by rewrite decide_True.
  - unfold _get_marked, py_bind, get_marks, get_tabs, py_ret, set_marked,
      set_marked_names.
    cbn [fst snd _marked _marked_names]. unfold ViewId, WindowId in *.
    rewrite lookup_insert_eq. rewrite decide_False by done.
    eexists. split; [reflexivity|]. cbn [fst snd _marked _marked_names].
    rewrite !lookup_delete_eq. done.
Qed.

Lemma stale_mark_is_forgotten_witness :
  ∃ m1 h1,
    CompareMarkCommand_run 3%Z (ex_marks, ex_tabs) = ((m1, h1), Ok tt) ∧
    _marked m1 !! 1%Z = Some 3%Z ∧
    _get_marked 1%Z (m1, ex_tabs) = ((m1, ex_tabs), Ok (Some 3%Z)).
Proof.
  destruct (stale_mark_is_forgotten 3%Z 1%Z ex_marks ex_tabs "notes")
    as (m1 & h1 & Hrun & Hm & _ & Hget); try done.
  exists m1, h1. split_and!; try done.
  apply (proj1 (Hget ex_tabs)). cbn. apply list_elem_of_here.
Defined.
